(** * Capture-and-fusion service: state store, capture worker, fusion engine

    A shallow embedding of [capture_server.py] (the path-addressed state
    store behind the HTTP control surface) and of [main.py] (the exposure
    fusion engine and the per-camera capture worker).

    - Python values of the store are a tagged tree ([pyval]); a [dict] is an
      association list in insertion order with string keys.
    - [abort(code, ...)] and the exceptions caught around it are a [response]
      value carrying the HTTP code and the kind of failure.
    - A numpy array is a shape together with its row-major data; the float64
      arithmetic, the numpy reductions and the OpenCV primitives are
      operations of an interface, constrained only where a theorem needs it. *)

From Stdlib Require Import ZArith QArith Qabs Lia Lqa Ascii String List.
From Stdlib Require Import PrimFloat.
From stdpp Require Import base option list strings.

Local Open Scope Z_scope.

(* ===================================================================== *)
(** ** Python strings: [str.split], [str.join], [str.lower], [int()]      *)
(* ===================================================================== *)

Module PyStr.

(** [s.split(sep)] for a non-empty [sep]: the occurrences of [sep] are
    found from left to right and do not overlap.  [skip] counts the
    characters of a separator just matched that are still to be passed. *)
Fixpoint split_go (sep s : string) (skip : nat) : list string :=
  match s with
  | EmptyString => [EmptyString]
  | String c s' =>
      match skip with
      | S k => split_go sep s' k
      | O =>
          if String.prefix sep s
          then EmptyString :: split_go sep s' (String.length sep - 1)
          else match split_go sep s' 0 with
               | r :: rs => String c r :: rs
               | [] => [String c EmptyString]
               end
      end
  end.

(** [s.split(sep)] raises [ValueError] on the empty separator. *)
Definition split (s sep : string) : option (list string) :=
  match sep with
  | EmptyString => None
  | _ => Some (split_go sep s 0)
  end.

Definition nonempty (s : string) : bool :=
  match s with EmptyString => false | _ => true end.

(** [[p for p in path.split(sep) if p != ""]] *)
Definition split_parts (path sep : string) : option (list string) :=
  match split path sep with
  | Some l => Some (List.filter nonempty l)
  | None => None
  end.

(** [sep.join(parts)] *)
Definition join (sep : string) (parts : list string) : string :=
  String.concat sep parts.

Definition lower_ascii (c : ascii) : ascii :=
  let n := nat_of_ascii c in
  if ((65 <=? n) && (n <=? 90))%nat then ascii_of_nat (n + 32) else c.

(** [s.lower()] on ASCII text.  A character of another script is left as
    it is here; what rests on it is stated for ASCII text. *)
Fixpoint lower (s : string) : string :=
  match s with
  | EmptyString => EmptyString
  | String c s' => String (lower_ascii c) (lower s')
  end.

(** The white space that [int()] drops around an ASCII string: the space
    and the five controls [\t \n \v \f \r] (codes 9 to 13).  The
    separators of codes 28 to 31 are white space for [str.isspace] and
    [str.strip], not here: [int] keeps an ASCII string as it is and skips
    what the C locale calls a space. *)
Definition is_space (c : ascii) : bool :=
  let n := nat_of_ascii c in
  ((9 <=? n) && (n <=? 13) || (n =? 32))%nat.

Fixpoint lstrip (s : string) : string :=
  match s with
  | String c s' => if is_space c then lstrip s' else s
  | EmptyString => EmptyString
  end.

(** Drops trailing white space: a character is kept when something other
    than white space follows it or it is not white space itself. *)
Fixpoint rstrip (s : string) : string :=
  match s with
  | EmptyString => EmptyString
  | String c s' =>
      match rstrip s' with
      | EmptyString => if is_space c then EmptyString else String c EmptyString
      | r => String c r
      end
  end.

Definition digit_of (c : ascii) : option Z :=
  let n := nat_of_ascii c in
  if ((48 <=? n) && (n <=? 57))%nat then Some (Z.of_nat n - 48) else None.

Definition underscore : ascii := "_"%char.

(** Decimal digits, single underscores allowed between two digits.
    [prev_digit] tells whether the character before was a digit. *)
Fixpoint digits_go (s : string) (acc : Z) (prev_digit : bool) : option Z :=
  match s with
  | EmptyString => if prev_digit then Some acc else None
  | String c s' =>
      match digit_of c with
      | Some d => digits_go s' (10 * acc + d) true
      | None =>
          if (Ascii.eqb c underscore && prev_digit)%bool
          then match s' with
               | String c' _ =>
                   match digit_of c' with
                   | Some _ => digits_go s' acc false
                   | None => None
                   end
               | EmptyString => None
               end
          else None
      end
  end.

(** The number of decimal digits of a string. *)
Fixpoint digit_count (s : string) : nat :=
  match s with
  | EmptyString => O
  | String c s' =>
      match digit_of c with
      | Some _ => S (digit_count s')
      | None => digit_count s'
      end
  end.

(** The default of [sys.int_max_str_digits]: [int()] raises [ValueError]
    on a string of more digits. *)
Definition MAX_STR_DIGITS : nat := 4300.

(** Every character is ASCII: its code is below 128. *)
Fixpoint is_ascii (s : string) : bool :=
  match s with
  | EmptyString => true
  | String c s' => (nat_of_ascii c <? 128)%nat && is_ascii s'
  end.

(** [int(s)] on ASCII text, base 10: surrounding white space is dropped, one
    sign is allowed, then digits, 4300 of them at most.  [None] stands for
    [ValueError].  On ASCII text this is what Python computes.  A string
    with another character is refused here, as every character that is
    neither a digit, a sign, an underscore nor white space is; Python reads
    the decimal digits and the spaces of other scripts as well, so what
    rests on a refusal is stated for ASCII text. *)
Definition int (s : string) : option Z :=
  let body := rstrip (lstrip s) in
  if (MAX_STR_DIGITS <? digit_count body)%nat then None
  else
    match body with
    | String "-"%char ds => option_map Z.opp (digits_go ds 0 false)
    | String "+"%char ds => digits_go ds 0 false
    | ds => digits_go ds 0 false
    end.

(** No separator starts inside [p], even one that would run over into a
    separator put after [p]. *)
Fixpoint clean (sep p : string) : Prop :=
  match p with
  | EmptyString => True
  | String _ p' => String.prefix sep (String.append p sep) = false /\ clean sep p'
  end.

(** No separator occurs in [p]. *)
Fixpoint nosep (sep p : string) : Prop :=
  match p with
  | EmptyString => True
  | String _ p' => String.prefix sep p = false /\ nosep sep p'
  end.

End PyStr.

(* ===================================================================== *)
(** ** The state store of [capture_server.py]                             *)
(* ===================================================================== *)

Module Store.

(** The values that live in [shared_state].  [PObj cls] is any other object
    (a numpy frame, a capture handle), known by the name of its class. *)
#[local] Unset Elimination Schemes.
Inductive pyval : Type :=
  | PNone
  | PBool (b : bool)
  | PInt (z : Z)
  | PFloat (f : float)
  | PStr (s : string)
  | PList (l : list pyval)
  | PTuple (l : list pyval)
  | PDict (d : list (string * pyval))
  | PObj (cls : string).
#[local] Set Elimination Schemes.

(** The failures of the store, by kind. *)
Inductive failure : Type :=
  | KeyMissing (part : string)
  | BadIndex (part : string)
  | IndexOutOfRange (idx : Z)
  | NotContainer (part : string)
  | EmptyPath
  | MissingArgument
  | BadParent
  | EmptySeparator.

(** A handler either returns or leaves through [abort(code, ...)]; an
    exception that no handler catches ends the request with code 500. *)
Inductive response (A : Type) : Type :=
  | Ok (a : A)
  | Abort (code : Z) (why : failure).
Arguments Ok {A} a.
Arguments Abort {A} code why.

(** [str(type(value))] *)
Definition type_repr (cls : string) : string :=
  String.append "<class '" (String.append cls "'>").

(** [sanitize_value]; the keys of a dict of the store are strings already,
    so [str(k)] leaves them as they are. *)
Fixpoint sanitize_value (value : pyval) : pyval :=
  match value with
  | PNone | PBool _ | PInt _ | PFloat _ | PStr _ => value
  | PList l | PTuple l => PList (List.map sanitize_value l)
  | PDict d => PDict (List.map (fun kv => (fst kv, sanitize_value (snd kv))) d)
  | PObj cls => PStr (type_repr cls)
  end.

(** [node[part]] on a dict, [None] when [part not in node]. *)
Fixpoint dict_get (d : list (string * pyval)) (key : string) : option pyval :=
  match d with
  | [] => None
  | (k, v) :: d' => if String.eqb k key then Some v else dict_get d' key
  end.

(** [parent[key] = val] on a dict: a key already there keeps its place, a
    new key goes to the end. *)
Fixpoint dict_set (d : list (string * pyval)) (key : string) (val : pyval)
  : list (string * pyval) :=
  match d with
  | [] => [(key, val)]
  | (k, v) :: d' =>
      if String.eqb k key then (k, val) :: d' else (k, v) :: dict_set d' key val
  end.

(** The position that the index [idx] names in a sequence of length [n]:
    Python counts a negative index from the end; [None] is [IndexError]. *)
Definition norm_index (n : nat) (idx : Z) : option nat :=
  if (0 <=? idx) && (idx <? Z.of_nat n) then Some (Z.to_nat idx)
  else if (idx <? 0) && (- Z.of_nat n <=? idx) then Some (Z.to_nat (Z.of_nat n + idx))
  else None.

(** [node[idx]] on a list or tuple. *)
Definition seq_get (l : list pyval) (idx : Z) : option pyval :=
  match norm_index (length l) idx with
  | Some i => l !! i
  | None => None
  end.

(** [parent[idx] = val] on a list. *)
Definition seq_set (l : list pyval) (idx : Z) (val : pyval) : option (list pyval) :=
  match norm_index (length l) idx with
  | Some i => Some (<[i := val]> l)
  | None => None
  end.

(** The loop of [resolve_path] over the segments. *)
Fixpoint resolve_parts (node : pyval) (parts : list string) : response pyval :=
  match parts with
  | [] => Ok node
  | part :: rest =>
      match node with
      | PDict d =>
          match dict_get d part with
          | None => Abort 404 (KeyMissing part)
          | Some child => resolve_parts child rest
          end
      | PList l | PTuple l =>
          match PyStr.int part with
          | None => Abort 404 (BadIndex part)
          | Some idx =>
              match seq_get l idx with
              | None => Abort 404 (IndexOutOfRange idx)
              | Some child => resolve_parts child rest
              end
          end
      | _ => Abort 404 (NotContainer part)
      end
  end.

(** The segments that [resolve_path] walks: none for the empty path,
    otherwise the non-empty pieces between separators.  [None] is the
    [ValueError] of an empty separator. *)
Definition path_parts (path sep : string) : option (list string) :=
  match path with
  | EmptyString => Some []
  | _ => PyStr.split_parts path sep
  end.

(** [resolve_path(root, path, sep)].  The [ValueError] of an empty
    separator is an exception, not an [abort]: both callers catch it. *)
Definition resolve_path (root : pyval) (path sep : string) : response pyval :=
  match path_parts path sep with
  | None => Abort 500 EmptySeparator
  | Some parts => resolve_parts root parts
  end.

(** [get_data] for the query [v=path&sep=sep]: whatever is raised inside
    the [try] leaves as 404. *)
Definition get_data (shared_state : pyval) (v sep : string) : response pyval :=
  match resolve_path shared_state v sep with
  | Ok value => Ok (sanitize_value value)
  | Abort _ why => Abort 404 why
  end.

(** The container at [parts] replaced by [new]: what the store looks like
    once the object that [resolve_parts] reached has been changed in place.
    The store is a tree, every container has one place. *)
Fixpoint replace_at (node : pyval) (parts : list string) (new : pyval) : pyval :=
  match parts with
  | [] => new
  | part :: rest =>
      match node with
      | PDict d =>
          match dict_get d part with
          | Some child => PDict (dict_set d part (replace_at child rest new))
          | None => node
          end
      | PList l =>
          match PyStr.int part with
          | Some idx =>
              match norm_index (length l) idx with
              | Some i =>
                  match l !! i with
                  | Some child => PList (<[i := replace_at child rest new]> l)
                  | None => node
                  end
              | None => node
              end
          | None => node
          end
      | PTuple l =>
          match PyStr.int part with
          | Some idx =>
              match norm_index (length l) idx with
              | Some i =>
                  match l !! i with
                  | Some child => PTuple (<[i := replace_at child rest new]> l)
                  | None => node
                  end
              | None => node
              end
          | None => node
          end
      | _ => node
      end
  end.

(** The assignment of [set_data] on the parent it resolved. *)
Definition assign (parent : pyval) (target_key : string) (val : pyval)
  : response pyval :=
  match parent with
  | PDict d => Ok (PDict (dict_set d target_key val))
  | PList l =>
      match PyStr.int target_key with
      | None => Abort 400 (BadIndex target_key)
      | Some idx =>
          match seq_set l idx val with
          | None => Abort 400 (IndexOutOfRange idx)
          | Some l' => Ok (PList l')
          end
      end
  | _ => Abort 400 BadParent
  end.

(** [set_data] once the value is parsed: the new store, or the abort.
    [k] is the path and [sep] the separator of the query. *)
Definition set_value (shared_state : pyval) (k : string) (val : pyval) (sep : string)
  : response pyval :=
  match k with
  | EmptyString => Abort 400 MissingArgument
  | _ =>
      match PyStr.split_parts k sep with
      | None => Abort 500 EmptySeparator
      | Some parts =>
          match parts with
          | [] => Abort 400 EmptyPath
          | _ =>
              let target_key := List.last parts EmptyString in
              let parent_path := PyStr.join sep (List.removelast parts) in
              let resolved :=
                match parent_path with
                | EmptyString => Ok shared_state
                | _ => resolve_path shared_state parent_path sep
                end in
              match resolved with
              | Abort _ why => Abort 400 why
              | Ok parent =>
                  match assign parent target_key val with
                  | Abort _ why => Abort 400 why
                  | Ok parent' =>
                      Ok (replace_at shared_state
                            (default [] (path_parts parent_path sep)) parent')
                  end
              end
          end
      end
  end.

Section ParseValue.
(** [float(v)] of Python, [None] for [ValueError]. *)
Variable py_float : string -> option float.

(** [_parse_value] *)
Definition _parse_value (v : string) : pyval :=
  if String.eqb (PyStr.lower v) "true" then PBool true
  else if String.eqb (PyStr.lower v) "false" then PBool false
  else match PyStr.int v with
       | Some z => PInt z
       | None =>
           match py_float v with
           | Some f => PFloat f
           | None => PStr v
           end
       end.

(** [set_data] for the query [k=..&v=..&sep=..]. *)
Definition set_data (shared_state : pyval) (k v sep : string) : response pyval :=
  set_value shared_state k (_parse_value v) sep.
End ParseValue.

(** The parent of a path can take an assignment at [target_key]: any key
    for a dict, an integer index inside the list for a list. *)
Definition settable (parent : pyval) (target_key : string) : Prop :=
  match parent with
  | PDict _ => True
  | PList l =>
      exists i, PyStr.int target_key = Some i /\
                - Z.of_nat (length l) <= i < Z.of_nat (length l)
  | _ => False
  end.

(** The parent is a dict or a list. *)
Definition is_container (parent : pyval) : Prop :=
  match parent with
  | PDict _ | PList _ => True
  | _ => False
  end.

(** The store of scenario 4 of the specification: [{a: {b: [10,20,30]}}]. *)
Definition store_ab : pyval :=
  PDict [("a"%string, PDict [("b"%string, PList [PInt 10; PInt 20; PInt 30])])].

(** Built from [None], booleans, numbers, strings, lists and dicts only:
    what [jsonify] takes, with neither a tuple nor another object in it. *)
Fixpoint json_safe (v : pyval) : bool :=
  match v with
  | PNone | PBool _ | PInt _ | PFloat _ | PStr _ => true
  | PList l => forallb json_safe l
  | PDict d => forallb (fun kv => json_safe (snd kv)) d
  | PTuple _ | PObj _ => false
  end.

(** Induction over the values, through the lists and dicts they nest. *)
Section PyvalInduction.
Variable P : pyval -> Prop.
Hypothesis HNone : P PNone.
Hypothesis HBool : forall b, P (PBool b).
Hypothesis HInt : forall z, P (PInt z).
Hypothesis HFloat : forall f, P (PFloat f).
Hypothesis HStr : forall s, P (PStr s).
Hypothesis HList : forall l, Forall P l -> P (PList l).
Hypothesis HTuple : forall l, Forall P l -> P (PTuple l).
Hypothesis HDict : forall d, Forall (fun kv => P (snd kv)) d -> P (PDict d).
Hypothesis HObj : forall cls, P (PObj cls).

Fixpoint pyval_induction (v : pyval) : P v :=
  match v with
  | PNone => HNone
  | PBool b => HBool b
  | PInt z => HInt z
  | PFloat f => HFloat f
  | PStr s => HStr s
  | PList l =>
      HList l ((fix all (l : list pyval) : Forall P l :=
                  match l with
                  | [] => Stdlib.Lists.List.Forall_nil P
                  | x :: l' => Stdlib.Lists.List.Forall_cons P x l' (pyval_induction x) (all l')
                  end) l)
  | PTuple l =>
      HTuple l ((fix all (l : list pyval) : Forall P l :=
                   match l with
                   | [] => Stdlib.Lists.List.Forall_nil P
                   | x :: l' => Stdlib.Lists.List.Forall_cons P x l' (pyval_induction x) (all l')
                   end) l)
  | PDict d =>
      HDict d ((fix all (d : list (string * pyval)) : Forall (fun kv => P (snd kv)) d :=
                  match d with
                  | [] => Stdlib.Lists.List.Forall_nil _
                  | kv :: d' => Stdlib.Lists.List.Forall_cons _ kv d' (pyval_induction (snd kv)) (all d')
                  end) d)
  | PObj cls => HObj cls
  end.
End PyvalInduction.

(** *** The image endpoint *)

(** What [get_image] answers with: the stored bytes as they are, or the
    JPEG that [cv2.imencode] makes of an array. *)
Inductive image_body : Type :=
  | Verbatim (cls : string)
  | Encoded (cls : string).

(** The outcome of a step of the image route: a value, or the status code
    of [abort(code)]; an exception that nothing catches is Flask's 500. *)
Inductive http (A : Type) : Type :=
  | Served (a : A)
  | Refused (code : Z).
Arguments Served {A} a.
Arguments Refused {A} code.

Section Images.
(** What Python finds in an object that is opaque here, by its class:
    [bool(x)], [len(x)] and [x[1]]; [None] when the operation raises. *)
Variable obj_truth : string -> option bool.
Variable obj_len : string -> option nat.
Variable obj_item1 : string -> option pyval.
(** Whether [cv2.imencode] reports success. *)
Variable imencode_ok : bool.

(** [bool(v)]; [None] when the test raises. *)
Definition truthy (v : pyval) : option bool :=
  match v with
  | PNone => Some false
  | PBool b => Some b
  | PInt z => Some (negb (z =? 0))
  | PFloat f => Some (negb (PrimFloat.eqb f PrimFloat.zero))
  | PStr s => Some (PyStr.nonempty s)
  | PList l | PTuple l => Some (match l with [] => false | _ => true end)
  | PDict d => Some (match d with [] => false | _ => true end)
  | PObj cls => obj_truth cls
  end.

(** [node.get(key)]: the value or [None]; only a dict has [get]. *)
Definition py_get (node : pyval) (key : string) : http pyval :=
  match node with
  | PDict d => Served (match dict_get d key with Some v => v | None => PNone end)
  | _ => Refused 500
  end.

(** [_get_camera_node] *)
Definition _get_camera_node (shared_state : pyval) (cam_id : string) : http pyval :=
  match py_get shared_state "camera" with
  | Refused c => Refused c
  | Served found =>
      match truthy found with
      | None => Refused 500
      | Some t =>
          let cameras := if t then found else PDict [] in
          match py_get cameras cam_id with
          | Refused c => Refused c
          | Served PNone => Refused 404
          | Served cam => Served cam
          end
      end
  end.

(** [if not latest or len(latest) < 2: return None] and [return latest[1]] *)
Definition second_of (latest : pyval) : http pyval :=
  match truthy latest with
  | None => Refused 500
  | Some false => Served PNone
  | Some true =>
      match latest with
      | PList l | PTuple l =>
          match l with
          | _ :: x :: _ => Served x
          | _ => Served PNone
          end
      | PStr s =>
          match s with
          | String _ (String c _) => Served (PStr (String c EmptyString))
          | _ => Served PNone
          end
      | PDict d =>
          match d with
          | _ :: _ :: _ => Refused 500
          | _ => Served PNone
          end
      | PObj cls =>
          match obj_len cls with
          | None => Refused 500
          | Some n =>
              if (n <? 2)%nat then Served PNone
              else match obj_item1 cls with
                   | Some x => Served x
                   | None => Refused 500
                   end
          end
      | _ => Refused 500
      end
  end.

(** [_extract_image_from_state] *)
Definition _extract_image_from_state (cam : pyval) (im_key : string) : http pyval :=
  if String.eqb im_key "fused_result" then py_get cam "fused_result"
  else if String.eqb im_key "latest_frame" then
    match py_get cam "latest_frame_data" with
    | Refused c => Refused c
    | Served latest => second_of latest
    end
  else Refused 400.

Definition bytes_like (cls : string) : bool :=
  String.eqb cls "bytes" || String.eqb cls "bytearray" || String.eqb cls "memoryview".

(** [_encode_image_to_response] *)
Definition _encode_image_to_response (img : pyval) : http image_body :=
  match img with
  | PObj cls =>
      if bytes_like cls then Served (Verbatim cls)
      else if String.eqb cls "numpy.ndarray" then
        if imencode_ok then Served (Encoded cls) else Refused 500
      else Refused 500
  | _ => Refused 500
  end.

(** [get_image] for the query [id=cam_id&im=im_key]; a parameter that is
    not given is the empty string for [im] and ["0"] for [id]. *)
Definition get_image (shared_state : pyval) (cam_id im_key : string)
  : http image_body :=
  match im_key with
  | EmptyString => Refused 400
  | _ =>
      match _get_camera_node shared_state cam_id with
      | Refused c => Refused c
      | Served cam =>
          match _extract_image_from_state cam im_key with
          | Refused c => Refused c
          | Served PNone => Refused 404
          | Served img => _encode_image_to_response img
          end
      end
  end.
End Images.

End Store.


(* ===================================================================== *)
(** ** The capture worker of [main.py]                                    *)
(* ===================================================================== *)

Module Worker.

(** The values of the [fusion_state] mailbox. *)
Inductive fusion_state : Type := IDLE | REQUESTED | PROCESSING | READY.

Definition is_requested (s : fusion_state) : bool :=
  match s with REQUESTED => true | _ => false end.

Definition is_idle (s : fusion_state) : bool :=
  match s with IDLE => true | _ => false end.

(** The mean intensities and the clock readings are the float64 numbers
    of Python, and the tests of the loop are float64 arithmetic: they are
    the binary64 floats of Rocq here, with the same rounding.  A literal
    such as [0.15] stands for the float nearest to it, as in Python; the
    integer [0] that [prev_b] and [last_mean] start from becomes [0.0] in
    the first operation it enters. *)
#[local] Set Warnings "-inexact-float".

(** [a < b] and [a > b] of two floats; both are false when one is NaN. *)
Definition flt (a b : float) : bool := PrimFloat.ltb a b.
Definition fgt (a b : float) : bool := PrimFloat.ltb b a.

(** The three variables of the settling loop. *)
Record settle_state : Type := mk_settle {
  has_changed : bool;
  stable_count : nat;
  prev_b : float
}.

(** [has_changed = False; stable_count = 0; prev_b = 0] *)
Definition settle_init : settle_state := mk_settle false 0 0%float.

(** [abs(curr_b - safe_old)/safe_old > 0.15], with [safe_old] the mean of
    the frame kept last, not below [0.001]. *)
Definition change_test (last_mean curr_b : float) : bool :=
  let safe_old := if fgt last_mean 0.001%float then last_mean else 0.001%float in
  fgt (PrimFloat.div (PrimFloat.abs (PrimFloat.sub curr_b safe_old)) safe_old) 0.15%float.

(** [abs(curr_b - prev_b) < 1.0] *)
Definition stable (prev_b curr_b : float) : bool :=
  flt (PrimFloat.abs (PrimFloat.sub curr_b prev_b)) 1%float.

(** "Check Change (>15%)": the first [if] of the loop body. *)
Definition check_change (last_mean curr_b : float) (st : settle_state) : settle_state :=
  if has_changed st then st
  else if change_test last_mean curr_b
       then mk_settle true (stable_count st) (prev_b st)
       else st.

(** "Check Stability": the second [if] of the loop body, with its [break]. *)
Definition check_stability (curr_b : float) (st : settle_state) : settle_state * bool :=
  if has_changed st then
    let count :=
      if stable (prev_b st) curr_b then S (stable_count st) else O in
    (mk_settle true count (prev_b st), (3 <=? count)%nat)
  else (st, false).

(** One pass through the body of the settling loop after a frame of mean
    [curr_b] was read: the state after it, and whether the loop was left
    through [break] (in which case [prev_b] is not updated). *)
Definition settle_iter (last_mean curr_b : float) (st : settle_state)
  : settle_state * bool :=
  let st1 := check_change last_mean curr_b st in
  let '(st2, stop) := check_stability curr_b st1 in
  if stop then (st2, true)
  else (mk_settle (has_changed st2) (stable_count st2) curr_b, false).

(** The body run over the means of successive frames, as long as no
    [break] happens; no frame is read after a [break]. *)
Fixpoint settle_run (last_mean : float) (means : list float) (st : settle_state)
  : settle_state * bool :=
  match means with
  | [] => (st, false)
  | curr_b :: rest =>
      let '(st', stop) := settle_iter last_mean curr_b st in
      if stop then (st', true) else settle_run last_mean rest st'
  end.

(** The body of the loop as the specification words it: the stability
    check is the [else] branch of the change test. *)
Definition settle_iter_spec (last_mean curr_b : float) (st : settle_state)
  : settle_state * bool :=
  if has_changed st then
    let count :=
      if stable (prev_b st) curr_b then S (stable_count st) else O in
    if (3 <=? count)%nat then (mk_settle true count (prev_b st), true)
    else (mk_settle true count curr_b, false)
  else
    (mk_settle (change_test last_mean curr_b) (stable_count st) curr_b, false).

Definition BRACKET_SETTINGS : list Z := [5000; 1000; 20].

Section Camera.
(** A frame of the device and [np.mean] of it. *)
Variable frame : Type.
Variable mean : frame -> float.
(** [fusion_engine.fuse]; the outer [None] is an exception leaving it. *)
Variable fuse : list frame -> option (option frame).

(** What the worker will get from the outside: the results of the
    [cap.read()] calls to come ([None] for [ret = False]) and the values
    of the [time.time()] calls to come.  [cap.set] only changes which
    frames the device delivers, and these are inputs here. *)
Record world : Type := mk_world {
  reads : list (option frame);
  ticks : list float
}.

(** [cap.read()]: a device with nothing more to deliver fails. *)
Definition cap_read (w : world) : option frame * world :=
  match reads w with
  | [] => (None, w)
  | r :: rest => (r, mk_world rest (ticks w))
  end.

(** The [while (time.time() - start_t) < 2.0] loop.  Each test of the
    condition takes one clock reading; a run that used every reading it
    was given stops as if the time were up. *)
Fixpoint settle_loop (clock : list float) (start_t last_mean : float) (st : settle_state)
    (pending : list (option frame)) (latest : option frame)
  : world * option frame :=
  match clock with
  | [] => (mk_world pending [], latest)
  | now :: clock' =>
      if flt (PrimFloat.sub now start_t) 2%float then
        match pending with
        | [] => (mk_world [] clock', latest)
        | None :: pending' => (mk_world pending' clock', latest)
        | Some fr :: pending' =>
            let '(st', stop) := settle_iter last_mean (mean fr) st in
            if stop then (mk_world pending' clock', Some fr)
            else settle_loop clock' start_t last_mean st' pending' (Some fr)
        end
      else (mk_world pending clock', latest)
  end.

(** One exposure of the bracket: [start_t = time.time()], the settling
    loop, then the frame that is in [latest_frame_data] joins
    [captured_frames] and gives the next [last_mean]. *)
Definition bracket_step (acc : world * option frame * list frame * float) (ev : Z)
  : world * option frame * list frame * float :=
  let '(w, latest, captured, last_mean) := acc in
  let '(w', latest') :=
    match ticks w with
    | [] => (w, latest)
    | start_t :: clock =>
        settle_loop clock start_t last_mean settle_init (reads w) latest
    end in
  match latest' with
  | Some fr => (w', latest', captured ++ [fr], mean fr)
  | None => (w', latest', captured, last_mean)
  end.

(** The shared record of one camera; [latest_frame_data] holds the frame
    of the pair, [None] for the initial [(None, None)]. *)
Record cam_config : Type := mk_cam {
  is_running : bool;
  mailbox : fusion_state;
  latest_frame_data : option frame;
  fused_result : option frame
}.

(** Where the worker thread is: about to test the [while] condition,
    between the write of [PROCESSING] and the write of [READY], after
    [cap.release()], or ended by an exception. *)
Inductive position : Type := AtHead | InBracket | Stopped | Crashed.

Record machine : Type := mk_machine {
  shared_running : bool;
  cam : cam_config;
  pos : position;
  outside : world
}.

(** The body of the [REQUESTED] branch after the write of [PROCESSING]. *)
Definition run_bracket (m : machine) : machine :=
  let c := cam m in
  let '(first, w0) := cap_read (outside m) in
  let last_mean := match first with Some fr => mean fr | None => 0%float end in
  let '(w1, latest, captured, _) :=
    fold_left bracket_step BRACKET_SETTINGS
      (w0, latest_frame_data c, [], last_mean) in
  let fused :=
    match captured with
    | [] => Some (fused_result c)
    | _ => fuse captured
    end in
  match fused with
  | None => mk_machine (shared_running m)
              (mk_cam (is_running c) (mailbox c) latest (fused_result c))
              Crashed w1
  | Some result =>
      let '(_, w2) := cap_read w1 in
      mk_machine (shared_running m)
        (mk_cam (is_running c) READY latest result) AtHead w2
  end.

(** One turn of the worker thread. *)
Definition worker_turn (m : machine) : machine :=
  let c := cam m in
  match pos m with
  | AtHead =>
      if shared_running m && is_running c then
        if is_requested (mailbox c) then
          mk_machine (shared_running m)
            (mk_cam (is_running c) PROCESSING (latest_frame_data c) (fused_result c))
            InBracket (outside m)
        else
          let '(r, w) := cap_read (outside m) in
          match r with
          | Some fr =>
              mk_machine (shared_running m)
                (mk_cam (is_running c) (mailbox c) (Some fr) (fused_result c))
                AtHead w
          | None => mk_machine (shared_running m) c AtHead w
          end
      else mk_machine (shared_running m) c Stopped (outside m)
  | InBracket => run_bracket m
  | Stopped | Crashed => m
  end.

(** What can happen next: the controller side stores a value in the
    mailbox (through [/api/set] or in process), or the worker runs. *)
Inductive event : Type :=
  | ExtWrite (v : fusion_state)
  | WorkerTurn.

Definition ext_write (v : fusion_state) (m : machine) : machine :=
  let c := cam m in
  mk_machine (shared_running m)
    (mk_cam (is_running c) v (latest_frame_data c) (fused_result c))
    (pos m) (outside m).

Definition step (m : machine) (e : event) : machine :=
  match e with
  | ExtWrite v => ext_write v m
  | WorkerTurn => worker_turn m
  end.

Definition run (m : machine) (trace : list event) : machine :=
  fold_left step trace m.

(** The worker starts a bracket in this step. *)
Definition begins_bracket (m : machine) (e : event) : bool :=
  match e, pos m with
  | WorkerTurn, AtHead =>
      shared_running m && is_running (cam m) && is_requested (mailbox (cam m))
  | _, _ => false
  end.

(** The rule "a request is ignored until the mailbox is back at [IDLE]"
    as a monitor over a trace: [armed] holds when the mailbox has been
    seen at [IDLE] since the last bracket began.  The result tells
    whether every bracket of the trace began armed. *)
Fixpoint idle_gated (m : machine) (armed : bool) (trace : list event) : bool :=
  match trace with
  | [] => true
  | e :: rest =>
      let m' := step m e in
      if begins_bracket m e
      then armed && idle_gated m' false rest
      else idle_gated m' (armed || is_idle (mailbox (cam m'))) rest
  end.

End Camera.

Arguments mk_world {frame} reads ticks.
Arguments reads {frame} w.
Arguments ticks {frame} w.
Arguments cap_read {frame} w.
Arguments settle_loop {frame} mean clock start_t last_mean st pending latest.
Arguments bracket_step {frame} mean acc ev.
Arguments mk_cam {frame} is_running mailbox latest_frame_data fused_result.
Arguments is_running {frame} c.
Arguments mailbox {frame} c.
Arguments latest_frame_data {frame} c.
Arguments fused_result {frame} c.
Arguments mk_machine {frame} shared_running cam pos outside.
Arguments shared_running {frame} m.
Arguments cam {frame} m.
Arguments pos {frame} m.
Arguments outside {frame} m.
Arguments run_bracket {frame} mean fuse m.
Arguments worker_turn {frame} mean fuse m.
Arguments ext_write {frame} v m.
Arguments step {frame} mean fuse m e.
Arguments run {frame} mean fuse m trace.
Arguments begins_bracket {frame} m e.
Arguments idle_gated {frame} mean fuse m armed trace.

(** The frame that [latest_frame_data] holds after the reads [rs] of the
    live loop: a read that fails leaves the frame that was there. *)
Definition keep_latest {frame : Type} (latest : option frame) (rs : list (option frame))
  : option frame :=
  fold_left (fun acc r => match r with Some fr => Some fr | None => acc end) rs latest.

(** The last [count] means of a history, the newest first, were each
    within 1.0 of the mean before ([0] before the first frame), and the
    change had been detected when the oldest of them was read. *)
Fixpoint stable_run (last_mean : float) (count : nat) (newest_first : list float) : Prop :=
  match count with
  | O => True
  | S count' =>
      match newest_first with
      | [] => False
      | b :: older =>
          stable (hd 0%float older) b = true /\
          (exists c, In c (b :: older) /\ change_test last_mean c = true) /\
          stable_run last_mean count' older
      end
  end.

(** A stub device for examples: a frame is its mean intensity, and fusing
    returns the first frame of the bracket. *)
Definition stub_fuse (captured : list float) : option (option float) :=
  Some (head captured).

(** [n] readings of a clock, a tenth of a second apart. *)
Fixpoint stub_clock (n : nat) (t : float) : list float :=
  match n with
  | O => []
  | S n' => t :: stub_clock n' (PrimFloat.add t 0.1%float)
  end.

Definition stub_world : world float :=
  mk_world
    (List.map Some
       [100; 100; 40; 40; 40; 40; 9; 9; 9; 9; 0.5; 0.5; 0.5; 100; 100; 100]%float)
    (stub_clock 40 0%float).

Definition stub_machine : machine float :=
  mk_machine true (mk_cam true IDLE None None) AtHead stub_world.

(** A request, a whole bracket, and a second request stored while the
    mailbox holds [READY]. *)
Definition second_request : list event :=
  [ExtWrite REQUESTED; WorkerTurn; WorkerTurn; ExtWrite REQUESTED; WorkerTurn].

End Worker.

(* ===================================================================== *)
(** ** The record of a camera, as the server finds it                     *)
(* ===================================================================== *)

(** The worker keeps its camera in a dict of [shared_state]; the server
    reads the same dict.  A frame is a numpy array there. *)
Module Preview.
Import Store Worker.

Definition state_name (v : fusion_state) : string :=
  match v with
  | IDLE => "IDLE"
  | REQUESTED => "REQUESTED"
  | PROCESSING => "PROCESSING"
  | READY => "READY"
  end.

Definition ndarray_class : string := "numpy.ndarray".

(** [(ret, frame)] as the worker stores it, [(None, None)] before the
    first frame. *)
Definition frame_pair {frame : Type} (latest : option frame) : pyval :=
  match latest with
  | Some _ => PTuple [PBool true; PObj ndarray_class]
  | None => PTuple [PNone; PNone]
  end.

Definition image_value {frame : Type} (img : option frame) : pyval :=
  match img with
  | Some _ => PObj ndarray_class
  | None => PNone
  end.

(** The dict of one camera, with the keys of the initial [shared_state]. *)
Definition cam_record {frame : Type} (setting : pyval) (c : cam_config frame) : pyval :=
  PDict [("setting"%string, setting);
         ("is_running"%string, PBool (is_running c));
         ("latest_frame_data"%string, frame_pair (latest_frame_data c));
         ("fused_result"%string, image_value (fused_result c));
         ("fusion_state"%string, PStr (state_name (mailbox c)))].

(** The [shared_state] that [__main__] of [main.py] starts with. *)
Definition initial_setting : pyval :=
  PDict [("CAP_PROP_FRAME_WIDTH"%string, PInt 1024);
         ("CAP_PROP_FRAME_HEIGHT"%string, PInt 768)].

Definition initial_cam : cam_config Q := mk_cam true IDLE None None.

Definition initial_state : pyval :=
  PDict [("is_running"%string, PBool true);
         ("ipv4"%string, PStr "0.0.0.0");
         ("port"%string, PInt 5000);
         ("camera"%string,
          PDict [("0"%string, cam_record initial_setting initial_cam);
                 ("2"%string, cam_record initial_setting initial_cam);
                 ("4"%string, cam_record initial_setting initial_cam);
                 ("6"%string, cam_record initial_setting initial_cam)])].

(** The path that the dashboard of [index] sends for a camera:
    [camera/${id}/fusion_state]. *)
Definition mailbox_path (cam_id : string) : string :=
  "camera/" +:+ cam_id +:+ "/fusion_state".

End Preview.

(* ===================================================================== *)
(** ** The exposure fusion engine of [main.py]                            *)
(* ===================================================================== *)

Module Fusion.

(** The exceptions that can leave the engine. *)
Inductive exn : Type :=
  | ValueError | OverflowError | IndexError | AxisError | Cv2Error.

Inductive res (A : Type) : Type :=
  | Ret (a : A)
  | Raise (e : exn).
Arguments Ret {A} a.
Arguments Raise {A} e.

Definition bind {A B : Type} (m : res A) (k : A -> res B) : res B :=
  match m with
  | Ret a => k a
  | Raise e => Raise e
  end.

Notation "x <- m ;; k" := (bind m (fun x => k))
  (at level 100, m at next level, right associativity).

(** A list built by running a raising body on each element in turn. *)
Fixpoint mapM {A B : Type} (f : A -> res B) (l : list A) : res (list B) :=
  match l with
  | [] => Ret []
  | a :: l' => b <- f a ;; bs <- mapM f l' ;; Ret (b :: bs)
  end.

(** A [for] loop with a raising body over the elements of [l]. *)
Fixpoint foldM {A S : Type} (body : S -> A -> res S) (l : list A) (s : S) : res S :=
  match l with
  | [] => Ret s
  | a :: l' => s' <- body s a ;; foldM body l' s'
  end.

(** [range(n)] for an integer [n]: empty when [n <= 0]. *)
Definition range (n : Z) : list nat := seq 0 (Z.to_nat n).

(** [l[i]] for [0 <= i]. *)
Definition index {A : Type} (l : list A) (i : nat) : res A :=
  match l !! i with
  | Some a => Ret a
  | None => Raise IndexError
  end.

(** [l[-1]] *)
Definition last_of {A : Type} (l : list A) : res A :=
  match last l with
  | Some a => Ret a
  | None => Raise IndexError
  end.

(** A numpy array: its shape and its elements in row-major order.  A frame
    is [[h; w; 3]] over bytes, a weight map [[h; w]] over floats. *)
Record ndarray (A : Type) : Type := mk_array {
  shape : list nat;
  data : list A
}.
Arguments mk_array {A} shape data.
Arguments shape {A} n.
Arguments data {A} n.

Definition size_of (sh : list nat) : nat := fold_right Nat.mul 1%nat sh.

(** The data fill the shape. *)
Definition wf {A : Type} (a : ndarray A) : Prop :=
  length (data a) = size_of (shape a).

(** An elementwise operation on one array. *)
Definition amap {A B : Type} (f : A -> B) (a : ndarray A) : ndarray B :=
  mk_array (shape a) (List.map f (data a)).

(** An elementwise operation on two arrays.  Every pair of operands of
    this program has one shape when the bracket has; another pair is
    refused the way numpy refuses shapes that do not broadcast. *)
Definition azip {A B C : Type} (f : A -> B -> C) (a : ndarray A) (b : ndarray B)
  : res (ndarray C) :=
  if bool_decide (shape a = shape b)
  then Ret (mk_array (shape a) (zip_with f (data a) (data b)))
  else Raise ValueError.

(** [n] consecutive pieces of [c] elements. *)
Fixpoint chunks {A : Type} (c n : nat) (l : list A) : list (list A) :=
  match n with
  | O => []
  | S n' => take c l :: chunks c n' (drop c l)
  end.

(** A reduction over [axis=2] of a 3-dimensional array; [AxisError] below
    three dimensions (an array of more than three is not an image). *)
Definition reduce_axis2 {A B : Type} (f : list A -> B) (a : ndarray A)
  : res (ndarray B) :=
  match shape a with
  | [h; w; c] => Ret (mk_array [h; w] (List.map f (chunks c (h * w) (data a))))
  | _ => Raise AxisError
  end.

(** [h, w = a.shape[:2]] *)
Definition shape2 {A : Type} (a : ndarray A) : res (nat * nat) :=
  match shape a with
  | h :: w :: _ => Ret (h, w)
  | _ => Raise ValueError
  end.

(** The float64 arithmetic of numpy, as an interface. *)
Record float_api (F : Type) : Type := mk_float {
  lit : Q -> F;                 (* a literal *)
  of_u8 : Z -> F;               (* a byte as a float *)
  fadd : F -> F -> F;
  fsub : F -> F -> F;
  fmul : F -> F -> F;
  fdiv : F -> F -> F;
  fpow : F -> F -> F;           (* np.power *)
  fabs : F -> F;                (* np.abs *)
  fexp : F -> F;                (* np.exp *)
  fstd : list F -> F;           (* np.std of the channels of a pixel *)
  to_f32 : F -> F;              (* astype(np.float32) *)
  fclip : F -> F -> F -> F;     (* np.clip(x, lo, hi) *)
  ftrunc : F -> Z               (* the integer part *)
}.
Arguments lit {F} _ _.
Arguments of_u8 {F} _ _.
Arguments fadd {F} _ _ _.
Arguments fsub {F} _ _ _.
Arguments fmul {F} _ _ _.
Arguments fdiv {F} _ _ _.
Arguments fpow {F} _ _ _.
Arguments fabs {F} _ _.
Arguments fexp {F} _ _.
Arguments fstd {F} _ _.
Arguments to_f32 {F} _ _.
Arguments fclip {F} _ _ _ _.
Arguments ftrunc {F} _ _.

(** The OpenCV calls of the engine, as an interface.  [pyrUp] takes
    [dstsize = (w, h)]. *)
Record cv2_api (F : Type) : Type := mk_cv2 {
  cvtColor_BGR2GRAY : ndarray Z -> res (ndarray Z);
  cvtColor_GRAY2BGR : ndarray F -> res (ndarray F);
  Laplacian : ndarray F -> res (ndarray F);
  pyrDown_u8 : ndarray Z -> res (ndarray Z);
  pyrDown : ndarray F -> res (ndarray F);
  pyrUp : ndarray F -> nat * nat -> res (ndarray F)
}.
Arguments cvtColor_BGR2GRAY {F} _ _.
Arguments cvtColor_GRAY2BGR {F} _ _.
Arguments Laplacian {F} _ _.
Arguments pyrDown_u8 {F} _ _.
Arguments pyrDown {F} _ _.
Arguments pyrUp {F} _ _ _.

(** [astype(np.uint8)]: the integer part, kept on eight bits. *)
Definition astype_u8 {F : Type} (fl : float_api F) (x : F) : Z :=
  ftrunc fl x mod 256.

Section Engine.
Context {F : Type}.
Variable fl : float_api F.
Variable cv : cv2_api F.
(** [self.wc, self.ws, self.we] *)
Variables wc ws we : F.

(** [a / 255.0] on a byte array *)
Definition div255 (a : ndarray Z) : ndarray F :=
  amap (fun b => fdiv fl (of_u8 fl b) (lit fl 255)) a.

Definition _compute_contrast (gray_img : ndarray F) : res (ndarray F) :=
  lap <- Laplacian cv gray_img ;;
  Ret (amap (fabs fl) lap).

Definition _compute_saturation (img : ndarray F) : res (ndarray F) :=
  reduce_axis2 (fstd fl) img.

(** [np.prod] of the channels of a pixel *)
Definition fprod (l : list F) : F :=
  match l with
  | [] => lit fl 1
  | x :: l' => fold_left (fmul fl) l' x
  end.

Definition _compute_exposedness (img : ndarray F) : res (ndarray F) :=
  let sigma := lit fl (2 # 10) in
  let gauss_curve :=
    amap (fun x =>
            fexp fl (fdiv fl
                       (fmul fl (lit fl (- (5 # 10)))
                                (fpow fl (fsub fl x (lit fl (5 # 10))) (lit fl 2)))
                       (fpow fl sigma (lit fl 2)))) img in
  reduce_axis2 fprod gauss_curve.

(** The body of the loop of [_generate_weight_maps]. *)
Definition weight_of (img : ndarray Z) : res (ndarray F) :=
  let epsilon := lit fl (1 # 1000000000000) in
  let img_norm := div255 img in
  g <- cvtColor_BGR2GRAY cv img ;;
  let gray := div255 g in
  contrast <- _compute_contrast gray ;;
  saturation <- _compute_saturation img_norm ;;
  exposedness <- _compute_exposedness img_norm ;;
  cs <- azip (fmul fl) (amap (fun x => fpow fl x wc) contrast)
                       (amap (fun x => fpow fl x ws) saturation) ;;
  cse <- azip (fmul fl) cs (amap (fun x => fpow fl x we) exposedness) ;;
  Ret (amap (fun x => fadd fl x epsilon) cse).

(** The product of the three measures in the body of the loop, as it is
    before [epsilon] is added: [weight_of] is this product plus
    [epsilon]. *)
Definition measure_term (img : ndarray Z) : res (ndarray F) :=
  let img_norm := div255 img in
  g <- cvtColor_BGR2GRAY cv img ;;
  let gray := div255 g in
  contrast <- _compute_contrast gray ;;
  saturation <- _compute_saturation img_norm ;;
  exposedness <- _compute_exposedness img_norm ;;
  cs <- azip (fmul fl) (amap (fun x => fpow fl x wc) contrast)
                       (amap (fun x => fpow fl x ws) saturation) ;;
  azip (fmul fl) cs (amap (fun x => fpow fl x we) exposedness).

(** [np.sum(weights, axis=0)] on a list of arrays: the list must stack
    into one array, so all shapes are the same, and the arrays are added
    in order.  The empty list sums to the scalar [0.0]. *)
Definition np_sum_axis0 (weights : list (ndarray F)) : res (ndarray F) :=
  match weights with
  | [] => Ret (mk_array [] [lit fl 0])
  | w0 :: rest =>
      if forallb (fun w => bool_decide (shape w = shape w0)) rest
      then Ret (fold_left
                  (fun acc w => mk_array (shape acc) (zip_with (fadd fl) (data acc) (data w)))
                  rest w0)
      else Raise ValueError
  end.

Definition _generate_weight_maps (images : list (ndarray Z)) : res (list (ndarray F)) :=
  weights <- mapM weight_of images ;;
  sum_weights <- np_sum_axis0 weights ;;
  mapM (fun w => azip (fdiv fl) w sum_weights) weights.

(** The loop of [_gaussian_pyramid], for either element type. *)
Fixpoint pyramid_loop {A : Type} (down : ndarray A -> res (ndarray A))
    (n : nat) (pyr : list (ndarray A)) : res (list (ndarray A)) :=
  match n with
  | O => Ret pyr
  | S n' =>
      top <- last_of pyr ;;
      d <- down top ;;
      pyramid_loop down n' (pyr ++ [d])
  end.

Definition _gaussian_pyramid (img : ndarray F) (levels : Z) : res (list (ndarray F)) :=
  pyramid_loop (pyrDown cv) (Z.to_nat (levels - 1)) [img].

(** [_gaussian_pyramid] on a byte image, as [fuse] calls it on [images[0]]. *)
Definition _gaussian_pyramid_u8 (img : ndarray Z) (levels : Z) : res (list (ndarray Z)) :=
  pyramid_loop (pyrDown_u8 cv) (Z.to_nat (levels - 1)) [img].

Definition _laplacian_pyramid (img : ndarray F) (levels : Z) : res (list (ndarray F)) :=
  gauss_pyr <- _gaussian_pyramid img levels ;;
  lap_pyr <- foldM (fun lap_pyr i =>
                      gi <- index gauss_pyr i ;;
                      hw <- shape2 gi ;;
                      gi1 <- index gauss_pyr (i + 1) ;;
                      upsampled <- pyrUp cv gi1 (snd hw, fst hw) ;;
                      d <- azip (fsub fl) gi upsampled ;;
                      Ret (lap_pyr ++ [d]))
                   (range (levels - 1)) [] ;;
  top <- last_of gauss_pyr ;;
  Ret (lap_pyr ++ [top]).

Definition _reconstruct (pyramid : list (ndarray F)) : res (ndarray F) :=
  img <- last_of pyramid ;;
  foldM (fun img i =>
           pi <- index pyramid i ;;
           hw <- shape2 pi ;;
           up <- pyrUp cv img (snd hw, fst hw) ;;
           azip (fadd fl) up pi)
        (rev (seq 0 (length pyramid - 1))) img.

(** [min(shape[:2])]; [min] of nothing is a [ValueError]. *)
Definition min_dim_of (sh : list nat) : res nat :=
  match sh with
  | h :: w :: _ => Ret (Nat.min h w)
  | [h] => Ret h
  | [] => Raise ValueError
  end.

(** [int(np.log2(min_dim)) - 2]; [np.log2(0)] is minus infinity, which
    [int] refuses with [OverflowError]. *)
Definition num_levels_of (min_dim : nat) : res Z :=
  match min_dim with
  | O => Raise OverflowError
  | _ => Ret (Z.log2 (Z.of_nat min_dim) - 2)
  end.

(** The inner loop of [fuse]: one image's share is added to
    [pyr_fusion], level by level. *)
Definition blend_levels (num_levels : Z) (pyr_img pyr_weight : list (ndarray F))
    (pyr_fusion : list (ndarray F)) : res (list (ndarray F)) :=
  foldM (fun pyr_fusion level =>
           pw <- index pyr_weight level ;;
           w_expanded <- cvtColor_GRAY2BGR cv (amap (to_f32 fl) pw) ;;
           pl <- index pyr_img level ;;
           term <- azip (fmul fl) w_expanded pl ;;
           pf <- index pyr_fusion level ;;
           s <- azip (fadd fl) pf term ;;
           Ret (<[level := s]> pyr_fusion))
        (range num_levels) pyr_fusion.

(** The last line of [fuse]. *)
Definition to_bytes (img : ndarray F) : ndarray Z :=
  amap (fun x => astype_u8 fl (fmul fl (fclip fl x (lit fl 0) (lit fl 1)) (lit fl 255))) img.

(** [fuse]; [Ret None] is the absent result. *)
Definition fuse (images : list (ndarray Z)) : res (option (ndarray Z)) :=
  match images with
  | [] => Ret None
  | img0 :: _ =>
      weights <- _generate_weight_maps images ;;
      min_dim <- min_dim_of (shape img0) ;;
      num_levels <- num_levels_of min_dim ;;
      gp0 <- _gaussian_pyramid_u8 img0 num_levels ;;
      let pyr_fusion := List.map (amap (fun _ : Z => lit fl 0)) gp0 in
      pyr_fusion <-
        foldM (fun pyr_fusion i =>
                 img <- index images i ;;
                 let img_float := div255 img in
                 pyr_img <- _laplacian_pyramid img_float num_levels ;;
                 wi <- index weights i ;;
                 pyr_weight <- _gaussian_pyramid wi num_levels ;;
                 blend_levels num_levels pyr_img pyr_weight pyr_fusion)
              (seq 0 (length images)) pyr_fusion ;;
      out <- _reconstruct pyr_fusion ;;
      Ret (Some (to_bytes out))
  end.

End Engine.

(** What OpenCV promises about sizes.  [half n] is the size of a level
    below one of size [n]. *)
Definition half (n : nat) : nat := ((n + 1) / 2)%nat.

(** The size of level [k] of a pyramid over a base of size [n]. *)
Definition lvl (k n : nat) : nat := Nat.iter k half n.

Definition has_shape {A : Type} (sh : list nat) (a : ndarray A) : Prop :=
  shape a = sh /\ wf a.

(** The calls succeed on images that are not empty and return arrays of
    the documented sizes: a conversion keeps height and width, [pyrDown]
    halves them (rounding up), [pyrUp] returns the [dstsize] it was given
    when that fits the source. *)
Record cv2_ok {F : Type} (cv : cv2_api F) : Prop := mk_cv2_ok {
  gray_ok : forall (a : ndarray Z) (h w : nat),
    (0 < h)%nat -> (0 < w)%nat -> has_shape [h; w; 3%nat] a ->
    exists g, cvtColor_BGR2GRAY cv a = Ret g /\ has_shape [h; w] g;
  bgr_ok : forall (a : ndarray F) (h w : nat),
    (0 < h)%nat -> (0 < w)%nat -> has_shape [h; w] a ->
    exists g, cvtColor_GRAY2BGR cv a = Ret g /\ has_shape [h; w; 3%nat] g;
  lap_ok : forall (a : ndarray F) (h w : nat),
    (0 < h)%nat -> (0 < w)%nat -> has_shape [h; w] a ->
    exists g, Laplacian cv a = Ret g /\ has_shape [h; w] g;
  down_u8_ok : forall (a : ndarray Z) (h w : nat) (rest : list nat),
    (0 < h)%nat -> (0 < w)%nat -> has_shape (h :: w :: rest) a ->
    exists g, pyrDown_u8 cv a = Ret g /\ has_shape (half h :: half w :: rest) g;
  down_ok : forall (a : ndarray F) (h w : nat) (rest : list nat),
    (0 < h)%nat -> (0 < w)%nat -> has_shape (h :: w :: rest) a ->
    exists g, pyrDown cv a = Ret g /\ has_shape (half h :: half w :: rest) g;
  up_ok : forall (a : ndarray F) (h w : nat) (rest : list nat),
    (0 < h)%nat -> (0 < w)%nat -> has_shape (half h :: half w :: rest) a ->
    exists g, pyrUp cv a (w, h) = Ret g /\ has_shape (h :: w :: rest) g
}.

(** The rounding of float64, in the range where it is a relative error.
    [fin x] says that [x] is a finite float (neither an infinity nor a
    NaN) and [val x] is then the real number it stands for; [u] is the
    unit roundoff ([2^-53]), [tiny] the smallest positive normal number
    ([2^-1022]) and [huge] the largest finite one.  On finite operands
    whose exact result does not pass [huge], the sum and the difference
    are finite and off the exact value by a relative error of [u] at most
    (a sum below [tiny] is exact); so is the quotient of two positive
    numbers when it lies between [tiny] and [huge], and so is a literal
    in that range.  Nothing is said of an operation outside these
    ranges, nor of the other operations. *)
Record float_model {F : Type} (fl : float_api F) (fin : F -> Prop) (val : F -> Q)
    (u tiny huge : Q) : Prop :=
  mk_float_model {
  u_range : (0 <= u /\ u < 1)%Q;
  tiny_huge : (0 < tiny /\ tiny <= 1 /\ 2 <= huge)%Q;
  add_model : forall a b, fin a -> fin b -> (Qabs (val a + val b) <= huge)%Q ->
    fin (fadd fl a b) /\
    (Qabs (val (fadd fl a b) - (val a + val b)) <= u * Qabs (val a + val b))%Q;
  sub_model : forall a b, fin a -> fin b -> (Qabs (val a - val b) <= huge)%Q ->
    fin (fsub fl a b) /\
    (Qabs (val (fsub fl a b) - (val a - val b)) <= u * Qabs (val a - val b))%Q;
  div_model : forall a b, fin a -> fin b -> (0 < val b)%Q ->
    (tiny <= val a / val b)%Q -> (val a / val b <= huge)%Q ->
    fin (fdiv fl a b) /\
    (Qabs (val (fdiv fl a b) - val a / val b) <= u * Qabs (val a / val b))%Q;
  lit_model : forall q, (tiny <= q)%Q -> (q <= huge)%Q ->
    fin (lit fl q) /\ (Qabs (val (lit fl q) - q) <= u * Qabs q)%Q
}.

(** Every value of the array is finite and at most [B] in magnitude. *)
Definition bounded {F : Type} (fin : F -> Prop) (val : F -> Q) (B : Q)
    (a : ndarray F) : Prop :=
  forall p x, data a !! p = Some x -> fin x /\ (Qabs (val x) <= B)%Q.

(** The arrays have one shape and differ by [e] at most at every
    position: the maximum absolute error of [a] against [b] is at most
    [e]. *)
Definition close {F : Type} (val : F -> Q) (e : Q) (a b : ndarray F) : Prop :=
  shape a = shape b /\ length (data a) = length (data b) /\
  forall p x y, data a !! p = Some x -> data b !! p = Some y ->
                (Qabs (val x - val y) <= e)%Q.

(** What is taken of the values that [pyrDown] and [pyrUp] compute.  Both
    are weighted means of their input, computed in floating point: an
    input of finite values within [b <= B] gives finite values within
    [b + eta], where [eta] covers the rounding of the filter (the constant
    0.8 may come back as 0.8000000000000003); and two inputs of [pyrUp]
    that are within [B] and within [e <= 1] of each other give outputs
    within [e + eta] of each other. *)
Record cv2_stable {F : Type} (cv : cv2_api F) (fin : F -> Prop) (val : F -> Q)
    (B eta : Q) : Prop :=
  mk_cv2_stable {
  down_bounded : forall a g b,
    (0 <= b)%Q -> (b <= B)%Q ->
    bounded fin val b a -> pyrDown cv a = Ret g -> bounded fin val (b + eta)%Q g;
  up_bounded : forall a dstsize g b,
    (0 <= b)%Q -> (b <= B)%Q ->
    bounded fin val b a -> pyrUp cv a dstsize = Ret g -> bounded fin val (b + eta)%Q g;
  up_stable : forall a b dstsize ga gb e,
    (0 <= e)%Q -> (e <= 1)%Q -> close val e a b ->
    bounded fin val B a -> bounded fin val B b ->
    pyrUp cv a dstsize = Ret ga -> pyrUp cv b dstsize = Ret gb ->
    close val (e + eta)%Q ga gb
}.

(** The values of the measure term of a frame are finite, not negative
    and at most [M]: no measure has run into an infinity or a NaN. *)
Definition measures_within {F : Type} (fl : float_api F) (cv : cv2_api F)
    (wc ws we : F) (fin : F -> Prop) (val : F -> Q) (M : Q) (img : ndarray Z) : Prop :=
  forall cse, measure_term fl cv wc ws we img = Ret cse ->
    Forall (fun x => fin x /\ (0 <= val x)%Q /\ (val x <= M)%Q) (data cse).

(** Level [k] of the pyramid has the size of level [k] over the base
    [h], [w]. *)
Definition pyr_shapes {A : Type} (rest : list nat) (h w : nat)
    (pyr : list (ndarray A)) : Prop :=
  forall k a, pyr !! k = Some a -> has_shape (lvl k h :: lvl k w :: rest) a.

(** The number of levels that [_gaussian_pyramid] returns. *)
Definition depth (levels : Z) : nat := S (Z.to_nat (levels - 1)).

(** The frames are three-channel images that are not empty. *)
Definition frame_ok (a : ndarray Z) : Prop :=
  exists h w, (0 < h)%nat /\ (0 < w)%nat /\ has_shape [h; w; 3%nat] a.

(** The exact sum of rationals, and a count as a rational. *)
Definition qsum (l : list Q) : Q := fold_right Qplus 0%Q l.

Definition nq (n : nat) : Q := inject_Z (Z.of_nat n).

(** The error that one level adds, for an error of at most 1 below. *)
Definition level_error (u B eta : Q) : Q :=
  ((1 + u) * eta + u * (3 * B + 2 * u * B) + u)%Q.

(** The sum over the bracket of the values that the maps hold at the
    position [p]. *)
Definition pixel_sum {F : Type} (val : F -> Q) (d : F)
    (weights : list (ndarray F)) (p : nat) : Q :=
  fold_right (fun W acc => (val (nth p (data W) d) + acc)%Q) 0%Q weights.

End Fusion.

(* ===================================================================== *)
(** ** A reference implementation of the two interfaces                   *)
(* ===================================================================== *)

(** Exact rational arithmetic and nearest-neighbour resampling: enough to
    run the engine on examples. *)
Module Reference.
Import Fusion.

Local Open Scope Q_scope.

(** [np.power] for the exponents the engine uses: 2, and 1 of the default
    weights; another exponent leaves the base. *)
Definition q_pow (x y : Q) : Q :=
  if Qeq_bool y 2 then Qred (x * x) else x.

(** A rational stand-in for [np.exp]: positive, 1 at 0, increasing. *)
Definition q_exp (t : Q) : Q :=
  if Qle_bool t 0 then Qred (1 / (1 - t)) else Qred (1 + t).

Definition q_sum (l : list Q) : Q := fold_right Qplus 0 l.

(** A rational stand-in for [np.std]: the mean absolute deviation. *)
Definition q_std (l : list Q) : Q :=
  let n := inject_Z (Z.of_nat (length l)) in
  let mu := q_sum l / n in
  Qred (q_sum (List.map (fun x => Qabs (x - mu)) l) / n).

Definition q_clip (x lo hi : Q) : Q :=
  let y := if Qle_bool lo x then x else lo in
  if Qle_bool y hi then y else hi.

Definition q_trunc (x : Q) : Z := Z.quot (Qnum x) (Zpos (Qden x)).

Definition exact : float_api Q :=
  mk_float Q
    (fun q => q) inject_Z
    (fun a b => Qred (a + b)) (fun a b => Qred (a - b))
    (fun a b => Qred (a * b)) (fun a b => Qred (a / b))
    q_pow Qabs q_exp q_std (fun x => x) q_clip q_trunc.

(** [sh] filled from a function of the row-major position. *)
Definition gather {A : Type} (sh : list nat) (f : nat -> A) : ndarray A :=
  mk_array sh (List.map f (seq 0 (size_of sh))).

(** The element at row [i], column [j], channel [k] of an array of width
    [w] with [c] channels. *)
Definition at3 {A : Type} (d : A) (a : ndarray A) (w c i j k : nat) : A :=
  nth ((i * w + j) * c + k)%nat (data a) d.

(** Every second row and column. *)
Definition nn_down {A : Type} (d : A) (a : ndarray A) : res (ndarray A) :=
  match shape a with
  | h :: w :: rest =>
      if ((0 <? h) && (0 <? w))%nat then
        let c := size_of rest in
        let w' := half w in
        Ret (gather (half h :: w' :: rest)
               (fun o => at3 d a w c (2 * (o / (c * w'))) (2 * ((o / c) mod w')) (o mod c))%nat)
      else Raise Cv2Error
  | _ => Raise Cv2Error
  end.

(** Every row and column twice, cut to [dstsize]. *)
Definition nn_up {A : Type} (d : A) (a : ndarray A) (dstsize : nat * nat)
  : res (ndarray A) :=
  let '(w', h') := dstsize in
  match shape a with
  | h :: w :: rest =>
      if ((h =? half h') && (w =? half w') && (0 <? h') && (0 <? w'))%nat then
        let c := size_of rest in
        Ret (gather (h' :: w' :: rest)
               (fun o => at3 d a w c ((o / (c * w')) / 2) (((o / c) mod w') / 2) (o mod c))%nat)
      else Raise Cv2Error
  | _ => Raise Cv2Error
  end.

(** [0.114 B + 0.587 G + 0.299 R], rounded. *)
Definition nn_gray (a : ndarray Z) : res (ndarray Z) :=
  match shape a with
  | [h; w; 3%nat] =>
      if ((0 <? h) && (0 <? w))%nat then
        Ret (gather [h; w]
               (fun o => (114 * nth (3 * o) (data a) 0
                          + 587 * nth (3 * o + 1) (data a) 0
                          + 299 * nth (3 * o + 2) (data a) 0 + 500) / 1000)%Z)
      else Raise Cv2Error
  | _ => Raise Cv2Error
  end.

Definition nn_bgr (a : ndarray Q) : res (ndarray Q) :=
  match shape a with
  | [h; w] =>
      if ((0 <? h) && (0 <? w))%nat then
        Ret (gather [h; w; 3%nat] (fun o => nth (o / 3) (data a) 0))
      else Raise Cv2Error
  | _ => Raise Cv2Error
  end.

(** The neighbour before and after position [i] of [n], mirrored at the
    border. *)
Definition before (i n : nat) : nat :=
  if (i =? 0)%nat then (if (1 <? n)%nat then 1%nat else 0%nat) else (i - 1)%nat.
Definition after (i n : nat) : nat :=
  if (S i <? n)%nat then S i else (n - 2)%nat.

(** The 4-neighbour Laplacian. *)
Definition nn_laplacian (a : ndarray Q) : res (ndarray Q) :=
  match shape a with
  | [h; w] =>
      if ((0 <? h) && (0 <? w))%nat then
        Ret (gather [h; w]
               (fun o =>
                  let i := (o / w)%nat in
                  let j := (o mod w)%nat in
                  let px := fun i j => at3 0 a w 1 i j 0 in
                  Qred (px (before i h) j + px (after i h) j
                        + px i (before j w) + px i (after j w) - 4 * px i j)))
      else Raise Cv2Error
  | _ => Raise Cv2Error
  end.

Definition nn : cv2_api Q :=
  mk_cv2 Q nn_gray nn_bgr nn_laplacian (nn_down 0%Z) (nn_down 0) (nn_up 0).

(** A frame of one colour. *)
Definition flat (h w : nat) (v : Z) : ndarray Z :=
  mk_array [h; w; 3%nat] (repeat v (h * w * 3)).

(** A float image of one colour. *)
Definition flat_float (h w : nat) (v : Q) : ndarray Q :=
  mk_array [h; w; 3%nat] (repeat v (h * w * 3)).

(** The engine with the default weights over the reference interfaces. *)
Definition fuse_ref (images : list (ndarray Z)) : res (option (ndarray Z)) :=
  fuse exact nn 1 1 1 images.

End Reference.

(* ===================================================================== *)
(** * Properties                                                          *)
(* ===================================================================== *)

(** ** Splitting a path and joining it again *)

Module PyStrFacts.
Import PyStr.

Lemma prefix_empty (s : string) : String.prefix "" s = true.
Proof. destruct s; reflexivity. Qed.

Lemma append_cons (c : ascii) (a b : string) :
  String c a +:+ b = String c (a +:+ b).
Proof. reflexivity. Qed.

Lemma append_nil (b : string) : EmptyString +:+ b = b.
Proof. reflexivity. Qed.

Lemma prefix_append_long (sep a b : string) :
  (String.length sep <= String.length a)%nat ->
  String.prefix sep (a +:+ b) = String.prefix sep a.
Proof.
  revert a; induction sep as [|c sep IH]; intros a Hl.
  - now rewrite !prefix_empty.
  - destruct a as [|d a]; simpl in Hl; [lia|].
    rewrite append_cons. simpl. destruct (ascii_dec c d); [|reflexivity]. apply IH. lia.
Qed.

Lemma prefix_append_true (sep a b : string) :
  String.prefix sep a = true -> String.prefix sep (a +:+ b) = true.
Proof.
  revert a; induction sep as [|c sep IH]; intros a H.
  - apply prefix_empty.
  - destruct a as [|d a]; [discriminate|].
    rewrite append_cons. simpl in *.
    destruct (ascii_dec c d); [auto|discriminate].
Qed.

Lemma prefix_self_append (sep rest : string) :
  String.prefix sep (sep +:+ rest) = true.
Proof.
  induction sep as [|c sep IH]; [apply prefix_empty|].
  rewrite append_cons. simpl.
  destruct (ascii_dec c c) as [_|n]; [exact IH|now destruct n].
Qed.

Lemma prefix_true_split (sep s : string) :
  String.prefix sep s = true -> exists rest, s = sep +:+ rest.
Proof.
  revert s; induction sep as [|c sep IH]; intros s H.
  - now exists s.
  - destruct s as [|d s]; simpl in H; [discriminate|].
    destruct (ascii_dec c d) as [->|]; [|discriminate].
    destruct (IH _ H) as [rest ->]. now exists rest.
Qed.

Lemma append_assoc (a b c : string) : (a +:+ b) +:+ c = a +:+ (b +:+ c).
Proof. induction a as [|x a IH]; [reflexivity|]. rewrite !append_cons. now f_equal. Qed.

Lemma append_length (a b : string) :
  String.length (a +:+ b) = (String.length a + String.length b)%nat.
Proof.
  induction a as [|x a IH]; [reflexivity|].
  rewrite append_cons. simpl. now f_equal.
Qed.

Lemma clean_nosep (sep p : string) : clean sep p -> nosep sep p.
Proof.
  induction p as [|c p IH]; cbn [clean nosep]; [trivial|].
  intros [H1 H2]. split; [|auto].
  destruct (String.prefix sep (String c p)) eqn:E; [|reflexivity].
  apply (prefix_append_true _ _ sep) in E. congruence.
Qed.

Lemma split_go_skip (sep x rest : string) :
  split_go sep (x +:+ rest) (String.length x) = split_go sep rest 0.
Proof. induction x; [reflexivity|]. rewrite append_cons. simpl. auto. Qed.

Lemma split_go_match (sep rest : string) :
  sep <> EmptyString ->
  split_go sep (sep +:+ rest) 0 = EmptyString :: split_go sep rest 0.
Proof.
  intros Hne. destruct sep as [|c sep']; [congruence|].
  pose proof (prefix_self_append (String c sep') rest) as Hp.
  change (String c sep' +:+ rest) with (String c (sep' +:+ rest)) in *.
  cbn [split_go]. rewrite Hp. f_equal.
  cbn [String.length]. replace (S (String.length sep') - 1)%nat with (String.length sep') by lia.
  apply split_go_skip.
Qed.

Lemma split_go_clean (sep p rest : string) :
  sep <> EmptyString -> clean sep p ->
  split_go sep (p +:+ (sep +:+ rest)) 0 = p :: split_go sep rest 0.
Proof.
  intros Hne. induction p as [|c p IH]; intros Hc.
  - rewrite append_nil. now apply split_go_match.
  - destruct Hc as [H1 H2].
    change (String c p +:+ (sep +:+ rest)) with (String c (p +:+ (sep +:+ rest))).
    cbn [split_go].
    assert (String.prefix sep (String c (p +:+ (sep +:+ rest))) = false) as ->.
    { rewrite <- H1.
      change (String c (p +:+ (sep +:+ rest))) with (String c p +:+ (sep +:+ rest)).
      rewrite <- append_assoc. apply prefix_append_long.
      rewrite append_length. lia. }
    now rewrite (IH H2).
Qed.

Lemma split_go_nosep (sep p : string) :
  nosep sep p -> split_go sep p 0 = [p].
Proof.
  induction p as [|c p IH]; [reflexivity|].
  intros [H1 H2]. cbn [split_go]. rewrite H1. now rewrite (IH H2).
Qed.

Lemma concat_cons_snoc (sep p : string) (init : list string) (lst : string) :
  String.concat sep (p :: init ++ [lst]) = p +:+ (sep +:+ String.concat sep (init ++ [lst])).
Proof. destruct init; reflexivity. Qed.

(** What [split] returns: every piece but the last is [clean], the last
    holds no separator, and joining the pieces gives the string back. *)
Lemma split_go_pieces (sep : string) :
  sep <> EmptyString ->
  forall (n : nat) (s : string), (String.length s <= n)%nat ->
  exists init lst,
    split_go sep s 0 = init ++ [lst] /\ Forall (clean sep) init /\
    nosep sep lst /\ s = String.concat sep (init ++ [lst]).
Proof.
  intros Hne. induction n as [|n IH]; intros s Hl.
  - destruct s; [|simpl in Hl; lia]. exists [], EmptyString. repeat split; constructor.
  - destruct s as [|c s]; [exists [], EmptyString; repeat split; constructor|].
    destruct (String.prefix sep (String c s)) eqn:E.
    + destruct (prefix_true_split _ _ E) as [rest Hs].
      assert (String.length rest <= n)%nat as Hr.
      { apply (f_equal String.length) in Hs. rewrite append_length in Hs.
        destruct sep; [congruence|]. simpl in Hs, Hl. lia. }
      destruct (IH rest Hr) as (init & lst & H1 & H2 & H3 & H4).
      exists (EmptyString :: init), lst. rewrite Hs.
      rewrite split_go_match by assumption. rewrite H1. repeat split; auto.
      * constructor; [exact I|assumption].
      * rewrite <- app_comm_cons, concat_cons_snoc. simpl. now rewrite <- H4.
    + assert (String.length s <= n)%nat as Hr by (simpl in Hl; lia).
      destruct (IH s Hr) as (init & lst & H1 & H2 & H3 & H4).
      cbn [split_go]. rewrite E, H1.
      destruct init as [|r init].
      * simpl in *. exists [], (String c lst). subst s.
        repeat split; auto.
      * exists (String c r :: init), lst.
        apply Forall_cons_1 in H2 as [Hr1 Hr2].
        rewrite <- !app_comm_cons in *. rewrite concat_cons_snoc in H4.
        split; [reflexivity|]. split; [|split; [assumption|]].
        -- constructor; [|assumption]. split; [|assumption].
           rewrite <- E, H4, <- append_cons, <- append_assoc.
           symmetry. apply prefix_append_long.
           rewrite append_length. lia.
        -- rewrite concat_cons_snoc, append_cons. now f_equal.
Qed.

Lemma Forall_removelast {A : Type} (P : A -> Prop) (l : list A) :
  Forall P l -> Forall P (removelast l).
Proof.
  induction 1 as [|x l Hx Hl IH]; [constructor|].
  simpl. destruct l; [constructor|]. constructor; assumption.
Qed.

(** The segments of a path, the last one left out, are [clean] and not
    empty. *)
Lemma split_parts_init (k sep : string) (parts : list string) :
  split_parts k sep = Some parts ->
  Forall (fun p => clean sep p /\ nonempty p = true) (removelast parts).
Proof.
  unfold split_parts, split. destruct sep as [|c sep']; [discriminate|].
  set (sep := String c sep'). intros [= <-].
  destruct (split_go_pieces sep ltac:(discriminate) _ k (le_n _))
    as (init & lst & H1 & H2 & H3 & _).
  rewrite H1. rewrite List.filter_app.
  assert (Forall (fun p => clean sep p /\ nonempty p = true) (List.filter nonempty init)) as Hi.
  { clear -H2. induction H2 as [|x l Hx Hl IH]; simpl; [constructor|].
    destruct (nonempty x) eqn:E; [constructor; auto|assumption]. }
  simpl. destruct (nonempty lst).
  - rewrite removelast_last. exact Hi.
  - rewrite app_nil_r. now apply Forall_removelast.
Qed.

Lemma split_go_join (sep : string) (ps : list string) :
  sep <> EmptyString -> ps <> [] ->
  Forall (fun p => clean sep p /\ nonempty p = true) ps ->
  split_go sep (join sep ps) 0 = ps.
Proof.
  intros Hne Hps H. induction H as [|p ps [Hc Hn] Hrest IH]; [congruence|].
  destruct ps as [|q ps].
  - simpl. apply split_go_nosep. now apply clean_nosep.
  - unfold join in *. change (String.concat sep (p :: q :: ps))
      with (p +:+ (sep +:+ String.concat sep (q :: ps))).
    rewrite split_go_clean by assumption. f_equal. apply IH. discriminate.
Qed.

Lemma filter_nonempty_id (sep : string) (ps : list string) :
  Forall (fun p => clean sep p /\ nonempty p = true) ps ->
  List.filter nonempty ps = ps.
Proof.
  induction 1 as [|p ps [_ Hn] _ IH]; [reflexivity|].
  simpl. rewrite Hn. now f_equal.
Qed.

Lemma join_empty_iff (sep : string) (ps : list string) :
  Forall (fun p => clean sep p /\ nonempty p = true) ps ->
  join sep ps = EmptyString <-> ps = [].
Proof.
  intros H. split; [|intros ->; reflexivity].
  destruct H as [|p ps [_ Hn] _]; [reflexivity|].
  destruct p; [discriminate|]. unfold join. destruct ps; discriminate.
Qed.

(** [set_data] joins the segments before the last and [resolve_path]
    splits them again: the same segments come back. *)
Lemma split_parts_join (k sep : string) (parts : list string) :
  split_parts k sep = Some parts ->
  removelast parts <> [] ->
  split_parts (join sep (removelast parts)) sep = Some (removelast parts).
Proof.
  intros Hk Hne. pose proof (split_parts_init _ _ _ Hk) as Hi.
  unfold split_parts, split in *. destruct sep as [|c sep']; [discriminate|].
  rewrite split_go_join by (assumption || discriminate).
  f_equal. eapply filter_nonempty_id; eassumption.
Qed.

End PyStrFacts.

(** ** The state store *)

Module StoreFacts.
Import PyStr Store PyStrFacts.

Lemma dict_get_set_same (d : list (string * pyval)) (key : string) (val : pyval) :
  dict_get (dict_set d key val) key = Some val.
Proof.
  induction d as [|[k v] d IH]; simpl.
  - now rewrite String.eqb_refl.
  - destruct (String.eqb k key) eqn:E; simpl; now rewrite E.
Qed.

(** [int()] on the segments of a path: white space around the digits is
    dropped, a separator of code 28 is not white space, and a digit
    string over the limit is refused. *)
Example int_of_segments :
  PyStr.int " -1 " = Some (-1) /\
  PyStr.int (String (ascii_of_nat 28) "2") = None /\
  PyStr.int (String (ascii_of_nat 28) "-1") = None /\
  PyStr.int "1_0" = Some 10 /\ PyStr.int "+ 1" = None /\
  PyStr.int (String.concat "" (repeat "1"%string 4300)) <> None /\
  PyStr.int (String.concat "" (repeat "0"%string 4301)) = None.
Proof. vm_compute. repeat split; try reflexivity. discriminate. Qed.

Lemma norm_index_lt (n : nat) (idx : Z) (i : nat) :
  norm_index n idx = Some i -> (i < n)%nat.
Proof.
  unfold norm_index.
  destruct ((0 <=? idx) && (idx <? Z.of_nat n)) eqn:E1.
  - intros [= <-]. apply andb_prop in E1 as [H1 H2]. lia.
  - destruct ((idx <? 0) && (- Z.of_nat n <=? idx)) eqn:E2; [|discriminate].
    intros [= <-]. apply andb_prop in E2 as [H1 H2]. lia.
Qed.

Lemma norm_index_in_range (n : nat) (idx : Z) :
  - Z.of_nat n <= idx < Z.of_nat n ->
  exists i, norm_index n idx = Some i /\ (i < n)%nat /\
            i = Z.to_nat (if idx <? 0 then Z.of_nat n + idx else idx).
Proof.
  intros H. unfold norm_index.
  destruct (idx <? 0) eqn:E.
  - replace (0 <=? idx) with false by lia. simpl.
    replace (- Z.of_nat n <=? idx) with true by lia.
    eexists; split; [reflexivity|]. split; [lia|reflexivity].
  - replace (0 <=? idx) with true by lia.
    replace (idx <? Z.of_nat n) with true by lia. simpl.
    eexists; split; [reflexivity|]. split; [lia|reflexivity].
Qed.

Lemma norm_index_out_of_range (n : nat) (idx : Z) :
  norm_index n idx = None <-> idx < - Z.of_nat n \/ Z.of_nat n <= idx.
Proof.
  unfold norm_index.
  destruct ((0 <=? idx) && (idx <? Z.of_nat n)) eqn:E1.
  - apply andb_prop in E1 as [H1 H2]. split; [discriminate|lia].
  - destruct ((idx <? 0) && (- Z.of_nat n <=? idx)) eqn:E2.
    + apply andb_prop in E2 as [H1 H2]. split; [discriminate|lia].
    + split; [intros _|reflexivity].
      apply andb_false_iff in E1, E2. lia.
Qed.

Lemma seq_get_set_same (l l' : list pyval) (idx : Z) (val : pyval) :
  seq_set l idx val = Some l' -> seq_get l' idx = Some val.
Proof.
  unfold seq_set, seq_get.
  destruct (norm_index (length l) idx) as [i|] eqn:E; [|discriminate].
  intros [= <-]. rewrite length_insert, E.
  apply list_lookup_insert_eq. eapply norm_index_lt; eassumption.
Qed.

(** After the container reached by [ps] was replaced, the same segments
    lead to the replacement. *)
Lemma resolve_replace (ps rest : list string) :
  forall (s parent new : pyval),
  resolve_parts s ps = Ok parent ->
  resolve_parts (replace_at s ps new) (ps ++ rest) = resolve_parts new rest.
Proof.
  induction ps as [|part ps IH]; intros s parent new H; [reflexivity|].
  cbn [resolve_parts replace_at app] in *.
  destruct s as [| | | | |l|l|d|]; try discriminate.
  - destruct (PyStr.int part) as [idx|]; [|discriminate].
    unfold seq_get in *.
    destruct (norm_index (length l) idx) as [i|] eqn:E; [|discriminate].
    destruct (l !! i) as [child|] eqn:El; [|discriminate].
    cbn [resolve_parts]. rewrite length_insert. unfold seq_get. rewrite E.
    rewrite list_lookup_insert_eq by (eapply norm_index_lt; eassumption).
    eapply IH; eassumption.
  - destruct (PyStr.int part) as [idx|]; [|discriminate].
    unfold seq_get in *.
    destruct (norm_index (length l) idx) as [i|] eqn:E; [|discriminate].
    destruct (l !! i) as [child|] eqn:El; [|discriminate].
    cbn [resolve_parts]. rewrite length_insert. unfold seq_get. rewrite E.
    rewrite list_lookup_insert_eq by (eapply norm_index_lt; eassumption).
    eapply IH; eassumption.
  - destruct (dict_get d part) as [child|] eqn:E; [|discriminate].
    cbn [resolve_parts]. rewrite dict_get_set_same. eapply IH; eassumption.
Qed.

Lemma assign_ok (parent : pyval) (target_key : string) (val : pyval) :
  settable parent target_key ->
  exists parent', assign parent target_key val = Ok parent' /\
                  resolve_parts parent' [target_key] = Ok val.
Proof.
  destruct parent as [| | | | |l| |d|]; cbn [settable]; try tauto.
  - intros (i & Hi & Hr). cbn [assign]. rewrite Hi.
    destruct (norm_index_in_range _ _ Hr) as (n & Hn & _).
    unfold seq_set. rewrite Hn. eexists; split; [reflexivity|].
    cbn [resolve_parts]. rewrite Hi.
    erewrite seq_get_set_same; [reflexivity|]. unfold seq_set. now rewrite Hn.
  - intros _. eexists; split; [reflexivity|].
    cbn [resolve_parts]. now rewrite dict_get_set_same.
Qed.

(** The segments [set_data] hands to [resolve_path] for the parent. *)
Lemma parent_parts (k sep : string) (parts : list string) :
  split_parts k sep = Some parts ->
  path_parts (join sep (removelast parts)) sep = Some (removelast parts).
Proof.
  intros Hk. unfold path_parts.
  pose proof (split_parts_init _ _ _ Hk) as Hi.
  destruct (join sep (removelast parts)) eqn:E.
  - apply (join_empty_iff _ _ Hi) in E. now rewrite E.
  - rewrite <- E. apply (split_parts_join k); [assumption|].
    intros Hnil. rewrite Hnil in E. discriminate.
Qed.

Lemma split_parts_nonempty_path (k sep : string) (parts : list string) :
  split_parts k sep = Some parts -> parts <> [] -> k <> EmptyString.
Proof.
  intros H Hne ->. unfold split_parts, split in H.
  destruct sep; [discriminate|]. simpl in H. congruence.
Qed.

(** C9, as amended.  When the parent of the path resolves to a dict, or to
    a list that has the last segment as one of its indices, [set_data]
    succeeds and [get_data] on the same path then returns the sanitized
    value that was stored. *)
Theorem set_then_get (s : pyval) (k sep : string) (val : pyval)
    (parts : list string) (parent : pyval) :
  split_parts k sep = Some parts ->
  parts <> [] ->
  resolve_parts s (removelast parts) = Ok parent ->
  settable parent (List.last parts EmptyString) ->
  exists s', set_value s k val sep = Ok s' /\
             get_data s' k sep = Ok (sanitize_value val).
Proof.
  intros Hk Hne Hres Hset.
  pose proof (split_parts_nonempty_path _ _ _ Hk Hne) as Hk0.
  pose proof (parent_parts _ _ _ Hk) as Hpp.
  destruct (assign_ok _ _ val Hset) as (parent' & Ha & Hr).
  exists (replace_at s (removelast parts) parent'). split.
  - unfold set_value. destruct k as [|c k']; [congruence|].
    rewrite Hk. destruct parts as [|p0 ps0] eqn:Eparts; [congruence|].
    rewrite <- Eparts in *. cbv zeta. rewrite Hpp. cbn [default].
    assert (match join sep (removelast parts) with
            | EmptyString => Ok s
            | String _ _ => resolve_path s (join sep (removelast parts)) sep
            end = Ok parent) as ->.
    { unfold resolve_path. rewrite Hpp.
      destruct (join sep (removelast parts)) eqn:E; [|assumption].
      unfold path_parts in Hpp. injection Hpp as Hnil.
      rewrite <- Hnil in Hres. now injection Hres as ->. }
    now rewrite Ha.
  - unfold get_data, resolve_path, path_parts.
    destruct k as [|c k']; [congruence|]. rewrite Hk.
    rewrite (app_removelast_last EmptyString Hne) at 2.
    erewrite resolve_replace by eassumption. now rewrite Hr.
Qed.

Lemma set_then_get_witness :
  exists s', set_value store_ab "a/b/-1" (PInt 99) "/" = Ok s' /\
             get_data s' "a/b/-1" "/" = Ok (sanitize_value (PInt 99)).
Proof.
  apply (set_then_get store_ab "a/b/-1" "/" (PInt 99) ["a"; "b"; "-1"]%string
           (PList [PInt 10; PInt 20; PInt 30])).
  - reflexivity.
  - discriminate.
  - reflexivity.
  - exists (-1). split; [reflexivity|]. simpl. lia.
Defined.

(** C9 as it was stated fails on a list parent: the parent of [a/b/5]
    resolves to a list of three elements, [set_data] aborts with 400 and
    the store stays as it was, so [get_data] on the path aborts too. *)
Lemma set_then_get_out_of_range :
  split_parts "a/b/5" "/" = Some ["a"; "b"; "5"]%string /\
  (exists parent, resolve_parts store_ab ["a"; "b"]%string = Ok parent /\
                  is_container parent) /\
  set_value store_ab "a/b/5" (PInt 99) "/" = Abort 400 (IndexOutOfRange 5) /\
  get_data store_ab "a/b/5" "/" = Abort 404 (IndexOutOfRange 5).
Proof.
  split; [reflexivity|]. split; [|split; reflexivity].
  eexists; split; [reflexivity|exact I].
Qed.

(** Scenario 4 of the specification on [{a: {b: [10,20,30]}}]. *)
Example scenario_4 :
  get_data store_ab "a/b/2" "/" = Ok (PInt 30) /\
  get_data store_ab "a/b/5" "/" = Abort 404 (IndexOutOfRange 5) /\
  (exists s', set_value store_ab "a/b/1" (PInt 99) "/" = Ok s' /\
              get_data s' "a/b/1" "/" = Ok (PInt 99)).
Proof.
  split; [reflexivity|]. split; [reflexivity|].
  eexists; split; reflexivity.
Qed.

(** C10.  On a list or tuple of length [n] reached by the segments before,
    a last segment that reads as an integer [i] with [-n <= i < 0] makes
    [get_data] return the element at [n + i]; the failure
    [IndexOutOfRange] comes exactly when [i < -n] or [n <= i]. *)
Theorem negative_index (s : pyval) (path sep part : string)
    (before : list string) (l : list pyval) (i : Z) :
  path_parts path sep = Some (before ++ [part]) ->
  (resolve_parts s before = Ok (PList l) \/ resolve_parts s before = Ok (PTuple l)) ->
  PyStr.int part = Some i ->
  (- Z.of_nat (length l) <= i < 0 ->
   exists x, l !! Z.to_nat (Z.of_nat (length l) + i) = Some x /\
             get_data s path sep = Ok (sanitize_value x)) /\
  (get_data s path sep = Abort 404 (IndexOutOfRange i) <->
   i < - Z.of_nat (length l) \/ Z.of_nat (length l) <= i).
Proof.
  intros Hp Hres Hi.
  assert (forall rest, resolve_parts s (before ++ rest)
                       = match resolve_parts s before with
                         | Ok node => resolve_parts node rest
                         | Abort c w => Abort c w
                         end) as Happ.
  { clear. intros rest. revert s. induction before as [|b bs IH]; intros s; [reflexivity|].
    cbn [app resolve_parts].
    destruct s; try reflexivity.
    - destruct (PyStr.int b) as [z|]; [|reflexivity]. destruct (seq_get l z); auto.
    - destruct (PyStr.int b) as [z|]; [|reflexivity]. destruct (seq_get l z); auto.
    - destruct (dict_get d b); auto. }
  assert (get_data s path sep
          = match seq_get l i with
            | Some x => Ok (sanitize_value x)
            | None => Abort 404 (IndexOutOfRange i)
            end) as Hget.
  { unfold get_data, resolve_path. rewrite Hp, Happ.
    destruct Hres as [-> | ->]; cbn [resolve_parts]; rewrite Hi;
      destruct (seq_get l i); reflexivity. }
  rewrite Hget. unfold seq_get. split.
  - intros Hr.
    destruct (norm_index_in_range (length l) i ltac:(lia)) as (n & Hn & Hlt & Heq).
    rewrite Hn. replace (i <? 0) with true in Heq by lia. subst n.
    destruct (lookup_lt_is_Some_2 l _ Hlt) as [x Hx].
    exists x. now rewrite Hx.
  - rewrite <- norm_index_out_of_range.
    destruct (norm_index (length l) i) as [n|] eqn:E.
    + pose proof (norm_index_lt _ _ _ E) as Hlt.
      destruct (lookup_lt_is_Some_2 l _ Hlt) as [x Hx]. rewrite Hx.
      split; discriminate.
    + tauto.
Qed.

Lemma negative_index_witness :
  (- 3 <= -1 < 0 ->
   exists x, [PInt 10; PInt 20; PInt 30] !! Z.to_nat (3 + -1) = Some x /\
             get_data store_ab "a/b/-1" "/" = Ok (sanitize_value x)) /\
  (get_data store_ab "a/b/-1" "/" = Abort 404 (IndexOutOfRange (-1)) <->
   -1 < - 3 \/ 3 <= -1).
Proof.
  apply (negative_index store_ab "a/b/-1" "/" "-1" ["a"; "b"]%string
           [PInt 10; PInt 20; PInt 30] (-1)).
  - reflexivity.
  - left. reflexivity.
  - reflexivity.
Defined.

End StoreFacts.

(** ** The capture worker *)

Module WorkerFacts.
Import Worker.

#[local] Set Warnings "-inexact-float".

Lemma check_change_sticky (last_mean curr_b : float) (st : settle_state) :
  has_changed st = true -> check_change last_mean curr_b st = st.
Proof. unfold check_change. now intros ->. Qed.

(** One pass of the loop body, by the value of [has_changed] after the
    change test. *)
Lemma settle_iter_cases (last_mean curr_b : float) (st : settle_state) :
  let changed := has_changed st || change_test last_mean curr_b in
  let count := if stable (prev_b st) curr_b then S (stable_count st) else O in
  settle_iter last_mean curr_b st =
    if changed then
      if (3 <=? count)%nat then (mk_settle true count (prev_b st), true)
      else (mk_settle true count curr_b, false)
    else (mk_settle false (stable_count st) curr_b, false).
Proof.
  destruct st as [hc sc pb]. unfold settle_iter, check_change, check_stability.
  cbn [has_changed stable_count prev_b].
  destruct hc; cbn [orb has_changed stable_count prev_b].
  - destruct (3 <=? _)%nat; reflexivity.
  - destruct (change_test last_mean curr_b); cbn [has_changed stable_count prev_b].
    + destruct (3 <=? _)%nat; reflexivity.
    + reflexivity.
Qed.

Lemma last_cons_default {A : Type} (l : list A) (x d : A) :
  List.last (x :: l) d = List.last l x.
Proof.
  revert x d. induction l as [|y l IH]; intros x d; [reflexivity|].
  change (List.last (x :: y :: l) d) with (List.last (y :: l) d).
  now rewrite (IH y d), (IH y x).
Qed.

(** While no frame passes the change test the loop keeps [has_changed]
    false and the counter untouched, and remembers the last mean. *)
Lemma settle_run_quiet (last_mean : float) (quiet : list float) :
  Forall (fun m => change_test last_mean m = false) quiet ->
  forall (n : nat) (pb : float),
  settle_run last_mean quiet (mk_settle false n pb)
  = (mk_settle false n (List.last quiet pb), false).
Proof.
  induction 1 as [|m quiet Hm _ IH]; intros n pb; [reflexivity|].
  cbn [settle_run]. rewrite settle_iter_cases.
  cbn [has_changed stable_count prev_b orb]. rewrite Hm.
  rewrite IH. now rewrite last_cons_default.
Qed.

Lemma settle_run_app (last_mean : float) (xs ys : list float) (st st' : settle_state) :
  settle_run last_mean xs st = (st', false) ->
  settle_run last_mean (xs ++ ys) st = settle_run last_mean ys st'.
Proof.
  revert st. induction xs as [|x xs IH]; intros st H.
  - simpl in H. now injection H as ->.
  - cbn [app settle_run] in *.
    destruct (settle_iter last_mean x st) as [st1 stop].
    destruct stop; [discriminate|]. now apply IH.
Qed.

(** The settling loop itself follows [settle_run]: while the clock stays
    below two seconds and the device delivers frames, its variables go
    through the passes of the body over the means of these frames. *)
Lemma settle_loop_run {frame : Type} (mean : frame -> float) (start_t last_mean : float)
    (frs : list frame) :
  forall (clock : list float) (st st' : settle_state)
         (more : list (option frame)) (latest : option frame),
  Forall (fun now => flt (PrimFloat.sub now start_t) 2%float = true)
    (take (length frs) clock) ->
  (length frs <= length clock)%nat ->
  settle_run last_mean (List.map mean frs) st = (st', false) ->
  settle_loop mean clock start_t last_mean st (List.map Some frs ++ more) latest
  = settle_loop mean (drop (length frs) clock) start_t last_mean st' more
      (match last frs with Some fr => Some fr | None => latest end).
Proof.
  induction frs as [|fr frs IH]; intros clock st st' more latest Hclock Hlen Hrun.
  - cbn in Hrun. injection Hrun as <-. reflexivity.
  - destruct clock as [|now clock]; [cbn in Hlen; lia|].
    cbn [length take] in Hclock. apply Forall_cons_1 in Hclock as [Hnow Hclock].
    cbn [List.map app settle_loop settle_run length drop] in *. rewrite Hnow.
    destruct (settle_iter last_mean (mean fr) st) as [st1 stop].
    destruct stop; [discriminate|].
    rewrite (IH clock st1 st' more (Some fr) Hclock ltac:(lia) Hrun).
    destruct frs as [|fr' frs]; [reflexivity|].
    change (last (fr :: fr' :: frs)) with (last (fr' :: frs)).
    destruct (last (fr' :: frs)) eqn:E; [reflexivity|].
    apply last_None in E. discriminate.
Qed.

(** C7, as amended.  The means and the tests are float64.  Over the frames
    that do not pass the change test the loop only tests the change:
    [has_changed] stays false, the counter is untouched (from any state)
    and stays 0 from the start.  The pass that detects the change runs the
    stability check as well: the counter is 1 after it when the frame is
    within 1.0 of the previous mean (0 before the first frame), and 0
    otherwise.  In every pass that finds [has_changed] set, the change
    test does nothing and the stability check runs: the counter goes up by
    one on a frame within 1.0 of the previous mean and back to 0 on
    another, and the loop is left when it reaches 3. *)
Theorem settle_detection (last_mean : float) (quiet : list float) (b : float) :
  Forall (fun m => change_test last_mean m = false) quiet ->
  change_test last_mean b = true ->
  settle_run last_mean quiet settle_init
    = (mk_settle false 0 (List.last quiet 0%float), false) /\
  (forall (n : nat) (pb : float),
     settle_run last_mean quiet (mk_settle false n pb)
     = (mk_settle false n (List.last quiet pb), false)) /\
  settle_run last_mean (quiet ++ [b]) settle_init
    = (mk_settle true
         (if stable (List.last quiet 0%float) b then 1%nat else 0%nat) b,
       false) /\
  (forall (c : float) (st : settle_state),
     has_changed st = true ->
     check_change last_mean c st = st /\
     settle_iter last_mean c st
     = let count := if stable (prev_b st) c then S (stable_count st) else O in
       if (3 <=? count)%nat then (mk_settle true count (prev_b st), true)
       else (mk_settle true count c, false)).
Proof.
  intros Hq Hb.
  pose proof (settle_run_quiet last_mean quiet Hq 0 0%float) as Hrun.
  split; [exact Hrun|]. split; [exact (settle_run_quiet last_mean quiet Hq)|]. split.
  - rewrite (settle_run_app _ _ _ _ _ Hrun).
    cbn [settle_run]. rewrite settle_iter_cases.
    cbn [has_changed stable_count prev_b orb]. rewrite Hb.
    destruct (stable (List.last quiet 0%float) b); reflexivity.
  - intros c st Hc. split; [now apply check_change_sticky|].
    rewrite settle_iter_cases. cbv zeta. now rewrite Hc.
Qed.

Lemma settle_detection_witness :
  settle_run 100 [100; 101]%float settle_init = (mk_settle false 0 101%float, false) /\
  (forall (n : nat) (pb : float),
     settle_run 100 [100; 101]%float (mk_settle false n pb)
     = (mk_settle false n (List.last [100; 101]%float pb), false)) /\
  settle_run 100 ([100; 101] ++ [40])%float settle_init
    = (mk_settle true
         (if stable (List.last [100; 101]%float 0%float) 40 then 1%nat else 0%nat) 40%float,
       false) /\
  (forall (c : float) (st : settle_state),
     has_changed st = true ->
     check_change 100 c st = st /\
     settle_iter 100 c st
     = let count := if stable (prev_b st) c then S (stable_count st) else O in
       if (3 <=? count)%nat then (mk_settle true count (prev_b st), true)
       else (mk_settle true count c, false)).
Proof.
  apply (settle_detection 100 [100; 101]%float 40).
  - repeat constructor.
  - reflexivity.
Defined.

(** C7 as it was stated fails: with [last_mean = 100] a first frame of
    mean 0.5 sets [has_changed] and, in the same pass, raises the counter
    to 1; the loop of the specification leaves it at 0.  Three such frames
    end the loop of the code, not the loop of the specification. *)
Lemma settle_first_detection_counts :
  has_changed settle_init = false /\
  settle_iter 100 0.5 settle_init = (mk_settle true 1 0.5, false) /\
  settle_iter_spec 100 0.5 settle_init = (mk_settle true 0 0.5, false) /\
  snd (settle_run 100 [0.5; 0.5; 0.5]%float settle_init) = true.
Proof. repeat split; reflexivity. Qed.

(** The tests round as float64 does: between the means [193/192] and
    [1/192] the float difference is below 1.0 although the quotients
    differ by 1, and the pass counts the frame as stable. *)
Example stable_rounds :
  stable (PrimFloat.div 193 192) (PrimFloat.div 1 192) = true /\
  stable 2 1 = false.
Proof. split; reflexivity. Qed.

Section Mailbox.
Context {frame : Type}.
Variable mean : frame -> float.
Variable fuse : list frame -> option (option frame).

Lemma run_app (m : machine frame) (t1 t2 : list (event)) :
  run mean fuse m (t1 ++ t2) = run mean fuse (run mean fuse m t1) t2.
Proof. unfold run. apply fold_left_app. Qed.

Lemma ext_writes_keep (writes : list fusion_state) :
  forall m : machine frame,
  let m' := run mean fuse m (List.map ExtWrite writes) in
  pos m' = pos m /\ shared_running m' = shared_running m /\
  outside m' = outside m /\
  is_running (cam m') = is_running (cam m) /\
  latest_frame_data (cam m') = latest_frame_data (cam m) /\
  fused_result (cam m') = fused_result (cam m).
Proof.
  induction writes as [|v writes IH]; intros m; [cbn; tauto|].
  cbn [List.map]. change (run mean fuse m (ExtWrite v :: List.map ExtWrite writes))
    with (run mean fuse (ext_write v m) (List.map ExtWrite writes)).
  destruct (IH (ext_write v m)) as (H1 & H2 & H3 & H4 & H5 & H6).
  cbv zeta. rewrite H1, H2, H3, H4, H5, H6. cbn. tauto.
Qed.

Lemma run_bracket_end (m : machine frame) :
  pos (run_bracket mean fuse m) = Crashed \/
  (pos (run_bracket mean fuse m) = AtHead /\
   mailbox (cam (run_bracket mean fuse m)) = READY).
Proof.
  unfold run_bracket.
  destruct (cap_read (outside m)) as [first w0].
  destruct (fold_left _ _ _) as [[[w1 latest] captured] lm].
  destruct captured as [|fr captured].
  - destruct (cap_read w1). right. split; reflexivity.
  - destruct (fuse (fr :: captured)) as [result|].
    + destruct (cap_read w1). right. split; reflexivity.
    + left. reflexivity.
Qed.

(** C8, as amended.  The worker starts a bracket whenever it finds
    [REQUESTED] at the head of its loop, whatever the mailbox held before
    the request was stored, [READY] included.  Whatever is stored while the
    bracket runs is overwritten: when the bracket ends the mailbox holds
    [READY] (unless an exception ended the thread). *)
Theorem request_handling (m : machine frame) :
  shared_running m = true -> is_running (cam m) = true ->
  (pos m = AtHead ->
   let m' := run mean fuse m [ExtWrite REQUESTED; WorkerTurn] in
   begins_bracket (ext_write REQUESTED m) WorkerTurn = true /\
   pos m' = InBracket /\ mailbox (cam m') = PROCESSING) /\
  (pos m = InBracket ->
   forall writes : list fusion_state,
   let m' := run mean fuse m (List.map ExtWrite writes ++ [WorkerTurn]) in
   pos m' = Crashed \/ (pos m' = AtHead /\ mailbox (cam m') = READY)).
Proof.
  intros Hs Hr. split.
  - intros Hp. cbn. unfold worker_turn, begins_bracket. cbn. rewrite Hp, Hs, Hr. cbn. tauto.
  - intros Hp writes. cbv zeta. rewrite run_app.
    destruct (ext_writes_keep writes m) as (H1 & _).
    set (m1 := run mean fuse m (List.map ExtWrite writes)) in *.
    cbn. unfold worker_turn. rewrite H1, Hp. apply run_bracket_end.
Qed.

End Mailbox.

Lemma request_handling_witness :
  let m := run id stub_fuse stub_machine [ExtWrite REQUESTED; WorkerTurn; WorkerTurn] in
  mailbox (cam m) = READY /\
  (pos m = AtHead ->
   let m' := run id stub_fuse m [ExtWrite REQUESTED; WorkerTurn] in
   begins_bracket (ext_write REQUESTED m) WorkerTurn = true /\
   pos m' = InBracket /\ mailbox (cam m') = PROCESSING) /\
  (pos m = InBracket ->
   forall writes : list fusion_state,
   let m' := run id stub_fuse m (List.map ExtWrite writes ++ [WorkerTurn]) in
   pos m' = Crashed \/ (pos m' = AtHead /\ mailbox (cam m') = READY)).
Proof.
  split; [reflexivity|].
  apply (request_handling id stub_fuse
           (run id stub_fuse stub_machine [ExtWrite REQUESTED; WorkerTurn; WorkerTurn]));
    reflexivity.
Defined.

(** C8 as it was stated fails: after a first bracket the mailbox holds
    [READY]; a request stored then is taken up at the next turn of the
    worker, and the second bracket begins although the mailbox was never
    back at [IDLE]. *)
Lemma second_request_not_gated :
  mailbox (cam (run id stub_fuse stub_machine (take 3 second_request))) = READY /\
  pos (run id stub_fuse stub_machine second_request) = InBracket /\
  mailbox (cam (run id stub_fuse stub_machine second_request)) = PROCESSING /\
  idle_gated id stub_fuse stub_machine true second_request = false.
Proof. repeat split; reflexivity. Qed.

End WorkerFacts.

(** ** The fusion engine *)

Module FusionFacts.
Import Fusion.

(** *** Loops in the exception monad *)

Lemma mapM_Forall2 {A B : Type} (f : A -> res B) (P : A -> Prop) (R : A -> B -> Prop) :
  (forall a, P a -> exists b, f a = Ret b /\ R a b) ->
  forall l, Forall P l -> exists bs, mapM f l = Ret bs /\ Forall2 R l bs.
Proof.
  intros Hf l Hl. induction Hl as [|a l Ha _ (bs & Hbs & HR)].
  - exists []. split; [reflexivity|constructor].
  - destruct (Hf a Ha) as (b & Hb & Hab).
    exists (b :: bs). cbn [mapM]. rewrite Hb. cbn [bind]. rewrite Hbs. cbn [bind].
    split; [reflexivity|now constructor].
Qed.

(** A [for i in range(start, start + n)] loop that keeps an invariant. *)
Lemma foldM_seq {S : Type} (body : S -> nat -> res S) (P : nat -> S -> Prop) (n : nat) :
  forall (start : nat) (s : S),
  P start s ->
  (forall i s, (start <= i < start + n)%nat -> P i s ->
               exists s', body s i = Ret s' /\ P (Datatypes.S i) s') ->
  exists s', foldM body (seq start n) s = Ret s' /\ P (start + n)%nat s'.
Proof.
  induction n as [|n IH]; intros start s H0 Hstep.
  - exists s. rewrite Nat.add_0_r. now split.
  - cbn [seq foldM].
    destruct (Hstep start s ltac:(lia) H0) as (s1 & Hb & H1). rewrite Hb. cbn [bind].
    destruct (IH (Datatypes.S start) s1 H1) as (s' & Hs' & HP).
    { intros i s2 Hi. apply Hstep. lia. }
    exists s'. split; [assumption|]. now replace (start + Datatypes.S n)%nat with (Datatypes.S start + n)%nat by lia.
Qed.

(** A [for i in range(n - 1, -1, -1)] loop that keeps an invariant. *)
Lemma foldM_rev_seq {S : Type} (body : S -> nat -> res S) (P : nat -> S -> Prop) (n : nat) :
  forall s : S,
  P n s ->
  (forall i s, (i < n)%nat -> P (Datatypes.S i) s -> exists s', body s i = Ret s' /\ P i s') ->
  exists s', foldM body (rev (seq 0 n)) s = Ret s' /\ P 0%nat s'.
Proof.
  induction n as [|n IH]; intros s H0 Hstep.
  - exists s. now split.
  - rewrite seq_S, rev_app_distr. cbn [rev app foldM Nat.add].
    destruct (Hstep n s ltac:(lia) H0) as (s1 & Hb & H1). rewrite Hb. cbn [bind].
    apply IH; [assumption|]. intros i s2 Hi. apply Hstep. lia.
Qed.

(** *** Shapes of the array operations *)

Lemma amap_shape {A B : Type} (f : A -> B) (sh : list nat) (a : ndarray A) :
  has_shape sh a -> has_shape sh (amap f a).
Proof.
  intros [H1 H2]. split; [exact H1|].
  unfold wf, amap in *. cbn. now rewrite length_map.
Qed.

Lemma azip_shape {A B C : Type} (f : A -> B -> C) (sh : list nat)
    (a : ndarray A) (b : ndarray B) :
  has_shape sh a -> has_shape sh b ->
  exists c, azip f a b = Ret c /\ has_shape sh c.
Proof.
  intros [Ha1 Ha2] [Hb1 Hb2]. unfold azip.
  rewrite bool_decide_eq_true_2 by congruence.
  eexists; split; [reflexivity|]. split; [exact Ha1|].
  unfold wf in *. cbn [shape data]. rewrite length_zip_with, Ha2, Hb2, Ha1, Hb1. lia.
Qed.

Lemma length_chunks {A : Type} (c n : nat) (l : list A) :
  length (chunks c n l) = n.
Proof. revert l. induction n; intros l; cbn; [reflexivity|now rewrite IHn]. Qed.

Lemma reduce_axis2_shape {A B : Type} (f : list A -> B) (h w c : nat) (a : ndarray A) :
  has_shape [h; w; c] a ->
  exists r, reduce_axis2 f a = Ret r /\ has_shape [h; w] r.
Proof.
  intros [H1 H2]. unfold reduce_axis2. rewrite H1.
  eexists; split; [reflexivity|]. split; [reflexivity|].
  unfold wf. cbn [shape data]. rewrite length_map, length_chunks. cbn. lia.
Qed.

(** Discharges one call of a [bind] chain from a lemma of the form
    [exists x, call = Ret x /\ ...]. *)
Ltac call H x Hx :=
  let E := fresh "E" in
  destruct H as (x & E & Hx); rewrite E; clear E; cbn [bind].

Section Shapes.
Context {F : Type}.
Variable fl : float_api F.
Variable cv : cv2_api F.
Variables wc ws we : F.
Hypothesis cv_ok : cv2_ok cv.

Lemma div255_shape (sh : list nat) (a : ndarray Z) :
  has_shape sh a -> has_shape sh (div255 fl a).
Proof. apply amap_shape. Qed.

(** The weight of a frame has its height and width. *)
Lemma weight_of_shape (h w : nat) (img : ndarray Z) :
  (0 < h)%nat -> (0 < w)%nat -> has_shape [h; w; 3%nat] img ->
  exists W, weight_of fl cv wc ws we img = Ret W /\ has_shape [h; w] W.
Proof.
  intros Hh Hw Hi. unfold weight_of, _compute_contrast, _compute_saturation,
    _compute_exposedness.
  call (gray_ok cv cv_ok img h w Hh Hw Hi) g Hg.
  call (lap_ok cv cv_ok _ h w Hh Hw (div255_shape _ _ Hg)) lap Hlap.
  call (reduce_axis2_shape (fstd fl) h w 3 _ (div255_shape _ _ Hi)) sat Hsat.
  match goal with |- context [reduce_axis2 ?f ?a] =>
    assert (has_shape [h; w; 3%nat] a) as Hgc
      by (apply amap_shape, div255_shape, Hi);
    call (reduce_axis2_shape f h w 3 a Hgc) expo Hex end.
  match goal with |- context [azip ?f ?a ?b] =>
    assert (has_shape [h; w] a) as Hc1 by (do 2 apply amap_shape; exact Hlap);
    assert (has_shape [h; w] b) as Hs1 by (apply amap_shape; exact Hsat);
    call (azip_shape f [h; w] a b Hc1 Hs1) cs Hcs end.
  match goal with |- context [azip ?f ?a ?b] =>
    assert (has_shape [h; w] b) as He1 by (apply amap_shape; exact Hex);
    call (azip_shape f [h; w] a b Hcs He1) cse Hcse end.
  eexists; split; [reflexivity|]. now apply amap_shape.
Qed.

Lemma sum_fold_shape (sh : list nat) (rest : list (ndarray F)) :
  forall acc : ndarray F,
  has_shape sh acc -> Forall (has_shape sh) rest ->
  has_shape sh
    (fold_left (fun acc w => mk_array (shape acc) (zip_with (fadd fl) (data acc) (data w)))
       rest acc).
Proof.
  induction rest as [|w rest IH]; intros acc Ha Hr; [exact Ha|].
  apply Forall_cons_1 in Hr as [Hw Hr]. cbn [fold_left]. apply IH; [|exact Hr].
  destruct Ha as [Ha1 Ha2], Hw as [Hw1 Hw2]. split; [exact Ha1|].
  unfold wf in *. cbn [shape data]. rewrite length_zip_with, Ha2, Hw2, Ha1, Hw1. lia.
Qed.

Lemma np_sum_axis0_shape (sh : list nat) (weights : list (ndarray F)) :
  weights <> [] -> Forall (has_shape sh) weights ->
  exists S, np_sum_axis0 fl weights = Ret S /\ has_shape sh S.
Proof.
  intros Hne Hall. destruct weights as [|w0 rest]; [congruence|].
  apply Forall_cons_1 in Hall as [H0 Hr]. cbn [np_sum_axis0].
  assert (forallb (fun w => bool_decide (shape w = shape w0)) rest = true) as ->.
  { apply forallb_forall. intros w Hin. apply bool_decide_eq_true_2.
    rewrite Forall_forall in Hr. apply list_elem_of_In in Hin.
    destruct (Hr w Hin) as [-> _]. now destruct H0 as [-> _]. }
  eexists; split; [reflexivity|]. now apply sum_fold_shape.
Qed.

(** The normalized weight maps of a bracket of one shape: one map per
    frame, each of the height and width of the frames. *)
Lemma weight_maps_shape (h w : nat) (images : list (ndarray Z)) :
  (0 < h)%nat -> (0 < w)%nat -> images <> [] ->
  Forall (has_shape [h; w; 3%nat]) images ->
  exists weights, _generate_weight_maps fl cv wc ws we images = Ret weights /\
                  length weights = length images /\
                  Forall (has_shape [h; w]) weights.
Proof.
  intros Hh Hw Hne Hall. unfold _generate_weight_maps.
  destruct (mapM_Forall2 (weight_of fl cv wc ws we) (has_shape [h; w; 3%nat])
              (fun _ W => has_shape [h; w] W)
              (fun a Ha => weight_of_shape h w a Hh Hw Ha) images Hall)
    as (raw & -> & Hraw). cbn [bind].
  pose proof (Forall2_length _ _ _ Hraw) as Hlen.
  assert (Forall (has_shape [h; w]) raw) as Hraw'.
  { clear -Hraw. induction Hraw; constructor; auto. }
  assert (raw <> []) as Hraw_ne by (destruct raw, images; cbn in *; congruence).
  call (np_sum_axis0_shape [h; w] raw Hraw_ne Hraw') wsum HS.
  destruct (mapM_Forall2 (fun W => azip (fdiv fl) W wsum) (has_shape [h; w])
              (fun _ W' => has_shape [h; w] W')
              (fun a Ha => azip_shape (fdiv fl) [h; w] a wsum Ha HS) raw Hraw')
    as (weights & -> & Hwts).
  exists weights. split; [reflexivity|]. split.
  - rewrite <- (Forall2_length _ _ _ Hwts). now symmetry.
  - clear -Hwts. induction Hwts; constructor; auto.
Qed.

(** *** Pyramids *)

Lemma half_pos (n : nat) : (0 < n)%nat -> (0 < half n)%nat.
Proof.
  intros H. unfold half.
  pose proof (Nat.div_str_pos (n + 1) 2 ltac:(lia)). lia.
Qed.

Lemma lvl_pos (k n : nat) : (0 < n)%nat -> (0 < lvl k n)%nat.
Proof.
  intros H. induction k as [|k IH]; [exact H|].
  change (lvl (S k) n) with (half (lvl k n)). now apply half_pos.
Qed.

Lemma lvl_S (k n : nat) : lvl (S k) n = half (lvl k n).
Proof. reflexivity. Qed.

Lemma pyr_shapes_single {A : Type} (rest : list nat) (h w : nat) (a : ndarray A) :
  has_shape (h :: w :: rest) a -> pyr_shapes rest h w [a].
Proof.
  intros Ha k b Hk. destruct k as [|k]; [|destruct k; discriminate].
  now injection Hk as <-.
Qed.

Lemma pyr_shapes_snoc {A : Type} (rest : list nat) (h w : nat)
    (pyr : list (ndarray A)) (d : ndarray A) :
  pyr_shapes rest h w pyr ->
  has_shape (lvl (length pyr) h :: lvl (length pyr) w :: rest) d ->
  pyr_shapes rest h w (pyr ++ [d]).
Proof.
  intros Hp Hd k a Hk.
  destruct (lookup_app_Some pyr [d] k a) as [Hcases _].
  destruct (Hcases Hk) as [H1 | [Hge H2]]; [now apply Hp|].
  destruct (k - length pyr)%nat as [|j] eqn:E; [|destruct j; discriminate].
  injection H2 as <-. now replace k with (length pyr) by lia.
Qed.

Lemma last_of_lookup {A : Type} (pyr : list A) :
  pyr <> [] -> exists tp, last_of pyr = Ret tp /\ pyr !! (length pyr - 1)%nat = Some tp.
Proof.
  intros Hne. unfold last_of. rewrite last_lookup.
  replace (Nat.pred (length pyr)) with (length pyr - 1)%nat by lia.
  destruct (lookup_lt_is_Some_2 pyr (length pyr - 1)) as [tp Ht].
  { destruct pyr; [congruence|cbn; lia]. }
  exists tp. now rewrite Ht.
Qed.

(** The loop of [_gaussian_pyramid] adds [n] levels of the right sizes. *)
Lemma pyramid_loop_shapes {A : Type} (down : ndarray A -> res (ndarray A))
    (rest : list nat) (h w : nat) :
  (0 < h)%nat -> (0 < w)%nat ->
  (forall (a : ndarray A) (h w : nat), (0 < h)%nat -> (0 < w)%nat ->
     has_shape (h :: w :: rest) a ->
     exists g, down a = Ret g /\ has_shape (half h :: half w :: rest) g) ->
  forall (n : nat) (pyr : list (ndarray A)),
  pyr <> [] -> pyr_shapes rest h w pyr ->
  exists pyr', pyramid_loop down n pyr = Ret pyr' /\
               length pyr' = (length pyr + n)%nat /\ pyr_shapes rest h w pyr'.
Proof.
  intros Hh Hw Hdown. induction n as [|n IH]; intros pyr Hne Hp.
  - exists pyr. rewrite Nat.add_0_r. split; [reflexivity|]. split; [reflexivity|assumption].
  - cbn [pyramid_loop].
    call (last_of_lookup pyr Hne) tp Htp.
    pose proof (Hp _ _ Htp) as Hts.
    call (Hdown tp _ _ (lvl_pos _ h Hh) (lvl_pos _ w Hw) Hts) d Hd.
    destruct (IH (pyr ++ [d])) as (pyr' & Hr & Hlen & Hs).
    + destruct pyr; discriminate.
    + apply pyr_shapes_snoc; [assumption|].
      rewrite <- !lvl_S in Hd.
      replace (S (length pyr - 1)) with (length pyr) in Hd; [exact Hd|].
      destruct pyr; [congruence|cbn; lia].
    + exists pyr'. split; [assumption|]. split; [|assumption].
      rewrite Hlen, length_app. cbn. lia.
Qed.

Lemma gaussian_pyramid_shapes (rest : list nat) (h w : nat) (img : ndarray F) (levels : Z) :
  (0 < h)%nat -> (0 < w)%nat -> has_shape (h :: w :: rest) img ->
  exists pyr, _gaussian_pyramid cv img levels = Ret pyr /\
              length pyr = depth levels /\ pyr_shapes rest h w pyr.
Proof.
  intros Hh Hw Hi. unfold _gaussian_pyramid.
  destruct (pyramid_loop_shapes (pyrDown cv) rest h w Hh Hw
              (fun a h w => down_ok cv cv_ok a h w rest)
              (Z.to_nat (levels - 1)) [img] ltac:(discriminate)
              (pyr_shapes_single _ _ _ _ Hi)) as (pyr & Hr & Hlen & Hs).
  exists pyr. split; [assumption|]. split; [|assumption].
  rewrite Hlen. reflexivity.
Qed.

Lemma gaussian_pyramid_u8_shapes (rest : list nat) (h w : nat) (img : ndarray Z) (levels : Z) :
  (0 < h)%nat -> (0 < w)%nat -> has_shape (h :: w :: rest) img ->
  exists pyr, _gaussian_pyramid_u8 cv img levels = Ret pyr /\
              length pyr = depth levels /\ pyr_shapes rest h w pyr.
Proof.
  intros Hh Hw Hi. unfold _gaussian_pyramid_u8.
  destruct (pyramid_loop_shapes (pyrDown_u8 cv) rest h w Hh Hw
              (fun a h w => down_u8_ok cv cv_ok a h w rest)
              (Z.to_nat (levels - 1)) [img] ltac:(discriminate)
              (pyr_shapes_single _ _ _ _ Hi)) as (pyr & Hr & Hlen & Hs).
  exists pyr. split; [assumption|]. split; [|assumption].
  rewrite Hlen. reflexivity.
Qed.

Lemma index_lookup {A : Type} (l : list A) (i : nat) :
  (i < length l)%nat -> exists a, index l i = Ret a /\ l !! i = Some a.
Proof.
  intros Hi. destruct (lookup_lt_is_Some_2 l i Hi) as [a Ha].
  exists a. unfold index. now rewrite Ha.
Qed.

Lemma shape2_of {A : Type} (h w : nat) (rest : list nat) (a : ndarray A) :
  has_shape (h :: w :: rest) a -> shape2 a = Ret (h, w).
Proof. intros [H _]. unfold shape2. now rewrite H. Qed.

(** The Laplacian pyramid has the levels of the Gaussian pyramid. *)
Lemma laplacian_pyramid_shapes (rest : list nat) (h w : nat) (img : ndarray F) (levels : Z) :
  (0 < h)%nat -> (0 < w)%nat -> has_shape (h :: w :: rest) img ->
  exists pyr, _laplacian_pyramid fl cv img levels = Ret pyr /\
              length pyr = depth levels /\ pyr_shapes rest h w pyr.
Proof.
  intros Hh Hw Hi. unfold _laplacian_pyramid.
  call (gaussian_pyramid_shapes rest h w img levels Hh Hw Hi) gp Hgp.
  destruct Hgp as [Hlen Hgs]. unfold depth in Hlen. unfold range.
  match goal with |- context [foldM ?body (seq 0 ?n) ?s0] =>
    destruct (foldM_seq body
                (fun i lap => length lap = i /\ pyr_shapes rest h w lap)
                n 0%nat s0) as (lap & -> & Hl1 & Hl2)
  end.
  { split; [reflexivity|]. intros k a Hk. destruct k; discriminate. }
  { intros i lap Hi' [Hll Hls].
    call (index_lookup gp i ltac:(lia)) gi Hgi.
    rewrite (shape2_of _ _ _ _ (Hgs _ _ Hgi)). cbn [bind fst snd].
    call (index_lookup gp (i + 1) ltac:(lia)) gi1 Hgi1.
    pose proof (Hgs _ _ Hgi1) as Hs1.
    replace (i + 1)%nat with (S i) in Hs1 by lia. rewrite !lvl_S in Hs1.
    call (up_ok cv cv_ok gi1 _ _ rest (lvl_pos i h Hh) (lvl_pos i w Hw) Hs1) up Hup.
    call (azip_shape (fsub fl) _ gi up (Hgs _ _ Hgi) Hup) d Hd.
    eexists; split; [reflexivity|]. split.
    - rewrite length_app. cbn. lia.
    - apply pyr_shapes_snoc; [assumption|]. now rewrite Hll. }
  cbn [bind Nat.add] in *.
  call (last_of_lookup gp ltac:(destruct gp; cbn in *; [lia|discriminate])) tp Htp.
  eexists; split; [reflexivity|]. split.
  - rewrite length_app. cbn. unfold depth. lia.
  - apply pyr_shapes_snoc; [assumption|].
    rewrite Hl1. replace (Z.to_nat (levels - 1)) with (length gp - 1)%nat by lia.
    now apply Hgs.
Qed.

Lemma pyr_shapes_insert {A : Type} (rest : list nat) (h w : nat)
    (pyr : list (ndarray A)) (k : nat) (a : ndarray A) :
  pyr_shapes rest h w pyr ->
  has_shape (lvl k h :: lvl k w :: rest) a ->
  pyr_shapes rest h w (<[k := a]> pyr).
Proof.
  intros Hp Ha j b Hj. apply list_lookup_insert_Some in Hj.
  destruct Hj as [(-> & -> & _) | [_ Hj]]; [exact Ha|now apply Hp].
Qed.

(** One image's share is added: [pyr_fusion] keeps its levels. *)
Lemma blend_levels_shapes (h w : nat) (num_levels : Z)
    (pyr_img pyr_weight pyr_fusion : list (ndarray F)) :
  (0 < h)%nat -> (0 < w)%nat ->
  length pyr_img = depth num_levels -> pyr_shapes [3%nat] h w pyr_img ->
  length pyr_weight = depth num_levels -> pyr_shapes [] h w pyr_weight ->
  length pyr_fusion = depth num_levels -> pyr_shapes [3%nat] h w pyr_fusion ->
  exists pf, blend_levels fl cv num_levels pyr_img pyr_weight pyr_fusion = Ret pf /\
             length pf = depth num_levels /\ pyr_shapes [3%nat] h w pf.
Proof.
  intros Hh Hw Hli Hsi Hlw Hsw Hlf Hsf. unfold blend_levels, range.
  match goal with |- context [foldM ?body (seq 0 ?n) ?s0] =>
    destruct (foldM_seq body
                (fun _ pf => length pf = depth num_levels /\ pyr_shapes [3%nat] h w pf)
                n 0%nat s0) as (pf & -> & Hl1 & Hl2)
  end.
  { now split. }
  { intros level pf Hlevel [Hlp Hsp]. unfold depth in *.
    call (index_lookup pyr_weight level ltac:(lia)) pw Hpw.
    call (bgr_ok cv cv_ok _ _ _ (lvl_pos level h Hh) (lvl_pos level w Hw)
            (amap_shape (to_f32 fl) _ _ (Hsw _ _ Hpw))) w_expanded Hwe.
    call (index_lookup pyr_img level ltac:(lia)) pl Hpl.
    call (azip_shape (fmul fl) _ w_expanded pl Hwe (Hsi _ _ Hpl)) term Hterm.
    call (index_lookup pf level ltac:(lia)) pfl Hpfl.
    call (azip_shape (fadd fl) _ pfl term (Hsp _ _ Hpfl) Hterm) acc Hacc.
    eexists; split; [reflexivity|]. split.
    - now rewrite length_insert.
    - now apply pyr_shapes_insert. }
  exists pf. split; [reflexivity|]. now split.
Qed.

(** Reconstruction returns an image of the size of level 0. *)
Lemma reconstruct_shape (rest : list nat) (h w : nat) (pyramid : list (ndarray F)) :
  (0 < h)%nat -> (0 < w)%nat -> pyramid <> [] -> pyr_shapes rest h w pyramid ->
  exists img, _reconstruct fl cv pyramid = Ret img /\ has_shape (h :: w :: rest) img.
Proof.
  intros Hh Hw Hne Hs. unfold _reconstruct.
  call (last_of_lookup pyramid Hne) tp Htp.
  match goal with |- context [foldM ?body (rev (seq 0 ?n)) ?s0] =>
    destruct (foldM_rev_seq body
                (fun i img => has_shape (lvl i h :: lvl i w :: rest) img)
                n s0) as (img & -> & Himg)
  end.
  { now apply Hs. }
  { intros i img Hi Himg.
    call (index_lookup pyramid i ltac:(lia)) pi Hpi.
    rewrite (shape2_of _ _ _ _ (Hs _ _ Hpi)). cbn [bind fst snd].
    rewrite !lvl_S in Himg.
    call (up_ok cv cv_ok img _ _ rest (lvl_pos i h Hh) (lvl_pos i w Hw) Himg) up Hup.
    exact (azip_shape (fadd fl) _ up pi Hup (Hs _ _ Hpi)). }
  exists img. now split.
Qed.

Lemma to_bytes_range (img : ndarray F) :
  Forall (fun px => 0 <= px <= 255) (data (to_bytes fl img)).
Proof.
  unfold to_bytes, amap. cbn [data]. apply Forall_forall.
  intros px Hin. apply list_elem_of_In, in_map_iff in Hin as (x & <- & _).
  unfold astype_u8. pose proof (Z.mod_pos_bound (ftrunc fl (fmul fl (fclip fl x (lit fl 0) (lit fl 1)) (lit fl 255))) 256).
  lia.
Qed.

(** The loop of [fuse] over the images, for any depth. *)
Lemma fuse_loop_shapes (h w : nat) (num_levels : Z)
    (images : list (ndarray Z)) (weights pyr_fusion : list (ndarray F)) :
  (0 < h)%nat -> (0 < w)%nat ->
  Forall (has_shape [h; w; 3%nat]) images ->
  length weights = length images -> Forall (has_shape [h; w]) weights ->
  length pyr_fusion = depth num_levels -> pyr_shapes [3%nat] h w pyr_fusion ->
  exists pf,
    foldM (fun pyr_fusion i =>
             img <- index images i ;;
             pyr_img <- _laplacian_pyramid fl cv (div255 fl img) num_levels ;;
             wi <- index weights i ;;
             pyr_weight <- _gaussian_pyramid cv wi num_levels ;;
             blend_levels fl cv num_levels pyr_img pyr_weight pyr_fusion)
          (seq 0 (length images)) pyr_fusion = Ret pf /\
    length pf = depth num_levels /\ pyr_shapes [3%nat] h w pf.
Proof.
  intros Hh Hw Himgs Hlw Hws Hlf Hsf.
  match goal with |- context [foldM ?body (seq 0 ?n) ?s0] =>
    destruct (foldM_seq body
                (fun _ pf => length pf = depth num_levels /\ pyr_shapes [3%nat] h w pf)
                n 0%nat s0) as (pf & -> & Hl1 & Hl2)
  end.
  { now split. }
  { intros i pf Hi [Hlp Hsp].
    call (index_lookup images i ltac:(lia)) img Himg.
    assert (has_shape [h; w; 3%nat] img) as Hshape.
    { rewrite Forall_forall in Himgs. apply Himgs.
      eapply list_elem_of_lookup_2; eassumption. }
    call (laplacian_pyramid_shapes [3%nat] h w _ num_levels Hh Hw
            (div255_shape _ _ Hshape)) pyr_img Hpi.
    call (index_lookup weights i ltac:(lia)) wi Hwi.
    assert (has_shape [h; w] wi) as Hwshape.
    { rewrite Forall_forall in Hws. apply Hws.
      eapply list_elem_of_lookup_2; eassumption. }
    call (gaussian_pyramid_shapes [] h w wi num_levels Hh Hw Hwshape) pyr_weight Hpw.
    destruct Hpi as [Hpi1 Hpi2], Hpw as [Hpw1 Hpw2].
    exact (blend_levels_shapes h w num_levels pyr_img pyr_weight pf Hh Hw
             Hpi1 Hpi2 Hpw1 Hpw2 Hlp Hsp). }
  exists pf. split; [reflexivity|]. now split.
Qed.

Lemma map_lookup_inv {A B : Type} (f : A -> B) (l : list A) (k : nat) (b : B) :
  List.map f l !! k = Some b -> exists a, l !! k = Some a /\ b = f a.
Proof.
  revert k. induction l as [|x l IH]; intros k H; [destruct k; discriminate|].
  destruct k as [|k]; cbn in *.
  - injection H as <-. now exists x.
  - now apply IH.
Qed.

Lemma zeros_pyramid_shapes (h w : nat) (gp0 : list (ndarray Z)) :
  pyr_shapes [3%nat] h w gp0 ->
  pyr_shapes [3%nat] h w (List.map (amap (fun _ : Z => lit fl 0)) gp0).
Proof.
  intros Hs k a Hk. apply map_lookup_inv in Hk as (a0 & Ha0 & ->).
  apply amap_shape. now apply Hs.
Qed.

Lemma min_dim_levels (h w : nat) :
  (0 < h)%nat -> (0 < w)%nat ->
  (m <- min_dim_of [h; w; 3%nat] ;; num_levels_of m)
  = Ret (Z.log2 (Z.of_nat (Nat.min h w)) - 2).
Proof.
  intros Hh Hw. cbn [min_dim_of bind]. unfold num_levels_of.
  destruct (Nat.min h w) eqn:E; [lia|reflexivity].
Qed.

(** C1.  For a bracket that is not empty, of frames of one height [h > 0]
    and width [w > 0] with three channels, [fuse] returns an image: it has
    height [h], width [w] and three channels, its data fill that shape,
    and every value is a byte. *)
Theorem fuse_shape (images : list (ndarray Z)) (h w : nat) :
  images <> [] -> (0 < h)%nat -> (0 < w)%nat ->
  Forall (has_shape [h; w; 3%nat]) images ->
  exists out, fuse fl cv wc ws we images = Ret (Some out) /\
              has_shape [h; w; 3%nat] out /\
              Forall (fun px => 0 <= px <= 255) (data out).
Proof.
  intros Hne Hh Hw Hall. unfold fuse.
  destruct images as [|img0 others] eqn:Eimgs; [congruence|]. rewrite <- Eimgs in *.
  assert (has_shape [h; w; 3%nat] img0) as H0.
  { rewrite Eimgs in Hall. now apply Forall_cons_1 in Hall as [H0 _]. }
  call (weight_maps_shape h w images Hh Hw Hne Hall) weights Hwts.
  destruct Hwts as [Hlw Hws].
  destruct H0 as [Hsh0 Hwf0]. rewrite Hsh0.
  pose proof (min_dim_levels h w Hh Hw) as Hlv. cbn [min_dim_of bind] in Hlv |- *.
  rewrite Hlv. cbn [bind].
  set (L := Z.log2 (Z.of_nat (Nat.min h w)) - 2).
  call (gaussian_pyramid_u8_shapes [3%nat] h w img0 L Hh Hw (conj Hsh0 Hwf0)) gp0 Hgp0.
  destruct Hgp0 as [Hl0 Hs0].
  call (fuse_loop_shapes h w L images weights _ Hh Hw Hall Hlw Hws
          (eq_trans (length_map _ _) Hl0) (zeros_pyramid_shapes h w gp0 Hs0)) pf Hpf.
  destruct Hpf as [Hlpf Hspf].
  call (reconstruct_shape [3%nat] h w pf Hh Hw
          ltac:(destruct pf; [discriminate|discriminate]) Hspf) out Hout.
  exists (to_bytes fl out). split; [reflexivity|]. split.
  - now apply amap_shape.
  - apply to_bytes_range.
Qed.

(** The depth that [fuse] computes for a frame whose smaller side is
    below 8 is 0 or less. *)
Lemma small_levels (h w : nat) :
  (0 < Nat.min h w < 8)%nat -> Z.log2 (Z.of_nat (Nat.min h w)) - 2 <= 0.
Proof.
  intros Hm.
  assert (Z.log2 (Z.of_nat (Nat.min h w)) < 3); [|lia].
  apply Z.log2_lt_pow2; [lia|]. change (2 ^ 3) with 8. lia.
Qed.

(** C5, on frames whose smaller side is below 8.  The depth computed is
    0 or less, the loop over the levels does not run, and [fuse] returns
    the bytes of an all-zero image whatever the frames hold. *)
Theorem fuse_small_is_blank (images : list (ndarray Z)) (img0 : ndarray Z) (h w : nat) :
  head images = Some img0 -> (0 < Nat.min h w < 8)%nat ->
  Forall (has_shape [h; w; 3%nat]) images ->
  fuse fl cv wc ws we images
  = Ret (Some (to_bytes fl (amap (fun _ : Z => lit fl 0) img0))).
Proof.
  intros Hhd Hm Hall. unfold fuse.
  assert (0 < h)%nat as Hh by lia. assert (0 < w)%nat as Hw by lia.
  destruct images as [|i0 others] eqn:Eimgs; [discriminate|]. rewrite <- Eimgs in *.
  assert (i0 = img0) as -> by (rewrite Eimgs in Hhd; now injection Hhd).
  assert (images <> []) as Hne by (rewrite Eimgs; discriminate).
  assert (has_shape [h; w; 3%nat] img0) as H0.
  { rewrite Eimgs in Hall. now apply Forall_cons_1 in Hall as [H0 _]. }
  call (weight_maps_shape h w images Hh Hw Hne Hall) weights Hwts.
  destruct Hwts as [Hlw Hws].
  destruct H0 as [Hsh0 Hwf0]. rewrite Hsh0.
  pose proof (min_dim_levels h w Hh Hw) as Hlv. cbn [min_dim_of bind] in Hlv |- *.
  rewrite Hlv. cbn [bind].
  pose proof (small_levels h w Hm) as HL.
  set (L := Z.log2 (Z.of_nat (Nat.min h w)) - 2) in *.
  unfold _gaussian_pyramid_u8.
  replace (Z.to_nat (L - 1)) with 0%nat by lia. cbn [pyramid_loop bind List.map].
  match goal with |- context [foldM ?body (seq 0 ?n) ?s0] =>
    destruct (foldM_seq body (fun _ pf => pf = s0) n 0%nat s0) as (pf & -> & ->)
  end.
  { reflexivity. }
  { intros i pf Hi ->.
    call (index_lookup images i ltac:(lia)) img Himg.
    assert (has_shape [h; w; 3%nat] img) as Hshape.
    { rewrite Forall_forall in Hall. apply Hall.
      eapply list_elem_of_lookup_2; eassumption. }
    call (laplacian_pyramid_shapes [3%nat] h w _ L Hh Hw
            (div255_shape _ _ Hshape)) pyr_img Hpi.
    call (index_lookup weights i ltac:(lia)) wi Hwi.
    assert (has_shape [h; w] wi) as Hwshape.
    { rewrite Forall_forall in Hws. apply Hws.
      eapply list_elem_of_lookup_2; eassumption. }
    call (gaussian_pyramid_shapes [] h w wi L Hh Hw Hwshape) pyr_weight Hpw.
    unfold blend_levels, range. replace (Z.to_nat L) with 0%nat by lia.
    eexists; split; reflexivity. }
  reflexivity.
Qed.

End Shapes.

Section Mixed.
Context {F : Type}.
Variable fl : float_api F.
Variable cv : cv2_api F.
Variables wc ws we : F.
Hypothesis cv_ok : cv2_ok cv.

Lemma weight_of_frame (img : ndarray Z) :
  frame_ok img ->
  exists W, weight_of fl cv wc ws we img = Ret W /\ shape W = take 2 (shape img).
Proof.
  intros (h & w & Hh & Hw & Hs).
  destruct (weight_of_shape fl cv wc ws we cv_ok h w img Hh Hw Hs) as (W & HW & HsW & _).
  exists W. split; [assumption|]. destruct Hs as [-> _]. exact HsW.
Qed.

Lemma frame_shapes_differ (a b : ndarray Z) :
  frame_ok a -> frame_ok b -> shape a <> shape b ->
  take 2 (shape a) <> take 2 (shape b).
Proof.
  intros (h & w & _ & _ & -> & _) (h' & w' & _ & _ & -> & _) Hne.
  cbn. congruence.
Qed.

(** C6, as amended.  For a bracket of frames of which one differs in
    shape from the first, [fuse] neither returns the absent result nor an
    image: the weight maps do not stack in [np.sum] and [ValueError]
    leaves [fuse]. *)
Theorem fuse_mixed_raises (img0 : ndarray Z) (others : list (ndarray Z)) :
  Forall frame_ok (img0 :: others) ->
  Exists (fun b => shape b <> shape img0) others ->
  fuse fl cv wc ws we (img0 :: others) = Raise ValueError.
Proof.
  intros Hall Hex. unfold fuse, _generate_weight_maps.
  destruct (mapM_Forall2 (weight_of fl cv wc ws we) frame_ok
              (fun a W => shape W = take 2 (shape a))
              weight_of_frame (img0 :: others) Hall) as (raw & -> & Hraw).
  cbn [bind].
  apply Forall2_cons_inv_l in Hraw as (W0 & rest & HW0 & Hrest & ->).
  cbn [np_sum_axis0].
  assert (forallb (fun w => bool_decide (shape w = shape W0)) rest = false) as ->;
    [|reflexivity].
  apply Forall_cons_1 in Hall as [Hf0 Hfo].
  clear -Hex Hrest HW0 Hf0 Hfo.
  induction Hrest as [|b W others rest HbW Hrest IH]; [inversion Hex|].
  apply Forall_cons_1 in Hfo as [Hfb Hfo].
  cbn [forallb]. apply Exists_cons in Hex as [Hb | Hex].
  - rewrite bool_decide_eq_false_2; [reflexivity|].
    rewrite HbW, HW0. now apply frame_shapes_differ.
  - rewrite (IH Hfo Hex). apply andb_false_r.
Qed.

End Mixed.

(** C2, on the depth.  [fuse] takes [floor(log2(m)) - 2] for the smaller
    side [m] of the first frame and does not raise it to 1: it is below 1
    for every [m] below 8 (0 for a frame of 4 by 4).  The pyramid built
    for such a depth has one level, and the loop over the levels of
    [fuse], which runs [range(num_levels)], has none. *)
Theorem depth_not_clamped :
  (forall m : nat, (0 < m)%nat ->
     num_levels_of m = Ret (Z.log2 (Z.of_nat m) - 2)) /\
  (forall m : nat, (0 < m < 8)%nat ->
     exists L, num_levels_of m = Ret L /\ L < 1 /\
               depth L = 1%nat /\ range L = []) /\
  num_levels_of 4 = Ret 0.
Proof.
  split; [|split; [|reflexivity]].
  - intros m Hm. unfold num_levels_of. destruct m; [lia|reflexivity].
  - intros m Hm. exists (Z.log2 (Z.of_nat m) - 2).
    assert (Z.log2 (Z.of_nat m) < 3) as Hl.
    { apply Z.log2_lt_pow2; [lia|]. change (2 ^ 3) with 8. lia. }
    split; [unfold num_levels_of; destruct m; [lia|reflexivity]|].
    split; [lia|]. unfold depth, range.
    split; [|replace (Z.to_nat (Z.log2 (Z.of_nat m) - 2)) with 0%nat by lia; reflexivity].
    replace (Z.to_nat (Z.log2 (Z.of_nat m) - 2 - 1)) with 0%nat by lia. reflexivity.
Qed.

(** *** The reference interfaces keep the promises of OpenCV *)

Import Reference.

Lemma gather_shape {A : Type} (sh : list nat) (f : nat -> A) :
  has_shape sh (gather sh f).
Proof.
  split; [reflexivity|]. unfold wf, gather. cbn [shape data].
  now rewrite length_map, length_seq.
Qed.

Lemma positive_dims (h w : nat) :
  (0 < h)%nat -> (0 < w)%nat -> ((0 <? h) && (0 <? w))%nat = true.
Proof.
  intros Hh Hw. apply andb_true_intro. split; now apply Nat.ltb_lt.
Qed.

Lemma nn_down_ok {A : Type} (d : A) (a : ndarray A) (h w : nat) (rest : list nat) :
  (0 < h)%nat -> (0 < w)%nat -> has_shape (h :: w :: rest) a ->
  exists g, nn_down d a = Ret g /\ has_shape (half h :: half w :: rest) g.
Proof.
  intros Hh Hw [Hs _]. unfold nn_down. rewrite Hs, positive_dims by assumption.
  eexists; split; [reflexivity|apply gather_shape].
Qed.

Lemma nn_up_ok {A : Type} (d : A) (a : ndarray A) (h w : nat) (rest : list nat) :
  (0 < h)%nat -> (0 < w)%nat -> has_shape (half h :: half w :: rest) a ->
  exists g, nn_up d a (w, h) = Ret g /\ has_shape (h :: w :: rest) g.
Proof.
  intros Hh Hw [Hs _]. unfold nn_up. rewrite Hs, !Nat.eqb_refl.
  cbn [andb]. rewrite positive_dims by assumption.
  eexists; split; [reflexivity|apply gather_shape].
Qed.

Lemma nn_ok : cv2_ok nn.
Proof.
  constructor; cbn [nn cvtColor_BGR2GRAY cvtColor_GRAY2BGR Laplacian
                       pyrDown_u8 pyrDown pyrUp].
  - intros a h w Hh Hw [Hs _]. unfold nn_gray. rewrite Hs, positive_dims by assumption.
    eexists; split; [reflexivity|apply gather_shape].
  - intros a h w Hh Hw [Hs _]. unfold nn_bgr. rewrite Hs, positive_dims by assumption.
    eexists; split; [reflexivity|apply gather_shape].
  - intros a h w Hh Hw [Hs _]. unfold nn_laplacian. rewrite Hs, positive_dims by assumption.
    eexists; split; [reflexivity|apply gather_shape].
  - intros a h w rest. apply nn_down_ok.
  - intros a h w rest. apply nn_down_ok.
  - intros a h w rest. apply nn_up_ok.
Qed.

Lemma flat_shape (h w : nat) (v : Z) : has_shape [h; w; 3%nat] (flat h w v).
Proof.
  split; [reflexivity|]. unfold wf, flat. cbn [shape data size_of fold_right].
  rewrite repeat_length. lia.
Qed.

Lemma fuse_shape_witness :
  exists out, fuse_ref [flat 16 8 200; flat 16 8 50] = Ret (Some out) /\
              has_shape [16; 8; 3]%nat out /\
              Forall (fun px => 0 <= px <= 255) (data out).
Proof.
  apply (fuse_shape exact nn 1%Q 1%Q 1%Q nn_ok [flat 16 8 200; flat 16 8 50] 16 8).
  - discriminate.
  - lia.
  - lia.
  - repeat constructor; apply flat_shape.
Defined.

Lemma fuse_small_is_blank_witness :
  fuse_ref [flat 4 4 255] = Ret (Some (flat 4 4 0)).
Proof.
  apply (fuse_small_is_blank exact nn 1%Q 1%Q 1%Q nn_ok [flat 4 4 255] (flat 4 4 255) 4 4).
  - reflexivity.
  - cbn. lia.
  - repeat constructor; apply flat_shape.
Defined.

Lemma fuse_mixed_raises_witness :
  fuse_ref [flat 8 8 200; flat 16 8 50] = Raise ValueError.
Proof.
  apply (fuse_mixed_raises exact nn 1%Q 1%Q 1%Q nn_ok (flat 8 8 200) [flat 16 8 50]).
  - repeat constructor.
    + exists 8%nat, 8%nat. split; [lia|]. split; [lia|apply flat_shape].
    + exists 16%nat, 8%nat. split; [lia|]. split; [lia|apply flat_shape].
  - constructor. discriminate.
Defined.

(** Two flat frames of 200 and 50 have equal weights and fuse to their
    mean. *)
Example two_flat_frames :
  fuse_ref [flat 16 8 200; flat 16 8 50] = Ret (Some (flat 16 8 125)).
Proof. vm_compute. reflexivity. Qed.

(** A single frame whose sides are at least 8 comes back as it is. *)
Example single_frame :
  fuse_ref [flat 8 8 255] = Ret (Some (flat 8 8 255)).
Proof. vm_compute. reflexivity. Qed.

(** C6 as it was stated fails: a bracket of an 8 by 8 frame and a 16 by 8
    frame does not give the absent result, an exception leaves [fuse]. *)
Lemma mixed_bracket_not_absent :
  shape (flat 8 8 200) <> shape (flat 16 8 50) /\
  fuse_ref [flat 8 8 200; flat 16 8 50] = Raise ValueError /\
  fuse_ref [flat 8 8 200; flat 16 8 50] <> Ret None.
Proof.
  split; [discriminate|].
  assert (fuse_ref [flat 8 8 200; flat 16 8 50] = Raise ValueError) as H
    by (vm_compute; reflexivity).
  split; [exact H|]. rewrite H. discriminate.
Qed.

(** *** Rounding in the normalization of the weights *)

Local Open Scope Q_scope.

Lemma nq_S (n : nat) : nq (S n) == nq n + 1.
Proof. unfold nq. rewrite Nat2Z.inj_succ, <- Z.add_1_r, inject_Z_plus. reflexivity. Qed.

Lemma nq_nonneg (n : nat) : 0 <= nq n.
Proof. unfold nq. change 0 with (inject_Z 0). rewrite <- Zle_Qle. lia. Qed.

Lemma model_pos (u x fx : Q) :
  0 <= x -> Qabs (fx - x) <= u * Qabs x -> (1 - u) * x <= fx /\ fx <= (1 + u) * x.
Proof.
  intros Hx H. rewrite (Qabs_pos x Hx) in H.
  apply Qabs_Qle_condition in H as [H1 H2]. split; lra.
Qed.

Lemma step_lower (u k T a x fa : Q) :
  0 <= u -> 0 <= k -> (k + 1) * u <= 1 -> 0 < T -> 0 < x ->
  (1 - k * u) * T <= a ->
  (1 - u) * (a + x) <= fa ->
  (1 - (k + 1) * u) * (T + x) <= fa.
Proof.
  intros Hu Hk Hku HT Hx Ha Hfa.
  assert (0 <= (1 - u) * (a - (1 - k * u) * T)) as H1
    by (apply Qmult_le_0_compat; nra).
  assert (0 <= k * u * (u * T)) as H2 by (repeat apply Qmult_le_0_compat; lra).
  assert (0 <= k * u * x) as H3 by (repeat apply Qmult_le_0_compat; lra).
  lra.
Qed.

Lemma step_upper (u k T a x fa : Q) :
  0 <= u -> 0 <= k -> (k + 1) * u <= 1 -> 0 < T -> 0 < x -> 0 <= a ->
  (1 - k * u) * a <= T ->
  fa <= (1 + u) * (a + x) ->
  (1 - (k + 1) * u) * fa <= T + x.
Proof.
  intros Hu Hk Hku HT Hx Ha0 Ha Hfa.
  assert (0 <= (1 - (k + 1) * u) * ((1 + u) * (a + x) - fa)) as H1
    by (apply Qmult_le_0_compat; lra).
  assert (0 <= (k + 1) * u * (u * (a + x))) as H2 by (repeat apply Qmult_le_0_compat; lra).
  assert (0 <= k * u * x) as H3 by (repeat apply Qmult_le_0_compat; lra).
  lra.
Qed.

Lemma qsum_nonneg (l : list Q) : Forall (fun x => 0 <= x) l -> 0 <= qsum l.
Proof.
  induction 1 as [|x l Hx _ IH]; cbn [qsum fold_right]; [lra|].
  fold (qsum l). lra.
Qed.

Lemma qsum_le_count (l : list Q) (c : Q) :
  Forall (fun x => x <= c) l -> qsum l <= nq (length l) * c.
Proof.
  induction 1 as [|x l Hx _ IH]; cbn [qsum fold_right length].
  - change (nq 0) with 0. lra.
  - fold (qsum l). rewrite nq_S. lra.
Qed.

Lemma elem_le_qsum (l : list Q) (x : Q) :
  Forall (fun y => 0 <= y) l -> In x l -> x <= qsum l.
Proof.
  induction 1 as [|y l Hy Hl IH]; intros Hin; [destruct Hin|].
  cbn [qsum fold_right]. fold (qsum l). pose proof (qsum_nonneg l Hl).
  destruct Hin as [->|Hin]; [lra|]. specialize (IH Hin). lra.
Qed.

Section Rounding.
Context {F : Type}.
Variable fl : float_api F.
Variable fin : F -> Prop.
Variable val : F -> Q.
Variables u tiny huge : Q.
Hypothesis model : float_model fl fin val u tiny huge.

(** The sum of two finite floats that are not negative, when the exact
    sum does not pass [huge]. *)
Lemma add_nonneg (a b : F) :
  fin a -> fin b -> 0 <= val a -> 0 <= val b -> val a + val b <= huge ->
  fin (fadd fl a b) /\
  (1 - u) * (val a + val b) <= val (fadd fl a b) /\
  val (fadd fl a b) <= (1 + u) * (val a + val b).
Proof.
  intros Fa Fb Ha Hb Hr.
  assert (0 <= val a + val b) as Hs by lra.
  destruct (add_model fl fin val u tiny huge model a b Fa Fb) as [Ff He].
  { now rewrite Qabs_pos. }
  split; [exact Ff|]. exact (model_pos u _ _ Hs He).
Qed.

(** The quotient of two finite positive floats, when the exact quotient
    lies between [tiny] and [huge]. *)
Lemma div_pos (a b : F) :
  fin a -> fin b -> 0 < val a -> 0 < val b ->
  tiny <= val a / val b -> val a / val b <= huge ->
  fin (fdiv fl a b) /\
  (1 - u) * (val a / val b) <= val (fdiv fl a b) /\
  val (fdiv fl a b) <= (1 + u) * (val a / val b) /\
  0 < val (fdiv fl a b).
Proof.
  destruct (u_range fl fin val u tiny huge model) as [Hu0 Hu1].
  intros Fa Fb Ha Hb Hlo Hhi.
  assert (0 < val a / val b) as Hq by (apply Qlt_shift_div_l; lra).
  destruct (div_model fl fin val u tiny huge model a b Fa Fb Hb Hlo Hhi) as [Ff He].
  destruct (model_pos u _ _ (Qlt_le_weak _ _ Hq) He) as [HL HU].
  split; [exact Ff|]. split; [exact HL|]. split; [exact HU|].
  assert (0 < (1 - u) * (val a / val b)) by (apply Qmult_lt_0_compat; lra). lra.
Qed.

(** The floats added in order: after [k] additions the result is finite
    and within a factor [1 - k u] of the exact sum [T], from either side,
    as long as twice the exact sum does not pass [huge]. *)
Lemma float_sum_bounds (rest : list F) :
  forall (acc : F) (k T : Q),
  0 <= k -> (k + nq (length rest)) * u <= 1 # 2 -> 0 < T ->
  fin acc -> 0 <= val acc ->
  (1 - k * u) * T <= val acc -> (1 - k * u) * val acc <= T ->
  Forall (fun x => fin x /\ 0 < val x) rest ->
  2 * (T + qsum (List.map val rest)) <= huge ->
  let S := fold_left (fadd fl) rest acc in
  let T' := T + qsum (List.map val rest) in
  let k' := k + nq (length rest) in
  fin S /\ 0 < T' /\ 0 <= val S /\
  (1 - k' * u) * T' <= val S /\ (1 - k' * u) * val S <= T'.
Proof.
  destruct (u_range fl fin val u tiny huge model) as [Hu0 Hu1].
  induction rest as [|x rest IH];
    intros acc k T Hk Hku HT Fa Ha0 HaL HaU Hpos Hcap; cbv zeta.
  - cbn [fold_left List.map qsum fold_right length]. change (nq 0%nat) with 0.
    repeat split; try assumption; lra.
  - apply Forall_cons_1 in Hpos as [[Fx Hx] Hrest].
    cbn [length] in Hku. rewrite nq_S in Hku.
    cbn [List.map qsum fold_right] in Hcap. fold (qsum (List.map val rest)) in Hcap.
    pose proof (nq_nonneg (length rest)) as Hn.
    assert (0 <= qsum (List.map val rest)) as Hq0.
    { apply qsum_nonneg, Forall_map. eapply Forall_impl; [exact Hrest|].
      cbv beta. intros y [_ Hy]. lra. }
    assert (0 <= nq (length rest) * u) as Hnu by (apply Qmult_le_0_compat; lra).
    assert (0 <= k * u) as Hku0 by (apply Qmult_le_0_compat; lra).
    assert ((k + 1) * u <= 1) as Hk1 by lra.
    assert (val acc <= 2 * T) as Hacc.
    { assert (0 <= ((1 # 2) - k * u) * val acc) by (apply Qmult_le_0_compat; lra). lra. }
    destruct (add_nonneg acc x Fa Fx Ha0 ltac:(lra) ltac:(lra)) as (Ff & HfL & HfU).
    pose proof (step_lower u k T (val acc) (val x) _ Hu0 Hk Hk1 HT Hx HaL HfL) as HL.
    pose proof (step_upper u k T (val acc) (val x) _ Hu0 Hk Hk1 HT Hx Ha0 HaU HfU) as HU.
    assert (0 <= val (fadd fl acc x)) as Hf0.
    { assert (0 <= (1 - u) * (val acc + val x)) by (apply Qmult_le_0_compat; lra). lra. }
    destruct (IH (fadd fl acc x) (k + 1) (T + val x) ltac:(lra) ltac:(lra) ltac:(lra)
                Ff Hf0 HL HU Hrest ltac:(lra)) as (H0 & H1 & H2 & H3 & H4).
    cbn [fold_left List.map qsum fold_right length]. rewrite nq_S.
    fold (qsum (List.map val rest)).
    split; [exact H0|]. repeat split; lra.
Qed.

(** The quotients by the float sum [S], added exactly and multiplied by
    [S], are within a factor [1 -+ u] of the exact sum; each of them is
    finite and positive. *)
Lemma float_quotients_bounds (S : F) (xs : list F) :
  fin S -> 0 < val S ->
  Forall (fun x => fin x /\ 0 < val x /\
                   tiny <= val x / val S /\ val x / val S <= huge) xs ->
  let D := qsum (List.map (fun x => val (fdiv fl x S)) xs) in
  let T := qsum (List.map val xs) in
  (1 - u) * T <= D * val S /\ D * val S <= (1 + u) * T /\
  Forall (fun x => fin (fdiv fl x S) /\ 0 < val (fdiv fl x S)) xs.
Proof.
  destruct (u_range fl fin val u tiny huge model) as [Hu0 Hu1].
  intros FS HS Hpos. induction Hpos as [|x xs (Fx & Hx & Hlo & Hhi) _ IH]; cbv zeta in *.
  - cbn. split; [lra|]. split; [lra|constructor].
  - cbn [List.map qsum fold_right].
    fold (qsum (List.map (fun x => val (fdiv fl x S)) xs)).
    fold (qsum (List.map val xs)).
    destruct (div_pos x S Fx FS Hx HS Hlo Hhi) as (Ff & HL & HU & Hp).
    assert (val x / val S * val S == val x) as Hxs by (field; lra).
    assert (0 <= (val (fdiv fl x S) - (1 - u) * (val x / val S)) * val S) as H1
      by (apply Qmult_le_0_compat; lra).
    assert (0 <= ((1 + u) * (val x / val S) - val (fdiv fl x S)) * val S) as H2
      by (apply Qmult_le_0_compat; lra).
    destruct IH as (IH1 & IH2 & IH3).
    split; [nra|]. split; [nra|]. constructor; [now split|exact IH3].
Qed.

(** The values of one position, each finite and between [wmin > 0] and
    [wmax]: their float sum [S] is finite, positive and within a factor
    [1 - m u] of the exact sum, and every quotient by [S] is in the range
    where the division rounds with a relative error. *)
Lemma column_sum (x0 : F) (rest : list F) (wmin wmax : Q) :
  0 < wmin ->
  Forall (fun x => fin x /\ wmin <= val x /\ val x <= wmax) (x0 :: rest) ->
  nq (length (x0 :: rest)) * u <= 1 # 2 ->
  2 * (nq (length (x0 :: rest)) * wmax) <= huge ->
  tiny * (2 * (nq (length (x0 :: rest)) * wmax)) <= wmin ->
  let S := fold_left (fadd fl) rest x0 in
  let T := qsum (List.map val (x0 :: rest)) in
  let m := nq (length rest) in
  fin S /\ 0 < val S /\ 0 < T /\
  (1 - m * u) * T <= val S /\ (1 - m * u) * val S <= T /\
  Forall (fun x => fin x /\ 0 < val x /\
                   tiny <= val x / val S /\ val x / val S <= huge) (x0 :: rest).
Proof.
  destruct (u_range fl fin val u tiny huge model) as [Hu0 Hu1].
  destruct (tiny_huge fl fin val u tiny huge model) as (Ht0 & Ht1 & Hh2).
  intros Hwmin Hall HN Hcap Htiny. cbv zeta.
  pose proof Hall as Hall'. apply Forall_cons_1 in Hall' as [(F0 & H0lo & H0hi) Hrest].
  cbn [length] in HN, Hcap, Htiny. rewrite nq_S in HN, Hcap, Htiny.
  set (m := nq (length rest)) in *.
  assert (0 <= m) as Hm by apply nq_nonneg.
  assert (0 <= m * u) as Hmu by (apply Qmult_le_0_compat; lra).
  assert (Forall (fun x => fin x /\ 0 < val x) rest) as Hpos.
  { eapply Forall_impl; [exact Hrest|]. cbv beta. intros y (Fy & Hy & _). split; [exact Fy|lra]. }
  assert (qsum (List.map val rest) <= m * wmax) as Hsum.
  { unfold m. rewrite <- (length_map val rest). apply qsum_le_count, Forall_map.
    eapply Forall_impl; [exact Hrest|]. cbv beta. now intros y (_ & _ & Hy). }
  assert (0 <= qsum (List.map val rest)) as Hq0.
  { apply qsum_nonneg, Forall_map. eapply Forall_impl; [exact Hpos|].
    cbv beta. intros y [_ Hy]. lra. }
  destruct (float_sum_bounds rest x0 0 (val x0) ltac:(lra) ltac:(fold m; lra) ltac:(lra)
              F0 ltac:(lra) ltac:(lra) ltac:(lra) Hpos ltac:(lra))
    as (FS & HT & HS0 & HSL & HSU).
  cbv zeta in HT, HS0, HSL, HSU. fold m in HSL, HSU.
  cbn [List.map qsum fold_right]. fold (qsum (List.map val rest)).
  set (S := fold_left (fadd fl) rest x0) in *.
  set (T := val x0 + qsum (List.map val rest)) in *.
  assert (0 < val S) as HS.
  { assert (0 < (1 - (0 + m) * u) * T) by (apply Qmult_lt_0_compat; lra). lra. }
  assert (T <= (m + 1) * wmax) as HTcap by (unfold T; lra).
  assert (val S <= 2 * T) as HS2.
  { assert (0 <= ((1 # 2) - (0 + m) * u) * val S) by (apply Qmult_le_0_compat; lra). lra. }
  assert (T <= 2 * val S) as HT2.
  { assert (0 <= ((1 # 2) - (0 + m) * u) * T) by (apply Qmult_le_0_compat; lra). lra. }
  split; [exact FS|]. split; [exact HS|]. split; [exact HT|].
  split; [lra|]. split; [lra|].
  apply Forall_forall. intros x Hin.
  destruct (proj1 (Forall_forall _ _) Hall x Hin) as (Fx & Hxlo & Hxhi).
  split; [exact Fx|]. split; [lra|]. split.
  - apply Qle_shift_div_l; [exact HS|].
    assert (0 <= tiny * (2 * T - val S)) by (apply Qmult_le_0_compat; lra).
    assert (0 <= tiny * (2 * ((m + 1) * wmax - T))) by (apply Qmult_le_0_compat; lra).
    lra.
  - apply Qle_shift_div_r; [exact HS|].
    assert (val x <= T) as HxT.
    { unfold T. change (val x0 + qsum (List.map val rest))
        with (qsum (List.map val (x0 :: rest))).
      apply elem_le_qsum.
      - apply Forall_map. eapply Forall_impl; [exact Hall|].
        cbv beta. intros y (_ & Hy & _). lra.
      - apply in_map. now apply list_elem_of_In. }
    assert (0 <= (huge - 2) * val S) by (apply Qmult_le_0_compat; lra).
    lra.
Qed.

(** The normalized values of one position add up to 1 within [1e-6],
    for a bracket of [N] frames with [N u <= 2.5e-7]. *)
Lemma normalized_values_sum (x0 : F) (rest : list F) (wmin wmax : Q) :
  0 < wmin ->
  Forall (fun x => fin x /\ wmin <= val x /\ val x <= wmax) (x0 :: rest) ->
  nq (length (x0 :: rest)) * u <= 1 # 4000000 ->
  2 * (nq (length (x0 :: rest)) * wmax) <= huge ->
  tiny * (2 * (nq (length (x0 :: rest)) * wmax)) <= wmin ->
  let S := fold_left (fadd fl) rest x0 in
  Qabs (qsum (List.map (fun x => val (fdiv fl x S)) (x0 :: rest)) - 1) <= 1 # 1000000.
Proof.
  destruct (u_range fl fin val u tiny huge model) as [Hu0 Hu1].
  intros Hwmin Hall HN Hcap Htiny.
  destruct (column_sum x0 rest wmin wmax Hwmin Hall ltac:(lra) Hcap Htiny)
    as (FS & HS & HT & HSL & HSU & Hq).
  cbv zeta in FS, HS, HT, HSL, HSU, Hq. cbv zeta.
  cbn [length] in HN. rewrite nq_S in HN.
  set (m := nq (length rest)) in *.
  assert (0 <= m) as Hm by apply nq_nonneg.
  assert (0 <= m * u) as Hmu by (apply Qmult_le_0_compat; lra).
  set (S := fold_left (fadd fl) rest x0) in *.
  set (T := qsum (List.map val (x0 :: rest))) in *.
  destruct (float_quotients_bounds S (x0 :: rest) FS HS Hq) as (HDL & HDU & _).
  cbv zeta in HDL, HDU. fold T in HDL, HDU.
  set (D := qsum (List.map (fun x => val (fdiv fl x S)) (x0 :: rest))) in *.
  apply Qabs_Qle_condition. split.
  - apply (Qmult_lt_0_le_reg_r _ _ (val S) HS).
    assert (0 <= (1 - u) * (T - (1 - m * u) * val S)) as H1
      by (apply Qmult_le_0_compat; lra).
    assert (0 <= m * u * (u * val S)) as H2 by (repeat apply Qmult_le_0_compat; lra).
    assert (0 <= ((1 # 1000000) - (m + 1) * u) * val S) as H3
      by (apply Qmult_le_0_compat; lra).
    lra.
  - assert ((1 - m * u) * D <= 1 + u) as HD.
    { apply (Qmult_lt_0_le_reg_r _ _ (val S) HS).
      assert (0 <= (1 - m * u) * ((1 + u) * T - D * val S)) as H1
        by (apply Qmult_le_0_compat; lra).
      assert (0 <= (1 + u) * (val S - (1 - m * u) * T)) as H2
        by (apply Qmult_le_0_compat; lra).
      lra. }
    assert (0 < 1 - m * u) as Hpos1 by lra.
    apply (Qmult_lt_0_le_reg_r _ _ (1 - m * u) Hpos1).
    lra.
Qed.

End Rounding.

Local Close Scope Q_scope.

Lemma nth_zip_with {A B C : Type} (f : A -> B -> C) (p : nat) (dA : A) (dB : B) (dC : C) :
  forall (l : list A) (k : list B),
  (p < length l)%nat -> (p < length k)%nat ->
  nth p (zip_with f l k) dC = f (nth p l dA) (nth p k dB).
Proof.
  induction p as [|p IH]; intros [|x l] [|y k] Hl Hk; cbn in *; try lia; [reflexivity|].
  apply IH; lia.
Qed.

Lemma Forall_zip_with {A B C : Type} (f : A -> B -> C)
    (P : A -> Prop) (Q : B -> Prop) (R : C -> Prop) :
  (forall x y, P x -> Q y -> R (f x y)) ->
  forall (l : list A) (k : list B), Forall P l -> Forall Q k -> Forall R (zip_with f l k).
Proof.
  intros Hf l. induction l as [|x l IH]; intros [|y k] Hl Hk; cbn; try constructor.
  - apply Hf; [now apply Forall_cons_1 in Hl as [? _]|now apply Forall_cons_1 in Hk as [? _]].
  - apply IH; [now apply Forall_cons_1 in Hl as [_ ?]|now apply Forall_cons_1 in Hk as [_ ?]].
Qed.

Lemma Forall_chunks {A : Type} (P : A -> Prop) (c n : nat) :
  forall l : list A, Forall P l -> Forall (Forall P) (chunks c n l).
Proof.
  induction n as [|n IH]; intros l Hl; cbn [chunks]; constructor.
  - now apply Forall_take.
  - apply IH. now apply Forall_drop.
Qed.

Lemma azip_spec {A B C : Type} (f : A -> B -> C) (sh : list nat)
    (a : ndarray A) (b : ndarray B) :
  has_shape sh a -> has_shape sh b ->
  azip f a b = Ret (mk_array (shape a) (zip_with f (data a) (data b))).
Proof.
  intros [Ha _] [Hb _]. unfold azip. now rewrite bool_decide_eq_true_2 by congruence.
Qed.

Lemma zip_shape {A B C : Type} (f : A -> B -> C) (sh : list nat)
    (a : ndarray A) (b : ndarray B) :
  has_shape sh a -> has_shape sh b ->
  has_shape sh (mk_array (shape a) (zip_with f (data a) (data b))).
Proof.
  intros Ha Hb. destruct (azip_shape f sh a b Ha Hb) as (c & Hc & Hsc).
  rewrite (azip_spec f sh a b Ha Hb) in Hc. now injection Hc as <-.
Qed.

Lemma mapM_azip {A B C : Type} (f : A -> B -> C) (sh : list nat)
    (b : ndarray B) (l : list (ndarray A)) :
  has_shape sh b -> Forall (has_shape sh) l ->
  mapM (fun a => azip f a b) l
  = Ret (List.map (fun a => mk_array (shape a) (zip_with f (data a) (data b))) l).
Proof.
  intros Hb Hl. induction Hl as [|a l Ha _ IH]; [reflexivity|].
  cbn [mapM List.map]. rewrite (azip_spec f sh a b Ha Hb). cbn [bind].
  rewrite IH. reflexivity.
Qed.

Section WeightSum.
Context {F : Type}.
Variable fl : float_api F.
Variable cv : cv2_api F.
Variables wc ws we : F.
Variable fin : F -> Prop.
Variable val : F -> Q.
Variables u tiny huge : Q.
Hypothesis cv_ok : cv2_ok cv.
Hypothesis model : float_model fl fin val u tiny huge.

(** [weight_of] is the measure term with [epsilon] added. *)
Lemma weight_of_measure (img : ndarray Z) :
  weight_of fl cv wc ws we img
  = (cse <- measure_term fl cv wc ws we img ;;
     Ret (amap (fun x => fadd fl x (lit fl (1 # 1000000000000))) cse)).
Proof.
  unfold weight_of, measure_term.
  repeat match goal with
         | |- bind ?m _ = bind (bind ?m _) _ => destruct m; cbn [bind]; [|reflexivity]
         end.
  reflexivity.
Qed.

(** The weight of a frame before normalization, where the measure term is
    finite, not negative and at most [M]: [epsilon] keeps it above
    [epsilon / 4], and it is at most [2 (M + 1)]. *)
Lemma weight_of_range (h w : nat) (img : ndarray Z) (M : Q) :
  (0 < h)%nat -> (0 < w)%nat -> has_shape [h; w; 3%nat] img ->
  measures_within fl cv wc ws we fin val M img ->
  (0 <= M)%Q -> (u <= 1 # 2)%Q -> (M + 1 <= huge)%Q -> (tiny <= 1 # 1000000000000)%Q ->
  exists W, weight_of fl cv wc ws we img = Ret W /\ has_shape [h; w] W /\
            Forall (fun x => fin x /\ ((1 # 4000000000000) <= val x)%Q /\
                             (val x <= 2 * (M + 1))%Q) (data W).
Proof.
  destruct (u_range fl fin val u tiny huge model) as [Hu0 Hu1].
  destruct (tiny_huge fl fin val u tiny huge model) as (Ht0 & Ht1 & Hh2).
  intros Hh Hw Hi Hmeasure HM Hu Hcap Htiny.
  destruct (weight_of_shape fl cv wc ws we cv_ok h w img Hh Hw Hi) as (W & EW & HW).
  exists W. split; [exact EW|]. split; [exact HW|].
  rewrite weight_of_measure in EW.
  destruct (measure_term fl cv wc ws we img) as [cse|] eqn:Ecse; [|discriminate].
  cbn [bind] in EW. injection EW as <-.
  specialize (Hmeasure cse Ecse). cbn [amap data]. apply Forall_map.
  eapply Forall_impl; [exact Hmeasure|]. cbv beta. intros x (Fx & Hx0 & HxM).
  destruct (lit_model fl fin val u tiny huge model (1 # 1000000000000) Htiny ltac:(lra))
    as [Fe He].
  assert (0 <= 1 # 1000000000000)%Q as Hq0 by lra.
  destruct (model_pos u _ _ Hq0 He) as [HeL HeU].
  remember (val (lit fl (1 # 1000000000000))) as eps eqn:Eeps.
  assert (0 <= eps)%Q as He0 by lra.
  assert (val x + eps <= huge)%Q as Hxe by lra.
  rewrite Eeps in He0, Hxe.
  destruct (add_nonneg fl fin val u tiny huge model x _ Fx Fe Hx0 He0 Hxe)
    as (Ff & HL & HU).
  rewrite <- Eeps in HL, HU, He0, Hxe.
  split; [exact Ff|].
  revert HL HU. generalize (val (fadd fl x (lit fl (1 # 1000000000000)))).
  intros f HL HU. split.
  - assert (0 <= ((1 # 2) - u) * (val x + eps))%Q by (apply Qmult_le_0_compat; lra).
    lra.
  - assert (0 <= (1 - u) * (val x + eps))%Q by (apply Qmult_le_0_compat; lra).
    lra.
Qed.

Lemma np_sum_axis0_spec (sh : list nat) (w0 : ndarray F) (rest : list (ndarray F)) :
  Forall (has_shape sh) (w0 :: rest) ->
  np_sum_axis0 fl (w0 :: rest)
  = Ret (fold_left
           (fun acc w => mk_array (shape acc) (zip_with (fadd fl) (data acc) (data w)))
           rest w0).
Proof.
  intros Hall. apply Forall_cons_1 in Hall as [H0 Hr]. cbn [np_sum_axis0].
  assert (forallb (fun w => bool_decide (shape w = shape w0)) rest = true) as ->;
    [|reflexivity].
  apply forallb_forall. intros w Hin. apply bool_decide_eq_true_2.
  rewrite Forall_forall in Hr. apply list_elem_of_In in Hin.
  destruct (Hr w Hin) as [-> _]. now destruct H0 as [-> _].
Qed.

(** The value of the float sum at a position is the float sum of the
    values at that position. *)
Lemma sum_fold_nth (n p : nat) (d : F) (rest : list (ndarray F)) :
  forall acc : ndarray F,
  (p < n)%nat -> length (data acc) = n ->
  Forall (fun W => length (data W) = n) rest ->
  nth p (data (fold_left
                 (fun acc w => mk_array (shape acc) (zip_with (fadd fl) (data acc) (data w)))
                 rest acc)) d
  = fold_left (fadd fl) (List.map (fun W => nth p (data W) d) rest) (nth p (data acc) d).
Proof.
  induction rest as [|W rest IH]; intros acc Hp Ha Hr; [reflexivity|].
  apply Forall_cons_1 in Hr as [HW Hr]. cbn [fold_left List.map].
  rewrite IH; [|assumption| |assumption].
  - cbn [data]. now rewrite (nth_zip_with (fadd fl) p d d d) by lia.
  - cbn [data]. rewrite length_zip_with. lia.
Qed.

Lemma pixel_sum_quotients (n p : nat) (d : F) (S : ndarray F) (raw : list (ndarray F)) :
  (p < n)%nat -> length (data S) = n ->
  Forall (fun W => length (data W) = n) raw ->
  pixel_sum val d
    (List.map (fun W => mk_array (shape W) (zip_with (fdiv fl) (data W) (data S))) raw) p
  = qsum (List.map (fun x => val (fdiv fl x (nth p (data S) d)))
            (List.map (fun W => nth p (data W) d) raw)).
Proof.
  intros Hp HS Hr. induction Hr as [|W raw HW _ IH]; [reflexivity|].
  cbn [List.map pixel_sum fold_right qsum data].
  rewrite (nth_zip_with (fdiv fl) p d d d) by lia.
  f_equal. exact IH.
Qed.

(** The raw weights of a bracket, position by position: the maps exist,
    their sum is the float sum of each position taken in the order of the
    bracket, and every raw weight is finite and between [epsilon / 4] and
    [2 (M + 1)]. *)
Lemma weight_columns (images : list (ndarray Z)) (h w : nat) (M : Q) :
  images <> [] -> (0 < h)%nat -> (0 < w)%nat ->
  Forall (has_shape [h; w; 3%nat]) images ->
  Forall (measures_within fl cv wc ws we fin val M) images ->
  (0 <= M)%Q -> (nq (length images) * u <= 1 # 2)%Q ->
  (4 * nq (length images) * (M + 1) <= huge)%Q ->
  (tiny * (16 * nq (length images) * (M + 1)) <= 1 # 1000000000000)%Q ->
  exists raw S,
    length raw = length images /\
    Forall (has_shape [h; w]) raw /\ has_shape [h; w] S /\
    _generate_weight_maps fl cv wc ws we images
    = Ret (List.map (fun W => mk_array (shape W) (zip_with (fdiv fl) (data W) (data S))) raw) /\
    forall p, (p < h * w)%nat ->
      exists x0 rest,
        List.map (fun W => nth p (data W) (lit fl 0)) raw = x0 :: rest /\
        nth p (data S) (lit fl 0) = fold_left (fadd fl) rest x0 /\
        Forall (fun x => fin x /\ ((1 # 4000000000000) <= val x)%Q /\
                         (val x <= 2 * (M + 1))%Q) (x0 :: rest).
Proof.
  destruct (u_range fl fin val u tiny huge model) as [Hu0 Hu1].
  destruct (tiny_huge fl fin val u tiny huge model) as (Ht0 & Ht1 & Hh2).
  intros Hne Hh Hw Hall Hmeas HM HN Hcap Htiny.
  assert (1 <= nq (length images))%Q as HN1.
  { destruct images as [|i0 others]; [congruence|]. cbn [length]. rewrite nq_S.
    pose proof (nq_nonneg (length others)). lra. }
  assert (u <= 1 # 2)%Q as Hu.
  { assert (0 <= (nq (length images) - 1) * u)%Q by (apply Qmult_le_0_compat; lra). lra. }
  assert (M + 1 <= huge)%Q as HM1.
  { assert (0 <= (nq (length images) - 1) * (M + 1))%Q by (apply Qmult_le_0_compat; lra). lra. }
  assert (tiny <= 1 # 1000000000000)%Q as Ht.
  { assert (0 <= (nq (length images) - 1) * (M + 1))%Q by (apply Qmult_le_0_compat; lra).
    assert (0 <= tiny * (16 * (nq (length images) * (M + 1)) - 1))%Q
      by (apply Qmult_le_0_compat; lra).
    lra. }
  unfold _generate_weight_maps.
  destruct (mapM_Forall2 (weight_of fl cv wc ws we)
              (fun a => has_shape [h; w; 3%nat] a /\
                        measures_within fl cv wc ws we fin val M a)
              (fun _ W => has_shape [h; w] W /\
                          Forall (fun x => fin x /\ ((1 # 4000000000000) <= val x)%Q /\
                                           (val x <= 2 * (M + 1))%Q) (data W))
              (fun a Ha => weight_of_range h w a M Hh Hw (proj1 Ha) (proj2 Ha) HM Hu HM1 Ht)
              images ltac:(apply Forall_and; split; assumption))
    as (raw & -> & Hraw). cbn [bind].
  pose proof (Forall2_length _ _ _ Hraw) as Hlen.
  assert (Forall (fun W => has_shape [h; w] W /\
                           Forall (fun x => fin x /\ ((1 # 4000000000000) <= val x)%Q /\
                                            (val x <= 2 * (M + 1))%Q) (data W)) raw) as Hraw'.
  { clear -Hraw. induction Hraw; constructor; auto. }
  clear Hraw.
  assert (Forall (has_shape [h; w]) raw) as Hshapes
    by (eapply Forall_impl; [exact Hraw'|]; now intros W [? _]).
  assert (Forall (fun W => length (data W) = (h * w)%nat) raw) as Hlens.
  { eapply Forall_impl; [exact Hshapes|]. intros W [Hs Hwf].
    unfold wf in Hwf. rewrite Hwf, Hs. cbn. lia. }
  destruct raw as [|W0 rest] eqn:Eraw.
  { destruct images; [congruence|discriminate]. }
  rewrite <- Eraw in *.
  assert (np_sum_axis0 fl raw = _) as ->
    by (rewrite Eraw; apply (np_sum_axis0_spec [h; w]); now rewrite <- Eraw).
  cbn [bind].
  set (S := fold_left _ rest W0).
  assert (has_shape [h; w] S) as HS.
  { rewrite Eraw in Hshapes. apply Forall_cons_1 in Hshapes as [H0 Hr].
    now apply sum_fold_shape. }
  rewrite (mapM_azip (fdiv fl) [h; w] S raw HS Hshapes).
  exists raw, S. split; [now symmetry|]. split; [exact Hshapes|]. split; [exact HS|].
  split; [reflexivity|].
  intros p Hp. rewrite Eraw. cbn [List.map]. eexists _, _. split; [reflexivity|].
  pose proof Hlens as Hlens'. rewrite Eraw in Hlens'.
  apply Forall_cons_1 in Hlens' as [HW0 Hrl].
  split.
  - unfold S. exact (sum_fold_nth (h * w) p (lit fl 0) rest W0 Hp HW0 Hrl).
  - change (Forall (fun x => fin x /\ ((1 # 4000000000000) <= val x)%Q /\
                             (val x <= 2 * (M + 1))%Q)
              (List.map (fun W => nth p (data W) (lit fl 0)) (W0 :: rest))).
    rewrite <- Eraw. apply Forall_map.
    eapply Forall_impl; [apply Forall_and; split; [exact Hraw'|exact Hlens]|].
    cbv beta. intros W [[_ Hpos] HlW].
    apply (proj1 (Forall_nth _ (lit fl 0) (data W)) Hpos). lia.
Qed.

(** C3.  With float64 rounding by the standard model, for a bracket of
    frames of one shape whose measure terms are finite, not negative and
    at most [M], and that is small enough for the rounding of the sum
    ([N u <= 2.5e-7], which is [N <= 2.2e9] with the [u = 2^-53] of
    float64) and for the range of float64 ([4 N (M + 1)] does not pass
    the largest float, and [epsilon / (16 N (M + 1))] is a normal
    number), the normalized weight maps exist, one per frame, and at
    every position their values add up to 1 within [1e-6]. *)
Theorem weights_sum_to_one (images : list (ndarray Z)) (h w : nat) (M : Q) :
  images <> [] -> (0 < h)%nat -> (0 < w)%nat ->
  Forall (has_shape [h; w; 3%nat]) images ->
  Forall (measures_within fl cv wc ws we fin val M) images ->
  (0 <= M)%Q ->
  (nq (length images) * u <= 1 # 4000000)%Q ->
  (4 * nq (length images) * (M + 1) <= huge)%Q ->
  (tiny * (16 * nq (length images) * (M + 1)) <= 1 # 1000000000000)%Q ->
  exists weights,
    _generate_weight_maps fl cv wc ws we images = Ret weights /\
    length weights = length images /\
    forall p, (p < h * w)%nat ->
      (Qabs (pixel_sum val (lit fl 0) weights p - 1) <= 1 # 1000000)%Q.
Proof.
  intros Hne Hh Hw Hall Hmeas HM HN Hcap Htiny.
  destruct (weight_columns images h w M Hne Hh Hw Hall Hmeas HM ltac:(lra) Hcap Htiny)
    as (raw & S & Hlen & Hshapes & HS & -> & Hcols).
  eexists; split; [reflexivity|]. split; [now rewrite length_map|].
  intros p Hp.
  assert (Forall (fun W => length (data W) = (h * w)%nat) raw) as Hlens.
  { eapply Forall_impl; [exact Hshapes|]. intros W [Hs Hwf].
    unfold wf in Hwf. rewrite Hwf, Hs. cbn. lia. }
  assert (length (data S) = (h * w)%nat) as HSlen.
  { destruct HS as [Hs Hwf]. unfold wf in Hwf. rewrite Hwf, Hs. cbn. lia. }
  rewrite (pixel_sum_quotients (h * w) p (lit fl 0) S raw Hp HSlen Hlens).
  destruct (Hcols p Hp) as (x0 & rest & Ecol & ES & Hrange).
  rewrite Ecol, ES.
  assert (length (x0 :: rest) = length images) as Hcount.
  { rewrite <- Ecol, length_map. exact Hlen. }
  apply (normalized_values_sum fl fin val u tiny huge model x0 rest
           (1 # 4000000000000) (2 * (M + 1))).
  - reflexivity.
  - exact Hrange.
  - now rewrite Hcount.
  - rewrite Hcount. lra.
  - rewrite Hcount. lra.
Qed.

End WeightSum.

(** *** Exact arithmetic is an instance of the rounding model *)

Local Open Scope Q_scope.

Lemma exact_error (u x y : Q) : 0 <= u -> x == y -> Qabs (x - y) <= u * Qabs y.
Proof.
  intros Hu Hxy. rewrite Hxy. unfold Qminus. rewrite Qplus_opp_r.
  change (Qabs 0) with 0. apply Qmult_le_0_compat; [assumption|apply Qabs_nonneg].
Qed.

Lemma qsum_abs_nonneg (l : list Q) (mu : Q) :
  0 <= q_sum (List.map (fun x => Qabs (x - mu)) l).
Proof.
  induction l as [|x l IH]; cbn [List.map q_sum fold_right]; [lra|].
  pose proof (Qabs_nonneg (x - mu)). fold (q_sum (List.map (fun x => Qabs (x - mu)) l)). lra.
Qed.

Lemma exact_model (u tiny huge : Q) :
  0 <= u -> u < 1 -> 0 < tiny -> tiny <= 1 -> 2 <= huge ->
  float_model exact (fun _ => True) (fun x => x) u tiny huge.
Proof.
  intros Hu0 Hu1 Ht0 Ht1 Hh. constructor; cbn [exact lit fadd fsub fdiv].
  - now split.
  - repeat split; assumption.
  - intros a b _ _ _. split; [exact I|]. apply exact_error; [assumption|apply Qred_correct].
  - intros a b _ _ _. split; [exact I|]. apply exact_error; [assumption|apply Qred_correct].
  - intros a b _ _ _ _ _. split; [exact I|].
    apply exact_error; [assumption|apply Qred_correct].
  - intros q _ _. split; [exact I|]. apply exact_error; [assumption|reflexivity].
Qed.

(** A check by computation that the measure term of a frame stays in
    [0, M] with the reference arithmetic. *)
Lemma measures_check (M : Q) (img : ndarray Z) :
  match measure_term exact nn 1 1 1 img with
  | Ret cse => forallb (fun x => Qle_bool 0 x && Qle_bool x M) (data cse)
  | Raise _ => true
  end = true ->
  measures_within exact nn 1 1 1 (fun _ => True) (fun x => x) M img.
Proof.
  intros H cse Hc. rewrite Hc in H.
  apply Forall_forall. intros x Hx.
  rewrite forallb_forall in H. apply list_elem_of_In in Hx.
  specialize (H x Hx). apply andb_prop in H as [H1 H2].
  apply Qle_bool_iff in H1, H2. auto.
Qed.

Lemma weights_sum_to_one_witness :
  exists weights,
    _generate_weight_maps exact nn 1 1 1 [flat 16 8 200; flat 16 8 50] = Ret weights /\
    length weights = 2%nat /\
    forall p, (p < 16 * 8)%nat ->
      Qabs (pixel_sum (fun x => x) 0 weights p - 1) <= 1 # 1000000.
Proof.
  apply (weights_sum_to_one exact nn 1 1 1 (fun _ => True) (fun x => x)
           (1 # 9007199254740992) (1 # 1000000000000000000000000000000)
           1000000000000000000000000000000 nn_ok
           (exact_model (1 # 9007199254740992) (1 # 1000000000000000000000000000000)
              1000000000000000000000000000000
              ltac:(lra) ltac:(lra) ltac:(lra) ltac:(lra) ltac:(lra))
           [flat 16 8 200; flat 16 8 50] 16 8 1).
  - discriminate.
  - lia.
  - lia.
  - repeat constructor; apply flat_shape.
  - repeat constructor; apply measures_check; vm_compute; reflexivity.
  - lra.
  - vm_compute. discriminate.
  - vm_compute. discriminate.
  - vm_compute. discriminate.
Defined.

Local Close Scope Q_scope.

(** *** Rounding in the Laplacian pyramid and its reconstruction *)

Local Open Scope Q_scope.

Lemma abs_le_scaled (u t b y : Q) :
  0 <= u -> Qabs t <= b -> Qabs y <= u * Qabs t -> Qabs y <= u * b.
Proof.
  intros Hu Ht Hy. eapply Qle_trans; [exact Hy|].
  assert (0 <= u * (b - Qabs t)) by (apply Qmult_le_0_compat; lra). lra.
Qed.

(** One value of one level: [r] is the rounded [x' + d], [d] the rounded
    [g - x], and [x'] is within [e + eta] of [x]. *)
Lemma recon_error (u B e eta x' x g d r : Q) :
  0 <= u -> 0 <= B -> 0 <= e -> 0 <= eta ->
  Qabs (x' - x) <= e + eta -> Qabs g <= B -> Qabs x <= B ->
  Qabs (d - (g - x)) <= u * Qabs (g - x) ->
  Qabs (r - (x' + d)) <= u * Qabs (x' + d) ->
  Qabs (r - g) <= (1 + u) * (e + eta) + u * (3 * B + 2 * u * B).
Proof.
  intros Hu HB He Heta Hx' Hg Hx Hd Hr.
  assert (Qabs (g - x) <= 2 * B) as Hgx.
  { apply Qabs_Qle_condition in Hg as [? ?], Hx as [? ?].
    apply Qabs_Qle_condition. split; lra. }
  pose proof (abs_le_scaled u _ _ _ Hu Hgx Hd) as Hd'.
  assert (Qabs (x' + d) <= B + e + eta + u * (2 * B)) as Hxd.
  { apply Qabs_Qle_condition in Hg as [? ?], Hx' as [? ?], Hd' as [? ?].
    apply Qabs_Qle_condition. split; lra. }
  pose proof (abs_le_scaled u _ _ _ Hu Hxd Hr) as Hr'.
  apply Qabs_Qle_condition in Hx' as [? ?], Hd' as [? ?], Hr' as [? ?].
  apply Qabs_Qle_condition. split; lra.
Qed.

Local Close Scope Q_scope.

Lemma pyramid_loop_all {A : Type} (down : ndarray A -> res (ndarray A))
    (Inv : ndarray A -> Prop) :
  (forall a g, Inv a -> down a = Ret g -> Inv g) ->
  forall (n : nat) (pyr pyr' : list (ndarray A)),
  Forall Inv pyr -> pyramid_loop down n pyr = Ret pyr' -> Forall Inv pyr'.
Proof.
  intros Hdown. induction n as [|n IH]; intros pyr pyr' Hp Hr.
  - cbn in Hr. now injection Hr as <-.
  - cbn [pyramid_loop] in Hr. unfold last_of in Hr.
    destruct (last pyr) as [tp|] eqn:El; [|discriminate]. cbn [bind] in Hr.
    destruct (down tp) as [d|] eqn:Ed; [|discriminate]. cbn [bind] in Hr.
    apply (IH _ _) in Hr; [assumption|].
    apply Forall_app. split; [assumption|]. constructor; [|constructor].
    apply (Hdown tp); [|assumption].
    rewrite Forall_forall in Hp. apply Hp.
    rewrite last_lookup in El. eapply list_elem_of_lookup_2; eassumption.
Qed.

Section Reconstruction.
Context {F : Type}.
Variable fl : float_api F.
Variable cv : cv2_api F.
Variable fin : F -> Prop.
Variable val : F -> Q.
Variables u tiny huge B eta : Q.
Hypothesis cv_ok : cv2_ok cv.
Hypothesis model : float_model fl fin val u tiny huge.
Hypothesis stable_cv : cv2_stable cv fin val B eta.
Hypothesis eta_nonneg : (0 <= eta)%Q.

(** The Laplacian pyramid, level by level: below the last level it holds
    the rounded difference of a Gaussian level and the enlarged level
    after it; the last level is the last Gaussian level. *)
Lemma laplacian_pyramid_levels (rest : list nat) (h w : nat) (img : ndarray F) (levels : Z) :
  (0 < h)%nat -> (0 < w)%nat -> has_shape (h :: w :: rest) img ->
  exists gp pyr,
    _gaussian_pyramid cv img levels = Ret gp /\
    length gp = depth levels /\ pyr_shapes rest h w gp /\
    _laplacian_pyramid fl cv img levels = Ret pyr /\
    length pyr = depth levels /\ pyr_shapes rest h w pyr /\
    pyr !! (depth levels - 1)%nat = gp !! (depth levels - 1)%nat /\
    forall i, (i < depth levels - 1)%nat ->
      exists gi gi1 U,
        gp !! i = Some gi /\ gp !! (i + 1)%nat = Some gi1 /\
        pyrUp cv gi1 (lvl i w, lvl i h) = Ret U /\
        has_shape (lvl i h :: lvl i w :: rest) U /\
        pyr !! i = Some (mk_array (shape gi) (zip_with (fsub fl) (data gi) (data U))).
Proof.
  intros Hh Hw Hi. unfold _laplacian_pyramid.
  destruct (gaussian_pyramid_shapes cv cv_ok rest h w img levels Hh Hw Hi)
    as (gp & Egp & Hlen & Hgs).
  exists gp. rewrite Egp. cbn [bind]. unfold depth in *. unfold range.
  match goal with |- context [foldM ?body (seq 0 ?n) ?s0] =>
    destruct (foldM_seq body
                (fun i lap =>
                   length lap = i /\ pyr_shapes rest h w lap /\
                   forall j, (j < i)%nat ->
                     exists gi gi1 U,
                       gp !! j = Some gi /\ gp !! (j + 1)%nat = Some gi1 /\
                       pyrUp cv gi1 (lvl j w, lvl j h) = Ret U /\
                       has_shape (lvl j h :: lvl j w :: rest) U /\
                       lap !! j = Some (mk_array (shape gi)
                                          (zip_with (fsub fl) (data gi) (data U))))
                n 0%nat s0) as (lap & -> & Hl1 & Hl2 & Hl3)
  end.
  { split; [reflexivity|]. split; [|intros j Hj; lia].
    intros k a Hk. destruct k; discriminate. }
  { intros i lap Hi' (Hll & Hls & Hspec).
    call (index_lookup gp i ltac:(lia)) gi Hgi.
    rewrite (shape2_of _ _ _ _ (Hgs _ _ Hgi)). cbn [bind fst snd].
    call (index_lookup gp (i + 1) ltac:(lia)) gi1 Hgi1.
    pose proof (Hgs _ _ Hgi1) as Hs1.
    replace (i + 1)%nat with (S i) in Hs1 by lia. rewrite !lvl_S in Hs1.
    destruct (up_ok cv cv_ok gi1 _ _ rest (lvl_pos i h Hh) (lvl_pos i w Hw) Hs1)
      as (U & EU & HU).
    rewrite EU. cbn [bind].
    rewrite (azip_spec (fsub fl) _ gi U (Hgs _ _ Hgi) HU). cbn [bind].
    eexists; split; [reflexivity|]. split; [rewrite length_app; cbn; lia|]. split.
    - apply pyr_shapes_snoc; [assumption|]. rewrite Hll.
      exact (zip_shape (fsub fl) _ gi U (Hgs _ _ Hgi) HU).
    - intros j Hj. destruct (decide (j = i)) as [->|Hne].
      + exists gi, gi1, U. repeat (split; [assumption|]).
        rewrite lookup_app_r by lia. now rewrite Hll, Nat.sub_diag.
      + destruct (Hspec j ltac:(lia)) as (gj & gj1 & Uj & H1 & H2 & H3 & H4 & H5).
        exists gj, gj1, Uj. repeat (split; [assumption|]).
        rewrite lookup_app_l by lia. exact H5. }
  cbn [bind Nat.add] in *.
  destruct (last_of_lookup gp ltac:(destruct gp; cbn in *; [lia|discriminate]))
    as (tp & Etp & Htp).
  rewrite Etp. cbn [bind]. eexists. split; [reflexivity|].
  split; [assumption|]. split; [assumption|]. split; [reflexivity|].
  split; [rewrite length_app; cbn; lia|]. split.
  - apply pyr_shapes_snoc; [assumption|].
    rewrite Hl1. replace (Z.to_nat (levels - 1)) with (length gp - 1)%nat by lia.
    now apply Hgs.
  - split.
    + replace (S (Z.to_nat (levels - 1)) - 1)%nat with (Z.to_nat (levels - 1)) by lia.
      rewrite lookup_app_r by lia. rewrite Hl1, Nat.sub_diag. cbn.
      rewrite <- Htp. f_equal. lia.
    + intros i Hi'. destruct (Hl3 i ltac:(lia)) as (gj & gj1 & Uj & H1 & H2 & H3 & H4 & H5).
      exists gj, gj1, Uj. repeat (split; [assumption|]).
      rewrite lookup_app_l by lia. exact H5.
Qed.

Lemma pyramid_loop_extends {A : Type} (down : ndarray A -> res (ndarray A)) (n : nat) :
  forall pyr pyr' : list (ndarray A),
  pyramid_loop down n pyr = Ret pyr' -> exists ext, pyr' = pyr ++ ext.
Proof.
  induction n as [|n IH]; intros pyr pyr' Hr.
  - cbn in Hr. injection Hr as <-. exists []. now rewrite app_nil_r.
  - cbn [pyramid_loop] in Hr.
    destruct (last_of pyr) as [tp|]; [|discriminate]. cbn [bind] in Hr.
    destruct (down tp) as [d|]; [|discriminate]. cbn [bind] in Hr.
    destruct (IH _ _ Hr) as [ext ->]. exists ([d] ++ ext). now rewrite app_assoc.
Qed.

Lemma nq_le (a b : nat) : (a <= b)%nat -> (nq a <= nq b)%Q.
Proof. intros H. unfold nq. rewrite <- Zle_Qle. lia. Qed.

Lemma level_error_nonneg : (0 <= B)%Q -> (0 <= level_error u B eta)%Q.
Proof.
  destruct (u_range fl fin val u tiny huge model) as [Hu0 Hu1]. intros HB.
  unfold level_error.
  assert (0 <= (1 + u) * eta)%Q by (apply Qmult_le_0_compat; lra).
  assert (0 <= u * B)%Q by (apply Qmult_le_0_compat; lra).
  assert (0 <= u * (u * B))%Q by (apply Qmult_le_0_compat; lra).
  lra.
Qed.

Lemma close_weaken (e e' : Q) (a b : ndarray F) :
  (e <= e')%Q -> close val e a b -> close val e' a b.
Proof.
  intros He (H1 & H2 & H3). split; [assumption|]. split; [assumption|].
  intros p x y Hx Hy. eapply Qle_trans; [now apply (H3 p)|assumption].
Qed.

Lemma bounded_weaken (b b' : Q) (a : ndarray F) :
  (b <= b')%Q -> bounded fin val b a -> bounded fin val b' a.
Proof.
  intros Hb Ha p x Hx. destruct (Ha p x Hx) as [Fx Hv].
  split; [exact Fx|]. eapply Qle_trans; eassumption.
Qed.

Lemma has_shape_length {A : Type} (sh : list nat) (a b : ndarray A) :
  has_shape sh a -> has_shape sh b -> length (data a) = length (data b).
Proof. intros [Ha1 Ha2] [Hb1 Hb2]. unfold wf in *. congruence. Qed.

(** Level [k] of a Gaussian pyramid over an image within [B0] is within
    [B0 + k eta]: each [pyrDown] may add its rounding. *)
Lemma pyramid_loop_bounded (B0 : Q) (n : nat) :
  forall pyr pyr' : list (ndarray F),
  (0 <= B0)%Q -> (B0 + nq (length pyr + n) * eta <= B)%Q ->
  (forall k a, pyr !! k = Some a -> bounded fin val (B0 + nq k * eta)%Q a) ->
  pyramid_loop (pyrDown cv) n pyr = Ret pyr' ->
  forall k a, pyr' !! k = Some a -> bounded fin val (B0 + nq k * eta)%Q a.
Proof.
  induction n as [|n IH]; intros pyr pyr' HB0 Hcap Hp Hr.
  - cbn in Hr. now injection Hr as <-.
  - cbn [pyramid_loop] in Hr. unfold last_of in Hr.
    destruct (last pyr) as [tp|] eqn:El; [|discriminate]. cbn [bind] in Hr.
    destruct (pyrDown cv tp) as [d|] eqn:Ed; [|discriminate]. cbn [bind] in Hr.
    rewrite last_lookup in El.
    assert (0 < length pyr)%nat as Hlen by (destruct pyr; [discriminate|cbn; lia]).
    pose proof (nq_nonneg (Init.Nat.pred (length pyr))) as Hk0.
    assert (nq (length pyr) == nq (Init.Nat.pred (length pyr)) + 1)%Q as Hnq.
    { replace (length pyr) with (S (Init.Nat.pred (length pyr))) at 1 by lia. apply nq_S. }
    assert (nq (length pyr) <= nq (length pyr + S n))%Q as Hle by (apply nq_le; lia).
    assert (0 <= nq (Init.Nat.pred (length pyr)) * eta)%Q as Hke
      by (apply Qmult_le_0_compat; assumption).
    assert (0 <= (nq (length pyr + S n) - nq (length pyr)) * eta)%Q as Hne
      by (apply Qmult_le_0_compat; lra).
    apply (IH (pyr ++ [d]) pyr' HB0); [| |exact Hr].
    + rewrite length_app. cbn [length]. now replace (length pyr + 1 + n)%nat
        with (length pyr + S n)%nat by lia.
    + intros k a Hk. destruct (decide (k < length pyr)%nat) as [Hlt|Hge].
      * rewrite lookup_app_l in Hk by assumption. now apply Hp.
      * rewrite lookup_app_r in Hk by lia.
        destruct (k - length pyr)%nat eqn:Ek; [|destruct n0; discriminate].
        cbn in Hk. injection Hk as <-.
        assert (k = length pyr) as -> by lia.
        apply (bounded_weaken (B0 + nq (Init.Nat.pred (length pyr)) * eta + eta));
          [rewrite Hnq; lra|].
        assert (0 <= (nq (length pyr + S n) - nq (Init.Nat.pred (length pyr))) * eta)%Q
          by (apply Qmult_le_0_compat; lra).
        apply (down_bounded cv fin val B eta stable_cv tp d); [lra|lra| |exact Ed].
        now apply Hp.
Qed.

(** C4.  With float64 rounding by the standard model and the means of
    [pyrDown] and [pyrUp] stable as [cv2_stable] words it, for a float
    image of finite values within [B0] and a depth [L] such that the
    bound [B] of [cv2_stable] leaves room for the rounding of the levels
    ([B0 + L eta + 1 <= B]), no sum passes the largest float
    ([6 B + 1 <= huge]) and the accumulated rounding stays below [1e-6],
    the Laplacian pyramid of the image exists and its reconstruction
    returns an image of the shape of the input that differs from it by
    [1e-6] at most at every position. *)
Theorem reconstruct_laplacian (rest : list nat) (h w : nat) (img : ndarray F)
    (levels : Z) (B0 : Q) :
  (0 < h)%nat -> (0 < w)%nat -> has_shape (h :: w :: rest) img ->
  (0 <= B0)%Q -> bounded fin val B0 img ->
  (B0 + nq (depth levels) * eta + 1 <= B)%Q ->
  (6 * B + 1 <= huge)%Q ->
  (nq (depth levels) * level_error u B eta <= 1 # 1000000)%Q ->
  exists pyr out,
    _laplacian_pyramid fl cv img levels = Ret pyr /\
    _reconstruct fl cv pyr = Ret out /\
    has_shape (h :: w :: rest) out /\
    close val (1 # 1000000) out img.
Proof.
  destruct (u_range fl fin val u tiny huge model) as [Hu0 Hu1].
  intros Hh Hw Hi HB0 Hb HB Hhuge Htot.
  assert (1 <= nq (depth levels))%Q as HD1.
  { unfold depth. rewrite nq_S. pose proof (nq_nonneg (Z.to_nat (levels - 1))). lra. }
  assert (0 <= nq (depth levels) * eta)%Q as HDe by (apply Qmult_le_0_compat; lra).
  assert (1 <= B)%Q as HB1 by lra.
  pose proof (level_error_nonneg ltac:(lra)) as Hc0.
  assert (level_error u B eta <= 1 # 1000000)%Q as Hc1.
  { assert (0 <= (nq (depth levels) - 1) * level_error u B eta)%Q
      by (apply Qmult_le_0_compat; lra). lra. }
  assert (eta <= 1)%Q as Heta1.
  { unfold level_error in Hc1.
    assert (0 <= u * eta)%Q by (apply Qmult_le_0_compat; lra).
    assert (0 <= u * B)%Q by (apply Qmult_le_0_compat; lra).
    assert (0 <= u * (u * B))%Q by (apply Qmult_le_0_compat; lra).
    lra. }
  set (Bg := (B0 + nq (depth levels) * eta)%Q) in *.
  destruct (laplacian_pyramid_levels rest h w img levels Hh Hw Hi)
    as (gp & pyr & Egp & Hlg & Hsg & Epyr & Hlp & Hsp & Hlast & Hlev).
  exists pyr. rewrite Epyr.
  assert (forall k a, gp !! k = Some a -> bounded fin val (B0 + nq k * eta)%Q a) as Hbk.
  { unfold _gaussian_pyramid in Egp.
    apply (pyramid_loop_bounded B0 (Z.to_nat (levels - 1)) [img] gp HB0); [| |exact Egp].
    - cbn [length]. change (1 + Z.to_nat (levels - 1))%nat with (depth levels).
      unfold Bg in HB. lra.
    - intros k a Hk. destruct k; [|destruct k; discriminate].
      cbn in Hk. injection Hk as <-. change (nq 0) with 0%Q.
      apply (bounded_weaken B0); [lra|exact Hb]. }
  assert (forall k a, gp !! k = Some a -> (k < depth levels)%nat) as Hklt.
  { intros k a Hk. apply lookup_lt_Some in Hk. lia. }
  assert (forall k a, gp !! k = Some a -> bounded fin val Bg a) as Hbg.
  { intros k a Hk. apply (bounded_weaken (B0 + nq k * eta)); [|now apply Hbk].
    assert (nq k <= nq (depth levels))%Q as Hle
      by (apply nq_le; pose proof (Hklt k a Hk); lia).
    assert (0 <= (nq (depth levels) - nq k) * eta)%Q by (apply Qmult_le_0_compat; lra).
    unfold Bg. lra. }
  assert (gp !! 0%nat = Some img) as Hg0.
  { unfold _gaussian_pyramid in Egp.
    destruct (pyramid_loop_extends _ _ _ _ Egp) as [ext ->]. reflexivity. }
  set (n := (depth levels - 1)%nat) in *.
  assert (length pyr - 1 = n)%nat as Hn by (rewrite Hlp; reflexivity).
  unfold _reconstruct.
  destruct (last_of_lookup pyr ltac:(destruct pyr; [cbn in Hlp; unfold depth in Hlp; lia|discriminate]))
    as (tp & Etp & Htp).
  rewrite Etp. cbn [bind]. rewrite Hn in *.
  match goal with |- context [foldM ?body (rev (seq 0 n)) ?s0] =>
    destruct (foldM_rev_seq body
                (fun i out =>
                   has_shape (lvl i h :: lvl i w :: rest) out /\
                   bounded fin val B out /\
                   exists gi, gp !! i = Some gi /\
                              close val (nq (n - i) * level_error u B eta)%Q out gi)
                n s0) as (out & Eout & Hout & _ & g0 & Hg0' & Hclose)
  end.
  { split; [now apply Hsp|].
    assert (gp !! n = Some tp) as Htpg by now rewrite <- Hlast.
    split; [apply (bounded_weaken Bg); [lra|now apply (Hbg n)]|].
    exists tp. split; [exact Htpg|].
    split; [reflexivity|]. split; [reflexivity|].
    intros p x y Hx Hy. rewrite Hx in Hy. injection Hy as <-.
    rewrite Nat.sub_diag. change (nq 0) with 0%Q.
    unfold Qminus. rewrite Qplus_opp_r. change (Qabs 0) with 0%Q. lra. }
  { intros i img' Hi' (Hs' & Hbimg' & gi1 & Hgi1 & Hcl).
    destruct (Hlev i Hi') as (gi & gi1' & U & Hgi & Hgi1' & EU & HU & Hpi).
    replace (i + 1)%nat with (S i) in Hgi1' by lia.
    rewrite Hgi1 in Hgi1'. injection Hgi1' as <-.
    pose proof (Hsg _ _ Hgi) as Hsgi.
    pose proof (zip_shape (fsub fl) _ gi U Hsgi HU) as Hspi.
    unfold index. rewrite Hpi. cbn [bind].
    rewrite (shape2_of _ _ _ _ Hspi). cbn [bind fst snd].
    rewrite !lvl_S in Hs'.
    destruct (up_ok cv cv_ok img' _ _ rest (lvl_pos i h Hh) (lvl_pos i w Hw) Hs')
      as (U' & EU' & HU').
    rewrite EU'. cbn [bind].
    rewrite (azip_spec (fadd fl) _ U' _ HU' Hspi).
    eexists; split; [reflexivity|].
    pose proof (zip_shape (fadd fl) _ U' _ HU' Hspi) as Hsr.
    split; [exact Hsr|].
    set (e' := (nq (n - S i) * level_error u B eta)%Q) in *.
    assert (0 <= e')%Q as He0
      by (apply Qmult_le_0_compat; [apply nq_nonneg|assumption]).
    assert (nq (n - i) == nq (n - S i) + 1)%Q as Hnq.
    { replace (n - i)%nat with (S (n - S i)) by lia. apply nq_S. }
    assert (nq (n - i) <= nq (depth levels))%Q as Hle
      by (apply nq_le; unfold n; lia).
    assert (0 <= (nq (depth levels) - nq (n - i)) * level_error u B eta)%Q as Hroom
      by (apply Qmult_le_0_compat; lra).
    assert (e' == nq (n - S i) * level_error u B eta)%Q as He' by reflexivity.
    assert (level_error u B eta == (1 + u) * eta + u * (3 * B + 2 * u * B) + u)%Q
      as Hc by reflexivity.
    assert (e' + level_error u B eta <= 1 # 1000000)%Q as Hnew by (rewrite Hnq in Hroom; lra).
    assert (e' <= 1)%Q as He1 by lra.
    pose proof (Hbg _ _ Hgi) as Hbgi.
    pose proof (Hbg _ _ Hgi1) as Hbgi1.
    assert (bounded fin val Bg U) as HbU.
    { apply (bounded_weaken (B0 + nq (S i) * eta + eta)).
      - assert (nq (S (S i)) <= nq (depth levels))%Q as Hle2
          by (apply nq_le; unfold n in Hi'; lia).
        rewrite (nq_S (S i)) in Hle2.
        assert (0 <= (nq (depth levels) - (nq (S i) + 1)) * eta)%Q
          by (apply Qmult_le_0_compat; lra).
        unfold Bg. lra.
      - apply (up_bounded cv fin val B eta stable_cv gi1 (lvl i w, lvl i h) U); [| | |exact EU].
        + pose proof (nq_nonneg (S i)).
          assert (0 <= nq (S i) * eta)%Q by (apply Qmult_le_0_compat; lra). lra.
        + assert (nq (S i) <= nq (depth levels))%Q as Hle2
            by (apply nq_le; unfold n in Hi'; lia).
          assert (0 <= (nq (depth levels) - nq (S i)) * eta)%Q
            by (apply Qmult_le_0_compat; lra).
          unfold Bg in HB. lra.
        + now apply Hbk. }
    pose proof (up_bounded cv fin val B eta stable_cv img' _ U' B ltac:(lra) ltac:(lra)
                  Hbimg' EU') as HbU'.
    pose proof (up_stable cv fin val B eta stable_cv img' gi1 _ U' U e' He0 He1 Hcl
                  Hbimg' (bounded_weaken Bg B gi1 ltac:(lra) Hbgi1) EU' EU)
      as (_ & _ & HUU).
    assert (forall p r, zip_with (fadd fl) (data U')
                          (zip_with (fsub fl) (data gi) (data U)) !! p = Some r ->
            exists g, data gi !! p = Some g /\ fin r /\
                      (Qabs (val r - val g) <= e' + level_error u B eta)%Q) as Hpoint.
    { intros p r Hr.
      apply lookup_zip_with_Some in Hr as (x' & d & -> & Hx' & Hd).
      apply lookup_zip_with_Some in Hd as (g & x & -> & Hg & Hx).
      exists g. split; [exact Hg|].
      destruct (Hbgi p g Hg) as [Fg Hvg]. destruct (HbU p x Hx) as [Fx Hvx].
      destruct (HbU' p x' Hx') as [Fx' Hvx'].
      assert (Qabs (val g - val x) <= 2 * B)%Q as Hgx.
      { apply Qabs_Qle_condition in Hvg as [? ?], Hvx as [? ?].
        apply Qabs_Qle_condition. split; lra. }
      destruct (sub_model fl fin val u tiny huge model g x Fg Fx ltac:(lra)) as [Fd Hde].
      pose proof (abs_le_scaled u _ _ _ Hu0 Hgx Hde) as Hd'.
      assert (0 <= u * B)%Q as HuB by (apply Qmult_le_0_compat; lra).
      assert (u * B <= B)%Q as HuB1.
      { assert (0 <= (1 - u) * B)%Q by (apply Qmult_le_0_compat; lra). lra. }
      assert (Qabs (val x' + val (fsub fl g x)) <= huge)%Q as Hrange.
      { apply Qabs_Qle_condition in Hvx' as [? ?], Hd' as [? ?], Hgx as [? ?].
        apply Qabs_Qle_condition. split; lra. }
      destruct (add_model fl fin val u tiny huge model x' (fsub fl g x) Fx' Fd Hrange)
        as [Fr Hre].
      split; [exact Fr|].
      pose proof (recon_error u B e' eta (val x') (val x) (val g)
                    (val (fsub fl g x)) (val (fadd fl x' (fsub fl g x)))
                    Hu0 ltac:(lra) He0 eta_nonneg (HUU p x' x Hx' Hx)
                    ltac:(lra) ltac:(lra) Hde Hre) as Herr.
      eapply Qle_trans; [exact Herr|].
      assert (0 <= u * (1 - e'))%Q by (apply Qmult_le_0_compat; lra).
      lra. }
    split.
    - intros p r Hr. cbn [data] in Hr.
      destruct (Hpoint p r Hr) as (g & Hg & Fr & Herr).
      split; [exact Fr|]. destruct (Hbgi p g Hg) as [_ Hvg].
      apply Qabs_Qle_condition in Hvg as [? ?], Herr as [? ?].
      apply Qabs_Qle_condition. unfold Bg in *. split; lra.
    - exists gi. split; [assumption|].
      split; [destruct Hsr as [-> _]; now destruct Hsgi as [-> _]|].
      split; [exact (has_shape_length _ _ _ Hsr Hsgi)|].
      intros p r y Hr Hy. cbn [data] in Hr.
      destruct (Hpoint p r Hr) as (g & Hg & _ & Herr).
      rewrite Hg in Hy. injection Hy as <-.
      eapply Qle_trans; [exact Herr|]. rewrite Hnq. lra. }
  rewrite Eout. exists out. split; [reflexivity|]. split; [reflexivity|].
  split; [exact Hout|].
  rewrite Hg0 in Hg0'. injection Hg0' as <-.
  eapply close_weaken; [|exact Hclose].
  rewrite Nat.sub_0_r.
  assert (nq n <= nq (depth levels))%Q as Hle by (apply nq_le; unfold n; lia).
  assert (0 <= (nq (depth levels) - nq n) * level_error u B eta)%Q
    by (apply Qmult_le_0_compat; lra).
  lra.
Qed.

End Reconstruction.

(** *** Nearest-neighbour resampling is stable *)

Lemma gather_lookup {A : Type} (sh : list nat) (f : nat -> A) (p : nat) (x : A) :
  data (gather sh f) !! p = Some x -> x = f p.
Proof.
  unfold gather. cbn [data]. intros H.
  apply map_lookup_inv in H as (k & Hk & ->).
  apply lookup_seq in Hk as [-> _]. reflexivity.
Qed.

Lemma nth_bounded (B : Q) (a : ndarray Q) (i : nat) :
  (0 <= B)%Q -> bounded (fun _ => True) (fun x => x) B a ->
  (Qabs (nth i (data a) 0%Q) <= B)%Q.
Proof.
  intros HB Ha. destruct (nth_lookup_or_length (data a) i 0%Q) as [H|H].
  - exact (proj2 (Ha i _ H)).
  - rewrite nth_overflow by lia. exact HB.
Qed.

Lemma nth_close (e : Q) (a b : ndarray Q) (i : nat) :
  (0 <= e)%Q -> close (fun x => x) e a b ->
  (Qabs (nth i (data a) 0%Q - nth i (data b) 0%Q) <= e)%Q.
Proof.
  intros He (_ & Hlen & Hpt).
  destruct (nth_lookup_or_length (data a) i 0%Q) as [Ha|Ha],
           (nth_lookup_or_length (data b) i 0%Q) as [Hb|Hb].
  - exact (Hpt i _ _ Ha Hb).
  - apply lookup_lt_Some in Ha. lia.
  - apply lookup_lt_Some in Hb. lia.
  - rewrite !nth_overflow by lia. exact He.
Qed.

Lemma nn_down_inv {A : Type} (d : A) (a g : ndarray A) :
  nn_down d a = Ret g ->
  exists sh f, g = gather sh (fun o => nth (f o) (data a) d).
Proof.
  unfold nn_down. destruct (shape a) as [|h [|w rest]]; try discriminate.
  destruct ((0 <? h) && (0 <? w))%nat; [|discriminate].
  intros [= <-]. unfold at3. eexists _, _. reflexivity.
Qed.

Lemma nn_up_inv {A : Type} (d : A) (a g : ndarray A) (dstsize : nat * nat) :
  nn_up d a dstsize = Ret g ->
  exists sh (f : list nat -> nat -> nat),
    g = gather sh (fun o => nth (f (shape a) o) (data a) d) /\
    forall b gb, shape b = shape a -> nn_up d b dstsize = Ret gb ->
                 gb = gather sh (fun o => nth (f (shape a) o) (data b) d).
Proof.
  unfold nn_up. destruct dstsize as [w' h'].
  destruct (shape a) as [|h [|w rest]] eqn:Es; try discriminate.
  destruct ((h =? half h') && (w =? half w') && (0 <? h') && (0 <? w'))%nat eqn:Ec;
    [|discriminate].
  intros [= <-]. unfold at3.
  exists (h' :: w' :: rest),
    (fun sh o => match sh with
                 | _ :: w :: rest =>
                     ((o / (size_of rest * w') / 2 * w + (o / size_of rest) mod w' / 2)
                      * size_of rest + o mod size_of rest)%nat
                 | _ => 0%nat
                 end).
  split; [reflexivity|].
  intros b gb Hb. rewrite Hb, Ec. now intros [= <-].
Qed.

Lemma nn_stable (B eta : Q) :
  (0 <= eta)%Q -> cv2_stable nn (fun _ => True) (fun x => x) B eta.
Proof.
  intros Heta. constructor; cbn [nn pyrDown pyrUp].
  - intros a g b Hb0 _ Ha Hg. apply nn_down_inv in Hg as (sh & f & ->).
    intros p x Hx. apply gather_lookup in Hx as ->. split; [exact I|].
    pose proof (nth_bounded b a (f p) Hb0 Ha). lra.
  - intros a dstsize g b Hb0 _ Ha Hg. apply nn_up_inv in Hg as (sh & f & -> & _).
    intros p x Hx. apply gather_lookup in Hx as ->. split; [exact I|].
    pose proof (nth_bounded b a (f (shape a) p) Hb0 Ha). lra.
  - intros a b dstsize ga gb e He _ Hab _ _ Hga Hgb.
    apply nn_up_inv in Hga as (sh & f & -> & Hsame).
    pose proof Hab as (Hs & _ & _).
    rewrite (Hsame b gb (eq_sym Hs) Hgb).
    split; [reflexivity|]. split.
    + unfold gather. cbn [data]. now rewrite !length_map.
    + intros p x y Hx Hy. apply gather_lookup in Hx as ->, Hy as ->.
      pose proof (nth_close e a b (f (shape a) p) He Hab). lra.
Qed.

Lemma flat_float_shape (h w : nat) (v : Q) : has_shape [h; w; 3%nat] (flat_float h w v).
Proof.
  split; [reflexivity|]. unfold wf, flat_float. cbn [shape data size_of fold_right].
  rewrite repeat_length. lia.
Qed.

Lemma flat_float_bounded (h w : nat) (v B : Q) :
  (Qabs v <= B)%Q -> bounded (fun _ => True) (fun x => x) B (flat_float h w v).
Proof.
  intros Hv p x Hx. unfold flat_float in Hx. cbn [data] in Hx.
  apply list_elem_of_lookup_2, list_elem_of_In, repeat_spec in Hx. now subst x.
Qed.

Lemma reconstruct_laplacian_witness :
  exists pyr out,
    _laplacian_pyramid exact nn (flat_float 16 8 (4 # 5)) 2 = Ret pyr /\
    _reconstruct exact nn pyr = Ret out /\
    has_shape [16; 8; 3]%nat out /\
    close (fun x => x) (1 # 1000000) out (flat_float 16 8 (4 # 5)).
Proof.
  apply (reconstruct_laplacian exact nn (fun _ => True) (fun x => x)
           (1 # 9007199254740992) (1 # 1000000000000000000000000000000)
           1000000000000000000000000000000 3 (1 # 1000000000000) nn_ok
           (exact_model (1 # 9007199254740992) (1 # 1000000000000000000000000000000)
              1000000000000000000000000000000
              ltac:(lra) ltac:(lra) ltac:(lra) ltac:(lra) ltac:(lra))
           (nn_stable 3 (1 # 1000000000000) ltac:(lra))
           ltac:(lra) [3%nat] 16 8 (flat_float 16 8 (4 # 5)) 2 1).
  - lia.
  - lia.
  - apply flat_float_shape.
  - lra.
  - apply flat_float_bounded. vm_compute. discriminate.
  - vm_compute. discriminate.
  - vm_compute. discriminate.
  - vm_compute. discriminate.
Defined.

End FusionFacts.

(* ===================================================================== *)
(** * Further properties of the store, the server, the worker and the
      engine                                                              *)
(* ===================================================================== *)

(** ** The store: reading and writing *)

Module StoreLaws.
Import PyStr Store PyStrFacts StoreFacts.

(** *** What [get_data] hands to [jsonify] *)

Lemma sanitize_json_safe (v : pyval) : json_safe (sanitize_value v) = true.
Proof.
  induction v as [| | | | |l IH|l IH|d IH|] using pyval_induction;
    cbn [sanitize_value json_safe]; try reflexivity.
  - induction IH as [|x l Hx _ IHl]; [reflexivity|]. cbn [List.map forallb].
    now rewrite Hx, IHl.
  - induction IH as [|x l Hx _ IHl]; [reflexivity|]. cbn [List.map forallb].
    now rewrite Hx, IHl.
  - induction IH as [|[k x] d Hx _ IHd]; [reflexivity|]. cbn [List.map forallb fst snd] in *.
    now rewrite Hx, IHd.
Qed.

Lemma sanitize_fixed (v : pyval) : json_safe v = true -> sanitize_value v = v.
Proof.
  induction v as [| | | | |l IH|l IH|d IH|] using pyval_induction;
    cbn [sanitize_value json_safe]; try reflexivity; try discriminate.
  - intros H. f_equal. induction IH as [|x l Hx _ IHl]; [reflexivity|].
    cbn [forallb] in H. apply andb_prop in H as [H1 H2].
    cbn [List.map]. now rewrite Hx, IHl.
  - intros H. f_equal. induction IH as [|[k x] d Hx _ IHd]; [reflexivity|].
    cbn [forallb fst snd] in *. apply andb_prop in H as [H1 H2].
    cbn [List.map fst snd]. now rewrite Hx, IHd.
Qed.

(** X1.  Whatever [get_data] returns is built from [None], booleans,
    numbers, strings, lists and dicts only: no tuple and no foreign object
    is left anywhere in it, at any depth. *)
Theorem get_data_json_safe (s : pyval) (v sep : string) (x : pyval) :
  get_data s v sep = Ok x -> json_safe x = true.
Proof.
  unfold get_data. destruct (resolve_path s v sep) as [value|c w]; [|discriminate].
  intros [= <-]. apply sanitize_json_safe.
Qed.

Lemma get_data_json_safe_witness :
  json_safe (PList [PNone; PNone]) = true.
Proof.
  apply (get_data_json_safe Preview.initial_state "camera/0/latest_frame_data" "/"
           (PList [PNone; PNone])).
  reflexivity.
Defined.

(** X2.  [sanitize_value] leaves a value as it is exactly when the value
    holds no tuple and no foreign object, and sanitizing twice is the same
    as sanitizing once. *)
Theorem sanitize_fixed_points (v : pyval) :
  (sanitize_value v = v <-> json_safe v = true) /\
  sanitize_value (sanitize_value v) = sanitize_value v.
Proof.
  split; [split|].
  - intros H. rewrite <- H. apply sanitize_json_safe.
  - apply sanitize_fixed.
  - apply sanitize_fixed, sanitize_json_safe.
Qed.

(** *** What [set_data] changes and what it leaves *)

Lemma dict_get_set_other (d : list (string * pyval)) (key other : string) (val : pyval) :
  other <> key -> dict_get (dict_set d key val) other = dict_get d other.
Proof.
  intros Hne. induction d as [|[k v] d IH]; cbn [dict_set dict_get].
  - destruct (String.eqb key other) eqn:E; [|reflexivity].
    apply String.eqb_eq in E. congruence.
  - destruct (String.eqb k key) eqn:E; cbn [dict_get].
    + apply String.eqb_eq in E. subst k.
      destruct (String.eqb key other) eqn:E2; [|reflexivity].
      apply String.eqb_eq in E2. congruence.
    + now rewrite IH.
Qed.

Lemma resolve_app (before rest : list string) (s : pyval) :
  resolve_parts s (before ++ rest)
  = match resolve_parts s before with
    | Ok node => resolve_parts node rest
    | Abort c w => Abort c w
    end.
Proof.
  revert s. induction before as [|b bs IH]; intros s; [reflexivity|].
  cbn [app resolve_parts].
  destruct s; try reflexivity.
  - destruct (PyStr.int b) as [z|]; [|reflexivity]. destruct (seq_get l z); auto.
  - destruct (PyStr.int b) as [z|]; [|reflexivity]. destruct (seq_get l z); auto.
  - destruct (dict_get d b); auto.
Qed.

(** What a [set_data] that succeeded has done. *)
Lemma set_value_inv (s : pyval) (k sep : string) (val s' : pyval) :
  set_value s k val sep = Ok s' ->
  exists parts parent parent',
    split_parts k sep = Some parts /\ parts <> [] /\
    resolve_parts s (removelast parts) = Ok parent /\
    assign parent (List.last parts EmptyString) val = Ok parent' /\
    s' = replace_at s (removelast parts) parent'.
Proof.
  unfold set_value. destruct k as [|c k']; [discriminate|].
  destruct (split_parts (String c k') sep) as [parts|] eqn:Hk; [|discriminate].
  pose proof (parent_parts _ _ _ Hk) as Hpp.
  destruct parts as [|p0 ps0] eqn:Eparts; [discriminate|].
  rewrite <- Eparts in *. cbv zeta. rewrite Hpp. cbn [default].
  assert (match join sep (removelast parts) with
          | EmptyString => Ok s
          | String _ _ => resolve_path s (join sep (removelast parts)) sep
          end = resolve_parts s (removelast parts)) as ->.
  { unfold resolve_path. rewrite Hpp.
    destruct (join sep (removelast parts)) eqn:E; [|reflexivity].
    unfold path_parts in Hpp. injection Hpp as <-. reflexivity. }
  destruct (resolve_parts s (removelast parts)) as [parent|c0 w0] eqn:Hres; [|discriminate].
  destruct (assign parent (List.last parts EmptyString) val) as [parent'|c1 w1] eqn:Ha;
    [|discriminate].
  intros [= <-]. exists parts, parent, parent'.
  split; [reflexivity|]. split; [subst parts; discriminate|]. auto.
Qed.

Lemma assign_inv (parent parent' : pyval) (target_key : string) (val : pyval) :
  assign parent target_key val = Ok parent' ->
  settable parent target_key /\ resolve_parts parent' [target_key] = Ok val.
Proof.
  destruct parent as [| | | | |l| |d|]; cbn [assign settable]; try discriminate.
  - destruct (PyStr.int target_key) as [idx|] eqn:Hi; [|discriminate].
    destruct (seq_set l idx val) as [l'|] eqn:Hs; [|discriminate].
    intros [= <-]. split.
    + exists idx. split; [reflexivity|].
      unfold seq_set in Hs.
      destruct (norm_index (length l) idx) eqn:E; [|discriminate].
      destruct (Z_lt_dec idx (- Z.of_nat (length l))) as [H1|H1];
        [assert (norm_index (length l) idx = None) by (apply norm_index_out_of_range; lia);
         congruence|].
      destruct (Z_le_dec (Z.of_nat (length l)) idx) as [H2|H2];
        [assert (norm_index (length l) idx = None) by (apply norm_index_out_of_range; lia);
         congruence|].
      lia.
    + cbn [resolve_parts]. rewrite Hi. now rewrite (seq_get_set_same _ _ _ _ Hs).
  - intros [= <-]. split; [exact I|].
    cbn [resolve_parts]. now rewrite dict_get_set_same.
Qed.

(** Below a dict, what is stored under one key is out of the way of every
    path that takes another key. *)
Lemma replace_other_branch (pre : list string) :
  forall (s : pyval) (d : list (string * pyval)) (t t2 : string)
         (q r : list string) (new : pyval),
  resolve_parts s pre = Ok (PDict d) -> t2 <> t ->
  resolve_parts (replace_at s (pre ++ t :: q) new) (pre ++ t2 :: r)
  = resolve_parts s (pre ++ t2 :: r).
Proof.
  induction pre as [|part pre IH]; intros s d t t2 q r new H Hne.
  - cbn [resolve_parts] in H. injection H as ->.
    cbn [app replace_at]. destruct (dict_get d t) as [child|]; [|reflexivity].
    cbn [resolve_parts]. now rewrite dict_get_set_other by assumption.
  - cbn [resolve_parts replace_at app] in *.
    destruct s as [| | | | |l|l|d0|]; try discriminate.
    + destruct (PyStr.int part) as [idx|]; [|discriminate].
      unfold seq_get in *.
      destruct (norm_index (length l) idx) as [i|] eqn:E; [|discriminate].
      destruct (l !! i) as [child|] eqn:El; [|discriminate].
      cbn [resolve_parts]. rewrite length_insert. unfold seq_get. rewrite E.
      rewrite list_lookup_insert_eq by (eapply norm_index_lt; eassumption).
      eapply IH; eassumption.
    + destruct (PyStr.int part) as [idx|]; [|discriminate].
      unfold seq_get in *.
      destruct (norm_index (length l) idx) as [i|] eqn:E; [|discriminate].
      destruct (l !! i) as [child|] eqn:El; [|discriminate].
      cbn [resolve_parts]. rewrite length_insert. unfold seq_get. rewrite E.
      rewrite list_lookup_insert_eq by (eapply norm_index_lt; eassumption).
      eapply IH; eassumption.
    + destruct (dict_get d0 part) as [child|] eqn:E; [|discriminate].
      cbn [resolve_parts]. rewrite dict_get_set_same. eapply IH; eassumption.
Qed.

(** X3.  A [set_data] that succeeds leaves every other branch alone:
    when the path written and the path read part at a dict, under
    different keys, [get_data] on the path read answers after the write
    what it answered before, a failure included. *)
Theorem set_keeps_other_keys (s s' : pyval) (k k2 sep : string) (val : pyval)
    (pre rest rest2 : list string) (t t2 : string) (d : list (string * pyval)) :
  split_parts k sep = Some (pre ++ t :: rest) ->
  path_parts k2 sep = Some (pre ++ t2 :: rest2) ->
  resolve_parts s pre = Ok (PDict d) ->
  t2 <> t ->
  set_value s k val sep = Ok s' ->
  get_data s' k2 sep = get_data s k2 sep.
Proof.
  intros Hk Hk2 Hpre Hne Hset.
  destruct (set_value_inv _ _ _ _ _ Hset) as (parts & parent & parent' & Hp & _ & Hres & Ha & ->).
  rewrite Hk in Hp. injection Hp as <-.
  unfold get_data, resolve_path. rewrite Hk2.
  assert (resolve_parts (replace_at s (removelast (pre ++ t :: rest)) parent') (pre ++ t2 :: rest2)
          = resolve_parts s (pre ++ t2 :: rest2)) as ->; [|reflexivity].
  assert (removelast (pre ++ t :: rest) = pre ++ removelast (t :: rest)) as Hrl
    by (apply removelast_app; discriminate).
  rewrite Hrl in *. clear Hrl.
  destruct rest as [|r0 rest].
  - cbn [removelast] in *. rewrite app_nil_r in *.
    rewrite Hpre in Hres. injection Hres as <-.
    cbn [assign] in Ha. injection Ha as <-.
    rewrite (resolve_replace _ _ _ _ _ Hpre), resolve_app, Hpre.
    cbn [resolve_parts]. rewrite List.last_last.
    now rewrite dict_get_set_other by assumption.
  - change (removelast (t :: r0 :: rest)) with (t :: removelast (r0 :: rest)).
    eapply replace_other_branch; eassumption.
Qed.

Lemma set_keeps_other_keys_witness :
  get_data (PDict [("camera"%string,
          PDict [("0"%string, PDict [("fusion_state"%string, PStr "REQUESTED")]);
                 ("2"%string, PDict [("fusion_state"%string, PStr "IDLE")])])])
     "camera/2/fusion_state" "/"
  = get_data (PDict [("camera"%string,
          PDict [("0"%string, PDict [("fusion_state"%string, PStr "IDLE")]);
                 ("2"%string, PDict [("fusion_state"%string, PStr "IDLE")])])])
     "camera/2/fusion_state" "/".
Proof.
  apply (set_keeps_other_keys
           (PDict [("camera"%string,
              PDict [("0"%string, PDict [("fusion_state"%string, PStr "IDLE")]);
                     ("2"%string, PDict [("fusion_state"%string, PStr "IDLE")])])])
           _ "camera/0/fusion_state" "camera/2/fusion_state" "/"
           (PStr "REQUESTED") ["camera"%string] ["fusion_state"%string] ["fusion_state"%string]
           "0" "2"
           [("0"%string, PDict [("fusion_state"%string, PStr "IDLE")]);
            ("2"%string, PDict [("fusion_state"%string, PStr "IDLE")])]).
  - reflexivity.
  - reflexivity.
  - reflexivity.
  - discriminate.
  - reflexivity.
Defined.

(** X4.  On an ASCII path, [set_data] succeeds exactly when the path has
    a last segment, its segments before the last resolve, and the parent
    can take the last segment: any key for a dict, an index inside the
    list for a list. *)
Theorem set_succeeds_iff (s : pyval) (k sep : string) (val : pyval) :
  is_ascii k = true ->
  (exists s', set_value s k val sep = Ok s') <->
  (exists parts parent,
     split_parts k sep = Some parts /\ parts <> [] /\
     resolve_parts s (removelast parts) = Ok parent /\
     settable parent (List.last parts EmptyString)).
Proof.
  intros _. split.
  - intros [s' H]. destruct (set_value_inv _ _ _ _ _ H) as (parts & parent & parent' & Hp & Hne & Hres & Ha & _).
    exists parts, parent. repeat split; try assumption.
    eapply assign_inv; eassumption.
  - intros (parts & parent & Hk & Hne & Hres & Hset).
    pose proof (split_parts_nonempty_path _ _ _ Hk Hne) as Hk0.
    pose proof (parent_parts _ _ _ Hk) as Hpp.
    destruct (assign_ok _ _ val Hset) as (parent' & Ha & Hr).
    exists (replace_at s (removelast parts) parent').
    unfold set_value. destruct k as [|c k']; [congruence|].
    rewrite Hk. destruct parts as [|p0 ps0] eqn:Eparts; [congruence|].
    rewrite <- Eparts in *. cbv zeta. rewrite Hpp. cbn [default].
    assert (match join sep (removelast parts) with
            | EmptyString => Ok s
            | String _ _ => resolve_path s (join sep (removelast parts)) sep
            end = Ok parent) as ->.
    { unfold resolve_path. rewrite Hpp.
      destruct (join sep (removelast parts)) eqn:E; [|assumption].
      unfold path_parts in Hpp. injection Hpp as Hnil.
      rewrite <- Hnil in Hres. now injection Hres as ->. }
    now rewrite Ha.
Qed.

Lemma set_succeeds_iff_witness :
  (exists s', set_value store_ab "a/b/-1" (PInt 7) "/" = Ok s') <->
  (exists parts parent,
     split_parts "a/b/-1" "/" = Some parts /\ parts <> [] /\
     resolve_parts store_ab (removelast parts) = Ok parent /\
     settable parent (List.last parts EmptyString)).
Proof. apply (set_succeeds_iff store_ab "a/b/-1" "/" (PInt 7)). reflexivity. Defined.

Section HttpRoundTrip.
Variable py_float : string -> option float.

Lemma parse_value_scalar (v : string) :
  sanitize_value (_parse_value py_float v) = _parse_value py_float v.
Proof.
  unfold _parse_value.
  destruct (String.eqb (lower v) "true"); [reflexivity|].
  destruct (String.eqb (lower v) "false"); [reflexivity|].
  destruct (PyStr.int v); [reflexivity|].
  destruct (py_float v); reflexivity.
Qed.

(** X5.  Whenever [set_data] succeeds for [k] and the ASCII text [v],
    [get_data] on [k] with the same separator returns the value that
    [_parse_value] read from [v], unchanged: a parsed value is a scalar
    and [sanitize_value] leaves it. *)
Theorem set_data_then_get_data (s s' : pyval) (k v sep : string) :
  is_ascii v = true ->
  set_data py_float s k v sep = Ok s' ->
  get_data s' k sep = Ok (_parse_value py_float v).
Proof.
  unfold set_data. intros _ H.
  destruct (set_value_inv _ _ _ _ _ H) as (parts & parent & parent' & Hk & Hne & Hres & Ha & ->).
  destruct (assign_inv _ _ _ _ Ha) as [_ Hr].
  pose proof (split_parts_nonempty_path _ _ _ Hk Hne) as Hk0.
  unfold get_data, resolve_path, path_parts.
  destruct k as [|c k']; [congruence|]. rewrite Hk.
  rewrite (app_removelast_last EmptyString Hne) at 2.
  erewrite resolve_replace by eassumption. rewrite Hr.
  now rewrite parse_value_scalar.
Qed.
End HttpRoundTrip.

Lemma set_data_then_get_data_witness :
  get_data (PDict [("a"%string, PDict [("b"%string, PList [PInt 10; PInt 99; PInt 30])])])
    "a/b/-2" "/"
  = Ok (_parse_value (fun _ => None) "99").
Proof.
  apply (set_data_then_get_data (fun _ => None) store_ab _ "a/b/-2" "99" "/");
    reflexivity.
Defined.

(** *** Failures and separators *)

(** X6.  [set_data] never answers 404: every failure is a 400, a parent
    that does not resolve included, except the empty separator on a path
    that is not empty, which leaves [str.split] with a [ValueError]
    outside the [try] and ends as 500. *)
Theorem set_abort_code (s : pyval) (k sep : string) (val : pyval) (c : Z) (w : failure) :
  set_value s k val sep = Abort c w ->
  c = if nonempty k && negb (nonempty sep) then 500 else 400.
Proof.
  unfold set_value. destruct k as [|a k']; [now intros [= <- _]|].
  cbn [nonempty andb].
  destruct sep as [|b sep'].
  - unfold split_parts, split. now intros [= <- _].
  - cbn [nonempty negb].
    destruct (split_parts (String a k') (String b sep')) as [parts|] eqn:Hk.
    2:{ unfold split_parts, split in Hk. discriminate. }
    destruct parts as [|p0 ps0]; [now intros [= <- _]|]. cbv zeta.
    destruct (match join _ _ with EmptyString => _ | _ => _ end) as [parent|c0 w0];
      [|now intros [= <- _]].
    destruct (assign parent _ val) as [parent'|c1 w1]; [discriminate|now intros [= <- _]].
Qed.

Lemma set_abort_code_witness :
  400 = if nonempty "a/b/5" && negb (nonempty "/") then 500 else 400.
Proof.
  apply (set_abort_code store_ab "a/b/5" "/" (PInt 99) 400 (IndexOutOfRange 5)).
  reflexivity.
Defined.

Lemma split_parts_leading (sep path : string) :
  sep <> EmptyString -> split_parts (sep +:+ path) sep = split_parts path sep.
Proof.
  intros Hne. unfold split_parts, split. destruct sep as [|c sep']; [congruence|].
  now rewrite split_go_match by discriminate.
Qed.

(** X7.  Separators in front of a path are ignored: [get_data] answers on
    [sep + k] what it answers on [k], and so does [set_data] for a [k]
    that is not empty. *)
Theorem leading_separator (s : pyval) (k sep : string) (val : pyval) :
  sep <> EmptyString ->
  get_data s (sep +:+ k) sep = get_data s k sep /\
  (k <> EmptyString -> set_value s (sep +:+ k) val sep = set_value s k val sep).
Proof.
  intros Hne. pose proof (split_parts_leading sep k Hne) as Hl.
  destruct sep as [|c sep']; [congruence|].
  change (String c sep' +:+ k) with (String c (sep' +:+ k)) in *. split.
  - unfold get_data, resolve_path, path_parts. rewrite Hl.
    destruct k; reflexivity.
  - intros Hk. unfold set_value. rewrite Hl. destruct k; [congruence|reflexivity].
Qed.

Lemma leading_separator_witness :
  get_data store_ab ("/" +:+ "a/b/1") "/" = get_data store_ab "a/b/1" "/" /\
  ("a/b/1"%string <> EmptyString ->
   set_value store_ab ("/" +:+ "a/b/1") (PInt 7) "/" = set_value store_ab "a/b/1" (PInt 7) "/").
Proof.
  apply (leading_separator store_ab "a/b/1" "/" (PInt 7)). discriminate.
Defined.

(** X8.  [set_data] joins the segments before the last into the parent
    path and [resolve_path] splits that path again.  For any separator,
    of one character or more, the same segments come back, so the parent
    is the node that the segments before the last lead to. *)
Theorem parent_path_round_trip (s : pyval) (k sep : string) (parts : list string) :
  split_parts k sep = Some parts ->
  path_parts (join sep (removelast parts)) sep = Some (removelast parts) /\
  resolve_path s (join sep (removelast parts)) sep = resolve_parts s (removelast parts).
Proof.
  intros Hk. pose proof (parent_parts _ _ _ Hk) as Hpp.
  split; [exact Hpp|]. unfold resolve_path. now rewrite Hpp.
Qed.

Lemma parent_path_round_trip_witness :
  path_parts (join "--" (removelast ["a"; "b"; "1"]%string)) "--"
    = Some (removelast ["a"; "b"; "1"]%string) /\
  resolve_path store_ab (join "--" (removelast ["a"; "b"; "1"]%string)) "--"
    = resolve_parts store_ab (removelast ["a"; "b"; "1"]%string).
Proof.
  apply (parent_path_round_trip store_ab "a--b----1" "--" ["a"; "b"; "1"]%string).
  reflexivity.
Defined.

End StoreLaws.

(** ** The server: images and the mailbox *)

Module ServerLaws.
Import PyStr Store Worker Preview PyStrFacts StoreFacts.

Section Route.
Variable obj_truth : string -> option bool.
Variable obj_len : string -> option nat.
Variable obj_item1 : string -> option pyval.
Variable imencode_ok : bool.

(** X9.  For a camera that the worker keeps, [get_image] answers by what
    the worker has published: [im=latest_frame] is served as a JPEG once a
    frame was read and is 404 before, [im=fused_result] is served once a
    fusion result is there and is 404 before; a served image is 500 only
    when [cv2.imencode] fails. *)
Theorem image_of_camera {frame : Type} (s setting : pyval)
    (cams : list (string * pyval)) (cam_id : string) (c : cam_config frame) :
  py_get s "camera" = Served (PDict cams) ->
  dict_get cams cam_id = Some (cam_record setting c) ->
  let jpeg := if imencode_ok then Served (Encoded ndarray_class) else Refused 500 in
  get_image obj_truth obj_len obj_item1 imencode_ok s cam_id "latest_frame"
    = match latest_frame_data c with Some _ => jpeg | None => Refused 404 end /\
  get_image obj_truth obj_len obj_item1 imencode_ok s cam_id "fused_result"
    = match fused_result c with Some _ => jpeg | None => Refused 404 end.
Proof.
  intros Hs Hc. unfold get_image, _get_camera_node. rewrite Hs.
  assert (truthy obj_truth (PDict cams) = Some true) as ->
    by (destruct cams; [discriminate|reflexivity]).
  cbn [py_get]. rewrite Hc. unfold cam_record.
  split.
  - destruct (latest_frame_data c); cbn; destruct imencode_ok; reflexivity.
  - destruct (fused_result c); cbn; destruct imencode_ok; reflexivity.
Qed.

(** X10.  A camera that is not in the table is 404 whatever [im] asks
    for, a key that a known camera would refuse with 400 included; so is
    every camera when [shared_state] has no camera table. *)
Theorem unknown_camera (d : list (string * pyval)) (cam_id im_key : string) :
  im_key <> EmptyString ->
  (dict_get d "camera" = None \/ dict_get d "camera" = Some PNone \/
   exists cams, dict_get d "camera" = Some (PDict cams) /\
                (dict_get cams cam_id = None \/ dict_get cams cam_id = Some PNone)) ->
  get_image obj_truth obj_len obj_item1 imencode_ok (PDict d) cam_id im_key = Refused 404.
Proof.
  intros Him H. unfold get_image, _get_camera_node.
  destruct im_key as [|a im']; [congruence|]. cbn [py_get].
  destruct H as [-> | [-> | (cams & -> & H)]]; cbn [truthy py_get dict_get]; try reflexivity.
  destruct cams as [|kv cams']; [reflexivity|]. cbn [py_get].
  destruct H as [-> | ->]; reflexivity.
Qed.

End Route.

Lemma image_of_camera_witness :
  let s := PDict [("camera"%string,
                   PDict [("0"%string,
                           cam_record PNone (mk_cam true READY (Some 40%Q) None))])] in
  get_image (fun _ => None) (fun _ => None) (fun _ => None) true s "0" "latest_frame"
    = Served (Encoded ndarray_class) /\
  get_image (fun _ => None) (fun _ => None) (fun _ => None) true s "0" "fused_result"
    = Refused 404.
Proof.
  apply (image_of_camera (fun _ => None) (fun _ => None) (fun _ => None) true
           _ PNone
           [("0"%string, cam_record PNone (mk_cam true READY (Some 40%Q) None))]
           "0" (mk_cam true READY (Some 40%Q) None)); reflexivity.
Defined.

Lemma unknown_camera_witness :
  get_image (fun _ => None) (fun _ => None) (fun _ => None) true
    (PDict [("camera"%string, PDict [("0"%string, PDict [])])]) "7" "nonsense"
  = Refused 404.
Proof.
  apply (unknown_camera (fun _ => None) (fun _ => None) (fun _ => None) true
           [("camera"%string, PDict [("0"%string, PDict [])])] "7" "nonsense").
  - discriminate.
  - right. right. eexists. split; [reflexivity|]. left. reflexivity.
Defined.

(** *** The mailbox through the store *)

Lemma set_value_at (s : pyval) (k sep : string) (val : pyval)
    (parts : list string) (parent parent' : pyval) :
  split_parts k sep = Some parts -> parts <> [] ->
  resolve_parts s (removelast parts) = Ok parent ->
  assign parent (List.last parts EmptyString) val = Ok parent' ->
  set_value s k val sep = Ok (replace_at s (removelast parts) parent').
Proof.
  intros Hk Hne Hres Ha.
  pose proof (split_parts_nonempty_path _ _ _ Hk Hne) as Hk0.
  pose proof (parent_parts _ _ _ Hk) as Hpp.
  unfold set_value. destruct k as [|c k']; [congruence|].
  rewrite Hk. destruct parts as [|p0 ps0] eqn:Eparts; [congruence|].
  rewrite <- Eparts in *. cbv zeta. rewrite Hpp. cbn [default].
  assert (match join sep (removelast parts) with
          | EmptyString => Ok s
          | String _ _ => resolve_path s (join sep (removelast parts)) sep
          end = Ok parent) as ->.
  { unfold resolve_path. rewrite Hpp.
    destruct (join sep (removelast parts)) eqn:E; [|assumption].
    unfold path_parts in Hpp. injection Hpp as Hnil.
    rewrite <- Hnil in Hres. now injection Hres as ->. }
  now rewrite Ha.
Qed.

Lemma mailbox_path_parts (cam_id : string) :
  clean "/" cam_id -> cam_id <> EmptyString ->
  split_parts (mailbox_path cam_id) "/" = Some ["camera"; cam_id; "fusion_state"]%string.
Proof.
  intros Hc Hne. unfold split_parts, split, mailbox_path.
  change ("camera/" +:+ cam_id +:+ "/fusion_state")
    with ("camera" +:+ ("/" +:+ (cam_id +:+ ("/" +:+ "fusion_state")))).
  rewrite split_go_clean; [|discriminate|cbn; tauto].
  rewrite split_go_clean; [|discriminate|exact Hc].
  cbn [split_go String.prefix]. cbn.
  destruct cam_id; [congruence|reflexivity].
Qed.

Section Mailbox.
Context {frame : Type}.
Variable py_float : string -> option float.

(** X11.  The mailbox over HTTP.  On the path [camera/<id>/fusion_state]
    that the dashboard sends, [get_data] returns the name of the value in
    the mailbox of that camera, and [set_data] with the name of a value
    stores that value in the mailbox and changes nothing else in
    [shared_state]: it is the external write of the worker's model. *)
Theorem mailbox_over_http (d cams : list (string * pyval)) (cam_id : string)
    (setting : pyval) (c : cam_config frame) (v : fusion_state) :
  clean "/" cam_id -> cam_id <> EmptyString ->
  dict_get d "camera" = Some (PDict cams) ->
  dict_get cams cam_id = Some (cam_record setting c) ->
  py_float (state_name v) = None ->
  get_data (PDict d) (mailbox_path cam_id) "/" = Ok (PStr (state_name (mailbox c))) /\
  set_data py_float (PDict d) (mailbox_path cam_id) (state_name v) "/"
  = Ok (PDict (dict_set d "camera"
                 (PDict (dict_set cams cam_id
                           (cam_record setting
                              (mk_cam (is_running c) v (latest_frame_data c)
                                 (fused_result c))))))).
Proof.
  intros Hc Hne Hd Hcam Hf.
  pose proof (mailbox_path_parts cam_id Hc Hne) as Hparts.
  split.
  - unfold get_data, resolve_path, path_parts. rewrite Hparts.
    unfold mailbox_path. change ("camera/" +:+ ?x) with (String "c" ("amera/" +:+ x)).
    cbn [resolve_parts]. rewrite Hd, Hcam. reflexivity.
  - unfold set_data.
    assert (_parse_value py_float (state_name v) = PStr (state_name v)) as ->.
    { unfold _parse_value. destruct v; cbn; cbn in Hf; now rewrite Hf. }
    rewrite (set_value_at (PDict d) _ "/" _ ["camera"; cam_id; "fusion_state"]%string
               (cam_record setting c)
               (cam_record setting
                  (mk_cam (is_running c) v (latest_frame_data c) (fused_result c)))
               Hparts ltac:(discriminate)).
    + cbn [removelast replace_at]. rewrite Hd. cbn [replace_at]. now rewrite Hcam.
    + cbn [removelast resolve_parts]. now rewrite Hd, Hcam.
    + reflexivity.
Qed.

End Mailbox.

Lemma mailbox_over_http_witness :
  get_data initial_state (mailbox_path "2") "/" = Ok (PStr (state_name (mailbox initial_cam))) /\
  set_data (fun _ => None) initial_state (mailbox_path "2") (state_name REQUESTED) "/"
  = Ok (PDict (dict_set
                 [("is_running"%string, PBool true); ("ipv4"%string, PStr "0.0.0.0");
                  ("port"%string, PInt 5000);
                  ("camera"%string,
                   PDict [("0"%string, cam_record initial_setting initial_cam);
                          ("2"%string, cam_record initial_setting initial_cam);
                          ("4"%string, cam_record initial_setting initial_cam);
                          ("6"%string, cam_record initial_setting initial_cam)])]
                 "camera"
                 (PDict (dict_set
                           [("0"%string, cam_record initial_setting initial_cam);
                            ("2"%string, cam_record initial_setting initial_cam);
                            ("4"%string, cam_record initial_setting initial_cam);
                            ("6"%string, cam_record initial_setting initial_cam)]
                           "2"
                           (cam_record initial_setting
                              (mk_cam (is_running initial_cam) REQUESTED
                                 (latest_frame_data initial_cam)
                                 (fused_result initial_cam))))))).
Proof.
  apply (mailbox_over_http (fun _ => None)
           [("is_running"%string, PBool true); ("ipv4"%string, PStr "0.0.0.0");
            ("port"%string, PInt 5000);
            ("camera"%string,
             PDict [("0"%string, cam_record initial_setting initial_cam);
                    ("2"%string, cam_record initial_setting initial_cam);
                    ("4"%string, cam_record initial_setting initial_cam);
                    ("6"%string, cam_record initial_setting initial_cam)])]
           [("0"%string, cam_record initial_setting initial_cam);
            ("2"%string, cam_record initial_setting initial_cam);
            ("4"%string, cam_record initial_setting initial_cam);
            ("6"%string, cam_record initial_setting initial_cam)]
           "2" initial_setting initial_cam REQUESTED).
  - cbn. tauto.
  - discriminate.
  - reflexivity.
  - reflexivity.
  - reflexivity.
Defined.

End ServerLaws.

(** ** The worker: live loop, bracket and shutdown *)

Module WorkerLaws.
Import Worker WorkerFacts.

#[local] Set Warnings "-inexact-float".

Section Loop.
Context {frame : Type}.
Variable mean : frame -> float.
Variable fuse : list frame -> option (option frame).

(** X12.  The live loop.  While the mailbox holds anything but
    [REQUESTED], [n] turns of the worker take [n] reads of the device and
    change nothing but the preview: [latest_frame_data] holds the last
    frame that was read with success, or what it held when every read
    failed; the mailbox, [READY] included, and [fused_result] stay. *)
Theorem live_loop (n : nat) (m : machine frame) :
  pos m = AtHead -> shared_running m = true -> is_running (cam m) = true ->
  is_requested (mailbox (cam m)) = false ->
  run mean fuse m (repeat WorkerTurn n)
  = mk_machine true
      (mk_cam true (mailbox (cam m))
         (keep_latest (latest_frame_data (cam m)) (take n (reads (outside m))))
         (fused_result (cam m)))
      AtHead
      (mk_world (drop n (reads (outside m))) (ticks (outside m))).
Proof.
  revert m. induction n as [|n IH]; intros [sr [ir mb lf fr] p [rs tk]];
    cbn [pos shared_running is_running cam mailbox latest_frame_data fused_result
         outside reads ticks]; intros -> -> -> Hreq.
  - reflexivity.
  - cbn [repeat]. change (run mean fuse ?m (WorkerTurn :: ?t))
      with (run mean fuse (worker_turn mean fuse m) t).
    unfold worker_turn at 1.
    cbn [pos shared_running is_running cam mailbox latest_frame_data fused_result
         outside andb].
    rewrite Hreq. unfold cap_read. cbn [reads ticks].
    destruct rs as [|[f|] rs]; rewrite IH by (try reflexivity; exact Hreq);
      cbn [pos shared_running is_running cam mailbox latest_frame_data fused_result
           outside reads ticks take drop]; unfold keep_latest; cbn [fold_left];
      rewrite ?take_nil, ?drop_nil; reflexivity.
Qed.

Lemma settle_loop_keeps (clock : list float) :
  forall (start_t last_mean : float) (st : settle_state)
         (pending : list (option frame)) (latest : option frame),
  latest <> None ->
  snd (settle_loop mean clock start_t last_mean st pending latest) <> None.
Proof.
  induction clock as [|now clock IH]; intros start_t last_mean st pending latest H;
    cbn [settle_loop]; [exact H|].
  destruct (flt (PrimFloat.sub now start_t) 2%float); [|exact H].
  destruct pending as [|[f|] pending]; try exact H.
  destruct (settle_iter last_mean (mean f) st) as [st' stop].
  destruct stop; [discriminate|]. apply IH. discriminate.
Qed.

Lemma bracket_step_some (w : world frame) (latest : option frame)
    (captured : list frame) (lm : float) (ev : Z) :
  latest <> None ->
  exists w' fr, bracket_step mean (w, latest, captured, lm) ev
                = (w', Some fr, captured ++ [fr], mean fr).
Proof.
  intros H. unfold bracket_step.
  destruct (ticks w) as [|start_t clock].
  - destruct latest as [fr|]; [|congruence]. now exists w, fr.
  - pose proof (settle_loop_keeps clock start_t lm settle_init (reads w) latest H) as Hk.
    destruct (settle_loop mean clock start_t lm settle_init (reads w) latest) as [w' latest'].
    cbn [snd] in Hk. destruct latest' as [fr|]; [|congruence]. now exists w', fr.
Qed.

(** What the three exposures leave when a frame was there before. *)
Lemma bracket_fold_some (w : world frame) (latest : option frame) (lm : float) :
  latest <> None ->
  exists w' f1 f2 f3,
    fold_left (bracket_step mean) BRACKET_SETTINGS (w, latest, [], lm)
    = (w', Some f3, [f1; f2; f3], mean f3).
Proof.
  intros H. cbn [BRACKET_SETTINGS fold_left].
  destruct (bracket_step_some w latest [] lm 5000 H) as (w1 & f1 & ->).
  destruct (bracket_step_some w1 (Some f1) ([] ++ [f1]) (mean f1) 1000 ltac:(discriminate))
    as (w2 & f2 & ->).
  destruct (bracket_step_some w2 (Some f2) (([] ++ [f1]) ++ [f2]) (mean f2) 20
              ltac:(discriminate)) as (w3 & f3 & ->).
  now exists w3, f1, f2, f3.
Qed.

(** X13.  A bracket that starts with a frame in [latest_frame_data]
    always hands three frames to [fuse], one per exposure, whatever the
    device and the clock do.  When [fuse] returns, its result is stored,
    the mailbox holds [READY] and the preview shows the third frame; when
    [fuse] raises, the thread ends with the mailbox and [fused_result] as
    they were. *)
Theorem bracket_three_frames (m : machine frame) :
  latest_frame_data (cam m) <> None ->
  exists f1 f2 f3,
    let m' := run_bracket mean fuse m in
    match fuse [f1; f2; f3] with
    | Some result =>
        pos m' = AtHead /\ mailbox (cam m') = READY /\
        fused_result (cam m') = result /\ latest_frame_data (cam m') = Some f3
    | None =>
        pos m' = Crashed /\ mailbox (cam m') = mailbox (cam m) /\
        fused_result (cam m') = fused_result (cam m)
    end.
Proof.
  intros H. unfold run_bracket.
  destruct (cap_read (outside m)) as [first w0].
  destruct (bracket_fold_some w0 (latest_frame_data (cam m))
              (match first with Some fr => mean fr | None => 0%float end) H)
    as (w1 & f1 & f2 & f3 & ->).
  exists f1, f2, f3. cbv zeta.
  destruct (fuse [f1; f2; f3]) as [result|].
  - destruct (cap_read w1). cbn. tauto.
  - cbn. tauto.
Qed.

Lemma worker_turn_keeps (m : machine frame) :
  latest_frame_data (cam m) <> None ->
  latest_frame_data (cam (worker_turn mean fuse m)) <> None.
Proof.
  intros H. unfold worker_turn. destruct (pos m); try exact H.
  - destruct (shared_running m && is_running (cam m)); [|exact H].
    destruct (is_requested (mailbox (cam m))); [exact H|].
    destruct (cap_read (outside m)) as [[fr|] w]; [discriminate|exact H].
  - unfold run_bracket.
    destruct (cap_read (outside m)) as [first w0].
    destruct (bracket_fold_some w0 (latest_frame_data (cam m))
                (match first with Some fr => mean fr | None => 0%float end) H)
      as (w1 & f1 & f2 & f3 & ->).
    destruct (fuse [f1; f2; f3]) as [result|]; [|discriminate].
    destruct (cap_read w1). discriminate.
Qed.

(** X14.  Once a frame is in [latest_frame_data] one stays there: no turn
    of the worker, in the live loop or in a bracket, and no write to the
    mailbox puts [(None, None)] back. *)
Theorem preview_never_lost (trace : list event) (m : machine frame) :
  latest_frame_data (cam m) <> None ->
  latest_frame_data (cam (run mean fuse m trace)) <> None.
Proof.
  revert m. induction trace as [|e trace IH]; intros m H; [exact H|].
  change (run mean fuse m (e :: trace)) with (run mean fuse (step mean fuse m e) trace).
  apply IH. destruct e as [v|]; [exact H|now apply worker_turn_keeps].
Qed.

Lemma settle_loop_dead (clock : list float) (start_t last_mean : float) (st : settle_state)
    (pending : list (option frame)) (latest : option frame) :
  Forall (fun r => r = None) pending ->
  exists w', settle_loop mean clock start_t last_mean st pending latest = (w', latest) /\
             Forall (fun r => r = None) (reads w').
Proof.
  intros H. destruct clock as [|now clock]; cbn [settle_loop].
  - now eexists.
  - destruct (flt (PrimFloat.sub now start_t) 2%float); [|now eexists].
    destruct H as [|r pending Hr H]; [now eexists|].
    subst r. now eexists.
Qed.

Lemma bracket_step_dead (w : world frame) (latest : option frame)
    (captured : list frame) (lm : float) (ev : Z) :
  Forall (fun r => r = None) (reads w) ->
  exists w', bracket_step mean (w, latest, captured, lm) ev
             = (w', latest,
                match latest with Some fr => captured ++ [fr] | None => captured end,
                match latest with Some fr => mean fr | None => lm end) /\
             Forall (fun r => r = None) (reads w').
Proof.
  intros H. unfold bracket_step.
  destruct (ticks w) as [|start_t clock].
  - exists w. destruct latest; auto.
  - destruct (settle_loop_dead clock start_t lm settle_init (reads w) latest H)
      as (w' & -> & H').
    exists w'. destruct latest; auto.
Qed.

(** X15.  A bracket on a device whose reads all fail reads no frame, so
    [latest_frame_data] stays.  With no frame there nothing is captured,
    [fuse] is not called, [fused_result] stays and the mailbox still goes
    to [READY].  With a frame [fr] there, that one stale frame is captured
    three times and [fuse [fr; fr; fr]] is what gets stored. *)
Theorem dead_device_bracket (m : machine frame) :
  Forall (fun r => r = None) (reads (outside m)) ->
  let m' := run_bracket mean fuse m in
  latest_frame_data (cam m') = latest_frame_data (cam m) /\
  match latest_frame_data (cam m) with
  | None =>
      pos m' = AtHead /\ mailbox (cam m') = READY /\
      fused_result (cam m') = fused_result (cam m)
  | Some fr =>
      match fuse [fr; fr; fr] with
      | Some result =>
          pos m' = AtHead /\ mailbox (cam m') = READY /\ fused_result (cam m') = result
      | None => pos m' = Crashed
      end
  end.
Proof.
  intros H. cbv zeta. unfold run_bracket.
  assert (Forall (fun r => r = None) (reads (cap_read (outside m)).2)) as H0.
  { unfold cap_read. destruct (reads (outside m)) as [|r rs] eqn:E; cbn [snd reads].
    - rewrite E. constructor.
    - now apply Forall_cons_1 in H as [_ H]. }
  destruct (cap_read (outside m)) as [first w0]. cbn [snd] in H0.
  cbn [BRACKET_SETTINGS fold_left].
  set (lm := match first with Some fr => mean fr | None => 0%float end).
  destruct (latest_frame_data (cam m)) as [fr|].
  - destruct (bracket_step_dead w0 (Some fr) [] lm 5000 H0) as (w1 & -> & H1).
    destruct (bracket_step_dead w1 (Some fr) ([] ++ [fr]) (mean fr) 1000 H1) as (w2 & -> & H2).
    destruct (bracket_step_dead w2 (Some fr) (([] ++ [fr]) ++ [fr]) (mean fr) 20 H2)
      as (w3 & -> & H3).
    cbn [app]. destruct (fuse [fr; fr; fr]) as [result|].
    + destruct (cap_read w3). cbn. tauto.
    + cbn. tauto.
  - destruct (bracket_step_dead w0 None [] lm 5000 H0) as (w1 & -> & H1).
    destruct (bracket_step_dead w1 None [] lm 1000 H1) as (w2 & -> & H2).
    destruct (bracket_step_dead w2 None [] lm 20 H2) as (w3 & -> & H3).
    destruct (cap_read w3). cbn. tauto.
Qed.

Lemma stopped_stays (trace : list event) (m : machine frame) :
  pos m = Stopped \/ pos m = Crashed ->
  pos (run mean fuse m trace) = pos m /\
  outside (run mean fuse m trace) = outside m.
Proof.
  revert m. induction trace as [|e trace IH]; intros m H; [split; reflexivity|].
  change (run mean fuse m (e :: trace)) with (run mean fuse (step mean fuse m e) trace).
  assert (pos (step mean fuse m e) = pos m /\ outside (step mean fuse m e) = outside m)
    as [Hp Ho].
  { destruct e as [v|]; [split; reflexivity|].
    cbn [step]. unfold worker_turn. destruct H as [H | H]; rewrite H; split; auto. }
  destruct (IH (step mean fuse m e)) as [IH1 IH2]; [now rewrite Hp|].
  now rewrite IH1, IH2, Hp, Ho.
Qed.

Lemma turn_when_off (m : machine frame) :
  shared_running m && is_running (cam m) = false ->
  let m' := worker_turn mean fuse m in
  shared_running m' && is_running (cam m') = false /\
  (pos m' = Stopped \/ pos m' = Crashed \/ (pos m = InBracket /\ pos m' = AtHead)).
Proof.
  intros Hoff. cbv zeta. unfold worker_turn. destruct (pos m) eqn:Hp.
  - rewrite Hoff. cbn. auto.
  - unfold run_bracket.
    destruct (cap_read (outside m)) as [first w0].
    destruct (fold_left _ _ _) as [[[w1 latest] captured] lm].
    destruct (match captured with [] => _ | _ => _ end) as [result|].
    + destruct (cap_read w1). cbn. auto.
    + cbn. auto.
  - rewrite Hp. auto.
  - rewrite Hp. auto.
Qed.

(** X16.  Shutdown.  With [shared_state['is_running']] or the camera's
    [is_running] off, the worker has stopped (or was ended by an
    exception) after two of its turns at most, whatever is written to the
    mailbox meanwhile: a bracket in progress is finished first, since the
    flags are only read at the head of the loop.  After that nothing moves
    it and it reads neither the device nor the clock. *)
Theorem shutdown_within_two_turns (m : machine frame)
    (w1 w2 : list fusion_state) (rest : list event) :
  shared_running m && is_running (cam m) = false ->
  let stopping := List.map ExtWrite w1 ++ WorkerTurn :: List.map ExtWrite w2 ++ [WorkerTurn] in
  let m' := run mean fuse m stopping in
  (pos m' = Stopped \/ pos m' = Crashed) /\
  pos (run mean fuse m (stopping ++ rest)) = pos m' /\
  outside (run mean fuse m (stopping ++ rest)) = outside m'.
Proof.
  intros Hoff. cbv zeta.
  assert (pos (run mean fuse m (List.map ExtWrite w1 ++ WorkerTurn ::
                                List.map ExtWrite w2 ++ [WorkerTurn])) = Stopped \/
          pos (run mean fuse m (List.map ExtWrite w1 ++ WorkerTurn ::
                                List.map ExtWrite w2 ++ [WorkerTurn])) = Crashed) as Hend.
  { rewrite run_app.
    destruct (ext_writes_keep mean fuse w1 m) as (Hp1 & Hs1 & _ & Hr1 & _).
    set (m1 := run mean fuse m (List.map ExtWrite w1)) in *.
    change (run mean fuse m1 (WorkerTurn :: ?t)) with (run mean fuse (worker_turn mean fuse m1) t).
    destruct (turn_when_off m1 ltac:(now rewrite Hs1, Hr1)) as [Hoff2 Hpos2].
    set (m2 := worker_turn mean fuse m1) in *.
    rewrite run_app.
    destruct (ext_writes_keep mean fuse w2 m2) as (Hp3 & Hs3 & _ & Hr3 & _).
    set (m3 := run mean fuse m2 (List.map ExtWrite w2)) in *.
    change (run mean fuse m3 [WorkerTurn]) with (worker_turn mean fuse m3).
    destruct (turn_when_off m3 ltac:(now rewrite Hs3, Hr3)) as [_ Hpos4].
    destruct Hpos4 as [H | [H | [H4 _]]]; [now left|now right|].
    rewrite Hp3 in H4. destruct Hpos2 as [H | [H | [_ H]]]; congruence. }
  split; [exact Hend|]. rewrite run_app. now apply stopped_stays.
Qed.

End Loop.

Lemma live_loop_witness :
  run id stub_fuse stub_machine (repeat WorkerTurn 3)
  = mk_machine true
      (mk_cam true (mailbox (cam stub_machine))
         (keep_latest (latest_frame_data (cam stub_machine))
            (take 3 (reads (outside stub_machine))))
         (fused_result (cam stub_machine)))
      AtHead
      (mk_world (drop 3 (reads (outside stub_machine))) (ticks (outside stub_machine))).
Proof. apply (live_loop id stub_fuse 3 stub_machine); reflexivity. Defined.

Lemma bracket_three_frames_witness :
  exists f1 f2 f3,
    let m' := run_bracket id stub_fuse
                (mk_machine true (mk_cam true PROCESSING (Some 100%float) None)
                   InBracket stub_world) in
    match stub_fuse [f1; f2; f3] with
    | Some result =>
        pos m' = AtHead /\ mailbox (cam m') = READY /\
        fused_result (cam m') = result /\ latest_frame_data (cam m') = Some f3
    | None =>
        pos m' = Crashed /\ mailbox (cam m') = PROCESSING /\
        fused_result (cam m') = None
    end.
Proof.
  apply (bracket_three_frames id stub_fuse
           (mk_machine true (mk_cam true PROCESSING (Some 100%float) None) InBracket stub_world)).
  discriminate.
Defined.

Lemma preview_never_lost_witness :
  latest_frame_data
    (cam (run id stub_fuse
            (mk_machine true (mk_cam true IDLE (Some 100%float) None) AtHead stub_world)
            second_request)) <> None.
Proof.
  apply (preview_never_lost id stub_fuse second_request
           (mk_machine true (mk_cam true IDLE (Some 100%float) None) AtHead stub_world)).
  discriminate.
Defined.

Lemma dead_device_bracket_witness :
  let m := mk_machine true (mk_cam true PROCESSING (Some 100%float) None) InBracket
             (mk_world [None; None] [0%float; 1%float; 2%float]) in
  let m' := run_bracket id stub_fuse m in
  latest_frame_data (cam m') = latest_frame_data (cam m) /\
  match latest_frame_data (cam m) with
  | None =>
      pos m' = AtHead /\ mailbox (cam m') = READY /\
      fused_result (cam m') = fused_result (cam m)
  | Some fr =>
      match stub_fuse [fr; fr; fr] with
      | Some result =>
          pos m' = AtHead /\ mailbox (cam m') = READY /\ fused_result (cam m') = result
      | None => pos m' = Crashed
      end
  end.
Proof.
  apply (dead_device_bracket id stub_fuse
           (mk_machine true (mk_cam true PROCESSING (Some 100%float) None) InBracket
              (mk_world [None; None] [0%float; 1%float; 2%float]))).
  repeat constructor.
Defined.

Lemma shutdown_within_two_turns_witness :
  let m := mk_machine false (mk_cam true PROCESSING None None) InBracket stub_world in
  let stopping :=
    List.map ExtWrite [REQUESTED] ++ WorkerTurn :: List.map ExtWrite [IDLE] ++ [WorkerTurn] in
  let m' := run id stub_fuse m stopping in
  (pos m' = Stopped \/ pos m' = Crashed) /\
  pos (run id stub_fuse m (stopping ++ [ExtWrite REQUESTED; WorkerTurn])) = pos m' /\
  outside (run id stub_fuse m (stopping ++ [ExtWrite REQUESTED; WorkerTurn])) = outside m'.
Proof.
  apply (shutdown_within_two_turns id stub_fuse
           (mk_machine false (mk_cam true PROCESSING None None) InBracket stub_world)
           [REQUESTED] [IDLE] [ExtWrite REQUESTED; WorkerTurn]).
  reflexivity.
Defined.

Lemma hd_rev_last (l : list float) (d : float) : hd d (rev l) = List.last l d.
Proof.
  induction l as [|x l IH] using rev_ind; [reflexivity|].
  rewrite rev_app_distr, List.last_last. reflexivity.
Qed.

(** The loop from any state that the invariant holds for. *)
Lemma settle_run_break (last_mean : float) (means : list float) :
  forall (older : list float) (st st' : settle_state),
  prev_b st = hd 0%float older ->
  (stable_count st < 3)%nat ->
  stable_run last_mean (stable_count st) older ->
  (has_changed st = true -> exists c, In c older /\ change_test last_mean c = true) ->
  (has_changed st = false -> stable_count st = 0%nat) ->
  settle_run last_mean means st = (st', true) ->
  exists consumed b post,
    means = consumed ++ b :: post /\
    stable_run last_mean 3 (b :: rev consumed ++ older) /\
    st' = mk_settle true 3 (hd 0%float (rev consumed ++ older)).
Proof.
  induction means as [|x means IH]; intros older st st' Hprev Hlt Hrun Hch Hcount Hbreak;
    [discriminate|].
  cbn [settle_run] in Hbreak. rewrite settle_iter_cases in Hbreak. cbv zeta in Hbreak.
  fold (stable (prev_b st) x) in Hbreak.
  assert (has_changed st || change_test last_mean x = true ->
          exists c, In c (x :: older) /\ change_test last_mean c = true) as Hwit.
  { intros H. apply orb_prop in H as [H|H].
    - destruct (Hch H) as (c & Hin & Hc). exists c. split; [now right|assumption].
    - exists x. split; [now left|assumption]. }
  destruct (has_changed st || change_test last_mean x) eqn:Echanged.
  - assert (stable_run last_mean
              (if stable (prev_b st) x then S (stable_count st) else 0%nat) (x :: older))
      as Hrun'.
    { destruct (stable (prev_b st) x) eqn:Es; [|exact I].
      cbn [stable_run]. rewrite <- Hprev. auto. }
    destruct (3 <=? (if stable (prev_b st) x then S (stable_count st) else 0))%nat eqn:E3.
    + injection Hbreak as <-.
      assert ((if stable (prev_b st) x then S (stable_count st) else 0%nat) = 3%nat) as E.
      { apply Nat.leb_le in E3. destruct (stable (prev_b st) x); lia. }
      rewrite E in *. exists [], x, means. cbn [rev app]. rewrite Hprev. auto.
    + apply Nat.leb_gt in E3.
      destruct (IH (x :: older)
                  (mk_settle true
                     (if stable (prev_b st) x then S (stable_count st) else 0%nat) x)
                  st' eq_refl E3 Hrun' (fun _ => Hwit eq_refl)
                  ltac:(discriminate) Hbreak) as (consumed & b & post & -> & H1 & ->).
      exists (x :: consumed), b, post. cbn [rev]. rewrite <- !app_assoc. cbn [app]. auto.
  - apply orb_false_elim in Echanged as [Ehc _].
    destruct (IH (x :: older) (mk_settle false (stable_count st) x) st' eq_refl Hlt
                ltac:(cbn [stable_count]; rewrite (Hcount Ehc); exact I)
                ltac:(discriminate) ltac:(intros _; exact (Hcount Ehc)) Hbreak)
      as (consumed & b & post & -> & H1 & ->).
    exists (x :: consumed), b, post. cbn [rev]. rewrite <- !app_assoc. cbn [app]. auto.
Qed.

(** X17.  The settling loop leaves through [break] only on the third of
    three frames in a row that are each within 1.0 of the frame before
    (of 0 for the first frame), the change having been detected on the
    first of the three or earlier.  It reads nothing after that frame, and
    [prev_b] is then the mean of the second of the three. *)
Theorem settle_break_three (last_mean : float) (means : list float) (st : settle_state) :
  settle_run last_mean means settle_init = (st, true) ->
  exists pre b1 b2 b3 post,
    means = pre ++ b1 :: b2 :: b3 :: post /\
    (exists c, In c (pre ++ [b1]) /\ change_test last_mean c = true) /\
    stable (List.last pre 0%float) b1 = true /\ stable b1 b2 = true /\
    stable b2 b3 = true /\
    st = mk_settle true 3 b2.
Proof.
  intros H.
  destruct (settle_run_break last_mean means [] settle_init st eq_refl
              ltac:(cbn; lia) I ltac:(discriminate) ltac:(reflexivity) H)
    as (consumed & b3 & post & -> & Hrun & ->).
  rewrite app_nil_r in *. cbn [stable_run] in Hrun.
  destruct (rev consumed) as [|b2 [|b1 older]] eqn:E; try tauto.
  destruct Hrun as (H3 & _ & H2 & _ & H1 & (c & Hin & Hc) & _).
  cbn [hd] in *.
  assert (consumed = rev older ++ [b1; b2]) as ->.
  { rewrite <- (rev_involutive consumed), E. cbn [rev]. now rewrite <- app_assoc. }
  exists (rev older), b1, b2, b3, post.
  rewrite <- app_assoc. cbn [app]. split; [reflexivity|]. split.
  - exists c. split; [|exact Hc]. apply in_app_iff.
    destruct Hin as [<- | Hin]; [right; now left|left; now apply in_rev in Hin].
  - rewrite <- hd_rev_last, rev_involutive. auto.
Qed.

Lemma settle_break_three_witness :
  exists pre b1 b2 b3 post,
    [100; 40; 40; 40; 40; 7]%float = pre ++ b1 :: b2 :: b3 :: post /\
    (exists c, In c (pre ++ [b1]) /\ change_test 100 c = true) /\
    stable (List.last pre 0%float) b1 = true /\ stable b1 b2 = true /\
    stable b2 b3 = true /\
    mk_settle true 3 40 = mk_settle true 3 b2.
Proof.
  apply (settle_break_three 100 [100; 40; 40; 40; 40; 7]%float (mk_settle true 3 40)).
  reflexivity.
Defined.

End WorkerLaws.

(** ** The engine: absent results, pyramid depth and weights *)

Module FusionLaws.
Import Fusion Reference FusionFacts.

Lemma bind_ret {A B : Type} (m : res A) (k : A -> res B) (b : B) :
  bind m k = Ret b -> exists a, m = Ret a /\ k a = Ret b.
Proof. destruct m as [a|e]; [now exists a|discriminate]. Qed.

(** X18.  [fuse] returns the absent result for the empty bracket and for
    no other: on a bracket that is not empty it raises or returns an
    image, whatever OpenCV and the arithmetic do. *)
Theorem fuse_absent_iff_empty {F : Type} (fl : float_api F) (cv : cv2_api F)
    (wc ws we : F) (images : list (ndarray Z)) :
  fuse fl cv wc ws we images = Ret None <-> images = [].
Proof.
  split; [|now intros ->].
  destruct images as [|img0 others]; [reflexivity|].
  unfold fuse. intros H.
  repeat (apply bind_ret in H as (? & _ & H)).
  discriminate.
Qed.

Lemma half_bounds (a b n : nat) :
  ((2 * a <= n -> a <= half n) /\ (n <= 2 * b -> half n <= b))%nat.
Proof.
  unfold half. split; intros H.
  - apply Nat.div_le_lower_bound; lia.
  - apply Nat.lt_succ_r, Nat.Div0.div_lt_upper_bound. lia.
Qed.

Lemma lvl_bounds (k : nat) : forall a b n : nat,
  ((a * 2 ^ k <= n -> a <= lvl k n) /\ (n <= b * 2 ^ k -> lvl k n <= b))%nat.
Proof.
  induction k as [|k IH]; intros a b n.
  - unfold lvl. simpl. lia.
  - rewrite lvl_S. cbn [Nat.pow].
    destruct (IH (2 * a) (2 * b) n)%nat as [IH1 IH2].
    destruct (half_bounds a b (lvl k n)) as [H1 H2].
    split; intros H; [apply H1, IH1|apply H2, IH2]; lia.
Qed.

Section Coarsest.
Context {F : Type}.
Variable cv : cv2_api F.
Hypothesis cv_ok : cv2_ok cv.

(** X19.  For a frame whose smaller side is 8 pixels or more, the number
    of levels that [fuse] computes is at least 1 and is the number of
    levels of the pyramid, and the coarsest level has a smaller side
    between 8 and 16 pixels. *)
Theorem coarsest_level (img : ndarray Z) (h w : nat) :
  (8 <= Nat.min h w)%nat -> has_shape [h; w; 3%nat] img ->
  let L := Z.log2 (Z.of_nat (Nat.min h w)) - 2 in
  exists gp top hl wl,
    (m <- min_dim_of (shape img) ;; num_levels_of m) = Ret L /\ 1 <= L /\
    _gaussian_pyramid_u8 cv img L = Ret gp /\ length gp = Z.to_nat L /\
    last gp = Some top /\ has_shape [hl; wl; 3%nat] top /\
    (8 <= Nat.min hl wl <= 16)%nat.
Proof.
  intros Hmin Himg L.
  assert (0 < h /\ 0 < w)%nat as [Hh Hw] by lia.
  assert (3 <= Z.log2 (Z.of_nat (Nat.min h w))) as Hlog.
  { change 3 with (Z.log2 8). apply Z.log2_le_mono. lia. }
  destruct (gaussian_pyramid_u8_shapes cv cv_ok [3%nat] h w img L Hh Hw Himg)
    as (gp & Hgp & Hlen & Hshapes).
  assert (depth L = Z.to_nat L) as Hd by (unfold depth; lia).
  rewrite Hd in Hlen.
  destruct (last gp) as [top|] eqn:Elast.
  2:{ apply last_None in Elast. subst gp. cbn in Hlen. lia. }
  pose proof Elast as Hk. rewrite last_lookup in Hk.
  set (k := Z.to_nat (L - 1)).
  assert (Init.Nat.pred (length gp) = k) as Ek by (unfold k; lia).
  rewrite Ek in Hk.
  exists gp, top, (lvl k h), (lvl k w).
  split; [destruct Himg as [-> _]; now apply min_dim_levels|].
  split; [unfold L; lia|]. split; [exact Hgp|]. split; [exact Hlen|].
  split; [exact Elast|]. split; [now apply Hshapes|].
  destruct (Z.log2_spec (Z.of_nat (Nat.min h w)) ltac:(lia)) as [Hlo Hhi].
  assert (Z.log2 (Z.of_nat (Nat.min h w)) = Z.of_nat k + 3) as Elog by (unfold k, L; lia).
  rewrite Elog in Hlo. replace (Z.succ (Z.log2 _)) with (Z.of_nat k + 4) in Hhi by lia.
  rewrite Z.pow_add_r in Hlo, Hhi by lia.
  assert (Z.of_nat (2 ^ k) = 2 ^ Z.of_nat k) as Epow by (now rewrite Nat2Z.inj_pow).
  rewrite <- Epow in Hlo, Hhi.
  assert (8 * 2 ^ k <= Nat.min h w /\ Nat.min h w <= 16 * 2 ^ k)%nat as [Hlo' Hhi'] by lia.
  destruct (lvl_bounds k 8 16 h) as [Hh1 Hh2].
  destruct (lvl_bounds k 8 16 w) as [Hw1 Hw2].
  destruct (Nat.min_spec h w) as [[_ E]|[_ E]]; rewrite E in *;
    destruct (Nat.min_spec (lvl k h) (lvl k w)) as [[? E2]|[? E2]]; rewrite E2; lia.
Qed.

End Coarsest.

Lemma coarsest_level_witness :
  let L := Z.log2 (Z.of_nat (Nat.min 40 24)) - 2 in
  exists gp top hl wl,
    (m <- min_dim_of (shape (flat 40 24 200)) ;; num_levels_of m) = Ret L /\ 1 <= L /\
    _gaussian_pyramid_u8 nn (flat 40 24 200) L = Ret gp /\ length gp = Z.to_nat L /\
    last gp = Some top /\ has_shape [hl; wl; 3%nat] top /\
    (8 <= Nat.min hl wl <= 16)%nat.
Proof.
  apply (coarsest_level nn nn_ok (flat 40 24 200) 40 24).
  - cbn. lia.
  - apply flat_shape.
Defined.


Local Open Scope Q_scope.

Section Positive.
Context {F : Type}.
Variable fl : float_api F.
Variable cv : cv2_api F.
Variables wc ws we : F.
Variable fin : F -> Prop.
Variable val : F -> Q.
Variables u tiny huge : Q.
Hypothesis cv_ok : cv2_ok cv.
Hypothesis model : float_model fl fin val u tiny huge.

(** X20.  With float64 rounding by the standard model, for a bracket of
    [N] frames of one shape whose measure terms are finite, not negative
    and at most [M], with [N u <= 1/2] and [4 N (M + 1)] and
    [epsilon / (16 N (M + 1))] in the range of float64, every value of
    every normalized weight map is a finite float above zero: [epsilon]
    keeps each weight above zero, so the sum that
    [_generate_weight_maps] divides by is never zero. *)
Theorem weights_positive (images : list (ndarray Z)) (h w : nat) (M : Q) :
  images <> [] -> (0 < h)%nat -> (0 < w)%nat ->
  Forall (has_shape [h; w; 3%nat]) images ->
  Forall (measures_within fl cv wc ws we fin val M) images ->
  0 <= M ->
  nq (length images) * u <= 1 # 2 ->
  4 * nq (length images) * (M + 1) <= huge ->
  tiny * (16 * nq (length images) * (M + 1)) <= 1 # 1000000000000 ->
  exists weights,
    _generate_weight_maps fl cv wc ws we images = Ret weights /\
    Forall (fun W => has_shape [h; w] W /\
                     Forall (fun x => fin x /\ 0 < val x) (data W)) weights.
Proof.
  intros Hne Hh Hw Hall Hmeas HM HN Hcap Htiny.
  destruct (weight_columns fl cv wc ws we fin val u tiny huge cv_ok model
              images h w M Hne Hh Hw Hall Hmeas HM HN Hcap Htiny)
    as (raw & S & Hlen & Hshapes & HS & -> & Hcols).
  eexists; split; [reflexivity|].
  apply Forall_map. apply Forall_forall. intros W HW.
  pose proof (proj1 (Forall_forall _ _) Hshapes W HW) as HWs.
  split; [now apply zip_shape|].
  cbn [data]. apply Forall_lookup. intros p r Hr.
  apply lookup_zip_with_Some in Hr as (x & s & -> & Hx & Hs).
  assert (p < h * w)%nat as Hp.
  { apply lookup_lt_Some in Hx. destruct HWs as [Es Hwf]. unfold wf in Hwf.
    rewrite Hwf, Es in Hx. cbn in Hx. lia. }
  destruct (Hcols p Hp) as (x0 & rest & Ecol & ES & Hrange).
  assert (length (x0 :: rest) = length images) as Hcount.
  { rewrite <- Ecol, length_map. exact Hlen. }
  destruct (column_sum fl fin val u tiny huge model x0 rest
              (1 # 4000000000000) (2 * (M + 1)) ltac:(reflexivity) Hrange
              ltac:(rewrite Hcount; exact HN)
              ltac:(rewrite Hcount; lra) ltac:(rewrite Hcount; lra))
    as (FS & HSpos & _ & _ & _ & Hq).
  cbv zeta in FS, HSpos, Hq.
  rewrite <- (nth_lookup_Some _ _ (lit fl 0) _ Hs), ES.
  assert (x ∈ x0 :: rest) as Hin.
  { rewrite <- Ecol, <- (nth_lookup_Some _ _ (lit fl 0) _ Hx).
    apply list_elem_of_fmap. exists W. split; [reflexivity|exact HW]. }
  destruct (proj1 (Forall_forall _ _) Hq x Hin) as (Fx & Hxpos & Hlo & Hhi).
  destruct (div_pos fl fin val u tiny huge model x _ Fx FS Hxpos HSpos Hlo Hhi)
    as (Fq & _ & _ & Hqpos).
  split; assumption.
Qed.

End Positive.

Lemma weights_positive_witness :
  exists weights,
    _generate_weight_maps exact nn 1 1 1 [flat 16 8 200; flat 16 8 50] = Ret weights /\
    Forall (fun W => has_shape [16; 8]%nat W /\
                     Forall (fun x => True /\ 0 < x) (data W)) weights.
Proof.
  apply (weights_positive exact nn 1 1 1 (fun _ => True) (fun x => x)
           (1 # 9007199254740992) (1 # 1000000000000000000000000000000)
           1000000000000000000000000000000 nn_ok
           (exact_model (1 # 9007199254740992) (1 # 1000000000000000000000000000000)
              1000000000000000000000000000000
              ltac:(lra) ltac:(lra) ltac:(lra) ltac:(lra) ltac:(lra))
           [flat 16 8 200; flat 16 8 50] 16 8 1).
  - discriminate.
  - lia.
  - lia.
  - repeat constructor; apply flat_shape.
  - repeat constructor; apply measures_check; vm_compute; reflexivity.
  - lra.
  - vm_compute. discriminate.
  - vm_compute. discriminate.
  - vm_compute. discriminate.
Defined.

End FusionLaws.
